(** * Aspect-ratio-preserving layout engine of the wallpaper creator

    A shallow embedding of the layout methods of [WallpaperCreator]
    (src/app.js, lines 311-836): the aspect-ratio helpers, the five
    placement strategies and the validate-then-fall-back orchestrator,
    followed by the properties the specification states about them.
    A second part embeds the methods that put the placements on the
    canvas and manage the gallery, the selection, the zoom, the history
    and the dragging of elements (lines 637-666, 838-865 and 939-1408),
    with the listeners that call them.

    Numbers.  JavaScript numbers are modelled by [number]: exact rationals
    extended with the three special values [+Infinity], [-Infinity] and
    [NaN].  Division by zero, [Infinity - Infinity], [0 * Infinity] and the
    comparisons with [NaN] behave as in IEEE 754; rounding of finite
    results is not modelled (finite arithmetic is exact) and zero carries
    no sign.  A comparison is therefore decided on the exact values: the
    model determines the branch the source takes where the two compared
    values differ by more than the rounding of their computation, and
    where their computation is exact (sums and products of whole numbers
    below 2^53).  Several properties below are therefore stated with a
    margin around a threshold ([Spec.roundingMargin]) or for whole pixel
    quantities ([pixelImage], [screenConfig]). *)

From Stdlib Require Import QArith Qround Qabs Lqa ZArith Lia Sorted.
From stdpp Require Import base list gmap strings.

(** ** JavaScript numbers *)

Module Num.

Inductive number : Type :=
| Fin (q : Q)
| PInf
| NInf
| NaN.

Definition ofZ (z : Z) : number := Fin (inject_Z z).
Definition ofNat (n : nat) : number := ofZ (Z.of_nat n).

Definition Qltb (a b : Q) : bool := negb (Qle_bool b a).

(** Unary minus. *)
Definition neg (a : number) : number :=
  match a with
  | Fin q => Fin (- q)
  | PInf => NInf
  | NInf => PInf
  | NaN => NaN
  end.

(** [a + b] *)
Definition add (a b : number) : number :=
  match a, b with
  | NaN, _ | _, NaN => NaN
  | Fin p, Fin q => Fin (p + q)
  | PInf, NInf | NInf, PInf => NaN
  | PInf, _ | _, PInf => PInf
  | NInf, _ | _, NInf => NInf
  end.

(** [a - b] *)
Definition sub (a b : number) : number := add a (neg b).

(** The infinity whose sign is the sign of [q]; [NaN] at zero. *)
Definition signedInf (q : Q) : number :=
  match (q ?= 0)%Q with
  | Gt => PInf
  | Lt => NInf
  | Eq => NaN
  end.

(** [a * b] *)
Definition mul (a b : number) : number :=
  match a, b with
  | NaN, _ | _, NaN => NaN
  | Fin p, Fin q => Fin (p * q)
  | Fin p, PInf | PInf, Fin p => signedInf p
  | Fin p, NInf | NInf, Fin p => signedInf (- p)
  | PInf, PInf | NInf, NInf => PInf
  | PInf, NInf | NInf, PInf => NInf
  end.

(** [a / b]: a finite non-zero dividend over zero is an infinity,
    [0 / 0] and [Infinity / Infinity] are [NaN]. *)
Definition div (a b : number) : number :=
  match a, b with
  | NaN, _ | _, NaN => NaN
  | Fin p, Fin q => if Qeq_bool q 0 then signedInf p else Fin (p / q)
  | Fin _, (PInf | NInf) => Fin 0
  | PInf, Fin q => if Qltb q 0 then NInf else PInf
  | NInf, Fin q => if Qltb q 0 then PInf else NInf
  | (PInf | NInf), (PInf | NInf) => NaN
  end.

(** [a < b], [a <= b], [a > b]: every comparison with [NaN] is false. *)
Definition ltb (a b : number) : bool :=
  match a, b with
  | NaN, _ | _, NaN => false
  | Fin p, Fin q => Qltb p q
  | _, NInf => false
  | NInf, _ => true
  | PInf, _ => false
  | _, PInf => true
  end.

Definition leb (a b : number) : bool :=
  match a, b with
  | NaN, _ | _, NaN => false
  | Fin p, Fin q => Qle_bool p q
  | NInf, _ => true
  | _, PInf => true
  | _, NInf => false
  | PInf, _ => false
  end.

Definition gtb (a b : number) : bool := ltb b a.

(** The comparisons as propositions. *)
Definition le (a b : number) : Prop := leb a b = true.
Definition lt (a b : number) : Prop := ltb a b = true.

(** [Math.min(a, b)] and [Math.max(a, b)]: [NaN] if either is. *)
Definition min (a b : number) : number :=
  match a, b with
  | NaN, _ | _, NaN => NaN
  | _, _ => if ltb b a then b else a
  end.

Definition max (a b : number) : number :=
  match a, b with
  | NaN, _ | _, NaN => NaN
  | _, _ => if ltb a b then b else a
  end.

(** [Math.min(...l)] and [Math.max(...l)]; with no argument they are
    [Infinity] and [-Infinity]. *)
Definition minList (l : list number) : number := fold_left min l PInf.
Definition maxList (l : list number) : number := fold_left max l NInf.

(** [Math.abs], [Math.ceil], [Math.floor]. *)
Definition abs (a : number) : number :=
  match a with
  | Fin q => Fin (Qabs q)
  | PInf | NInf => PInf
  | NaN => NaN
  end.

Definition ceil (a : number) : number :=
  match a with
  | Fin q => ofZ (Qceiling q)
  | _ => a
  end.

Definition floor (a : number) : number :=
  match a with
  | Fin q => ofZ (Qfloor q)
  | _ => a
  end.

(** [a % b]: the remainder has the sign of the dividend. *)
Definition rem (a b : number) : number :=
  match a, b with
  | Fin p, Fin q =>
      if Qeq_bool q 0 then NaN
      else
        let t := (p / q)%Q in
        let n := if Qltb t 0 then Qceiling t else Qfloor t in
        Fin (p - q * inject_Z n)
  | Fin p, (PInf | NInf) => Fin p
  | _, _ => NaN
  end.

(** [Math.ceil(Math.sqrt(n))] at an array length [n].  The square root is
    only ever taken of a length and immediately rounded up, so the pair is
    embedded as the integer ceiling square root. *)
Definition ceilSqrt (n : nat) : nat :=
  let s := Nat.sqrt n in
  if (s * s =? n)%nat then s else S s.

(** Equality of numbers up to the representation of a rational. *)
Definition eqn (a b : number) : Prop :=
  match a, b with
  | Fin p, Fin q => p == q
  | PInf, PInf | NInf, NInf | NaN, NaN => True
  | _, _ => False
  end.

Definition isFin (a : number) : Prop :=
  match a with Fin _ => True | _ => False end.

(** A finite, strictly positive number. *)
Definition pos (a : number) : Prop :=
  match a with Fin q => (0 < q)%Q | _ => False end.

End Num.

Export Num (number, Fin, PInf, NInf, NaN).

Declare Scope num_scope.
Delimit Scope num_scope with num.
Bind Scope num_scope with number.
Infix "+" := Num.add : num_scope.
Infix "-" := Num.sub : num_scope.
Infix "*" := Num.mul : num_scope.
Infix "/" := Num.div : num_scope.
Infix "<?" := Num.ltb : num_scope.
Infix "<=?" := Num.leb : num_scope.
Infix ">?" := Num.gtb : num_scope.
Infix "%%" := Num.rem (at level 40, left associativity) : num_scope.

Arguments Num.add : simpl never.
Arguments Num.sub : simpl never.
Arguments Num.mul : simpl never.
Arguments Num.div : simpl never.
Arguments Num.ltb : simpl never.
Arguments Num.leb : simpl never.
Arguments Num.gtb : simpl never.
Arguments Num.min : simpl never.
Arguments Num.max : simpl never.
Arguments Num.abs : simpl never.
Arguments Num.ceil : simpl never.
Arguments Num.floor : simpl never.
Arguments Num.rem : simpl never.

Local Open Scope num_scope.

(** ** Data model *)

(** An entry of [this.images]; only the fields the layout code reads. *)
Record Image : Type := mkImage {
  id : nat;
  originalWidth : number;
  originalHeight : number
}.

(** An element of [this.aspectRatioCategories].  The two objects returned
    by the fallback of [categorizeByAspectRatio] carry no [ratio] and no
    [tolerance]. *)
Record Category : Type := mkCategory {
  name : string;
  ratio : option number;
  tolerance : option number;
  group : string
}.

(** [this.autoFitSettings] *)
Record AutoFitSettings : Type := mkSettings {
  spacing : number;
  margin : number;
  maintainRatio : bool;
  fillCanvas : bool;
  allowStacking : bool;
  minImageSize : number;
  maxScaleDown : number;
  stackDirection : string;
  balanceComposition : bool;
  prioritizeLargeImages : bool
}.

(** The part of a [WallpaperCreator] instance the layout methods read. *)
Record WallpaperCreator : Type := mkCreator {
  autoFitSettings : AutoFitSettings;
  canvasWidth : number;
  canvasHeight : number;
  aspectRatioCategories : list Category;
  images : list Image;
  selectedImages : gset nat;
  currentLayout : option string
}.

(** [{ width, height }], the result of [scaleImagePreservingRatio] and the
    second argument of [validateAspectRatioPreservation]; the fields are
    named apart from those of [Position]. *)
Record Dimensions : Type := mkDimensions {
  dimWidth : number;
  dimHeight : number
}.

(** An element of the [positions] arrays. *)
Record Position : Type := mkPosition {
  imageData : Image;
  x : number;
  y : number;
  width : number;
  height : number
}.

(** An element of [rowImages] in [applyNaturalFlowLayout]; [itemX] and
    [itemY] are its fields [x] and [y], which nothing reads. *)
Record RowItem : Type := mkRowItem {
  image : Image;
  aspectRatio : number;
  naturalWidth : number;
  naturalHeight : number;
  itemX : number;
  itemY : number
}.

(** The values the constructor assigns. *)
Definition defaultSettings : AutoFitSettings :=
  {| spacing := Num.ofZ 10;
     margin := Num.ofZ 20;
     maintainRatio := true;
     fillCanvas := false;
     allowStacking := true;
     minImageSize := Num.ofZ 100;
     maxScaleDown := Fin (3 # 10);
     stackDirection := "auto";
     balanceComposition := true;
     prioritizeLargeImages := false |}.

Definition defaultCategories : list Category :=
  [ mkCategory "Square" (Some (Fin 1)) (Some (Fin (5 # 100))) "square";
    mkCategory "Portrait" (Some (Fin (75 # 100))) (Some (Fin (15 # 100)))
      "portrait";
    mkCategory "Landscape" (Some (Fin (133 # 100))) (Some (Fin (15 # 100)))
      "landscape";
    mkCategory "Wide" (Some (Fin (178 # 100))) (Some (Fin (2 # 10))) "wide";
    mkCategory "Panoramic" (Some (Fin (25 # 10))) (Some (Fin (5 # 10)))
      "panoramic";
    mkCategory "Ultra-wide" (Some (Fin (35 # 10))) (Some (Fin 1)) "ultrawide" ].

(** A freshly constructed instance holding [imgs], all of them selected,
    with [layout] as the current layout. *)
Definition creator (settings : AutoFitSettings) (cw ch : number)
    (imgs : list Image) (layout : option string) : WallpaperCreator :=
  {| autoFitSettings := settings;
     canvasWidth := cw;
     canvasHeight := ch;
     aspectRatioCategories := defaultCategories;
     images := imgs;
     selectedImages := list_to_set (id <$> imgs);
     currentLayout := layout |}.

(** ** Aspect ratio preservation methods *)

Section Engine.

Variable this : WallpaperCreator.

Definition calculateAspectRatio (image : Image) : number :=
  originalWidth image / originalHeight image.

(** [Math.abs(ratio - category.ratio) <= category.tolerance]; a missing
    field is [undefined], which makes the comparison false.  The test is
    on the exact difference: for a ratio within rounding distance of
    [category.ratio - category.tolerance] or
    [category.ratio + category.tolerance] it does not determine the
    outcome in the source. *)
Definition categoryMatches (r : number) (category : Category) : bool :=
  match ratio category, tolerance category with
  | Some cr, Some tol => Num.abs (r - cr) <=? tol
  | _, _ => false
  end.

Definition categorizeByAspectRatio (image : Image) : Category :=
  let r := calculateAspectRatio image in
  match find (categoryMatches r) (aspectRatioCategories this) with
  | Some category => category
  | None =>
      if r >? Fin 1 then mkCategory "Landscape" None None "landscape"
      else mkCategory "Portrait" None None "portrait"
  end.

(** The [groups] object: its keys in insertion order, each with its
    array. *)
Fixpoint pushToGroup (key : string) (image : Image)
    (groups : list (string * list Image)) : list (string * list Image) :=
  match groups with
  | [] => [(key, [image])]
  | (k, imgs) :: rest =>
      if String.eqb k key then (k, imgs ++ [image]) :: rest
      else (k, imgs) :: pushToGroup key image rest
  end.

Definition groupImagesByAspectRatio (imgs : list Image)
    : list (string * list Image) :=
  fold_left
    (fun groups image =>
       pushToGroup (group (categorizeByAspectRatio image)) image groups)
    imgs [].

(** [Math.abs(originalRatio - proposedRatio) <= tolerance] with the
    tolerance 0.01.  The test is on the exact difference of the two exact
    quotients: for a difference within rounding distance of 0.01 it does
    not determine the verdict in the source. *)
Definition validateAspectRatioPreservation (originalImage : Image)
    (proposedDimensions : Dimensions) : bool :=
  let originalRatio := calculateAspectRatio originalImage in
  let proposedRatio :=
    dimWidth proposedDimensions / dimHeight proposedDimensions in
  let tol := Fin (1 # 100) in
  Num.abs (originalRatio - proposedRatio) <=? tol.

Definition scaleImagePreservingRatio (originalImage : Image)
    (maxWidth maxHeight : number) : Dimensions :=
  let aspectRatio := calculateAspectRatio originalImage in
  let (width, height) :=
    if maxWidth / maxHeight >? aspectRatio
    then (maxHeight * aspectRatio, maxHeight)
    else (maxWidth, maxWidth / aspectRatio) in
  let minSize := minImageSize (autoFitSettings this) in
  if (width <? minSize) || (height <? minSize) then
    if width <? height
    then mkDimensions minSize (minSize / aspectRatio)
    else mkDimensions (minSize * aspectRatio) minSize
  else mkDimensions width height.

(** ** Natural layout algorithms *)

Definition area (image : Image) : number :=
  originalWidth image * originalHeight image.

(** The comparator [(a, b) => b.area - a.area] of the two [sort] calls.
    The areas are exact products: they are the areas of the source for
    whole dimensions whose product stays below 2^53. *)
Definition compareByArea (a b : Image) : number := area b - area a.

(** [[...images].sort(compareByArea)].  [Array.prototype.sort] is stable:
    [a] is moved behind [b] only where the comparator is positive, which is
    what insertion from the right does.  On finite areas the comparator is
    a consistent order and the sorted array is determined by it. *)
Fixpoint insertByArea (a : Image) (sorted : list Image) : list Image :=
  match sorted with
  | [] => [a]
  | b :: rest =>
      if compareByArea a b >? Fin 0 then b :: insertByArea a rest
      else a :: sorted
  end.

Definition sortByArea (imgs : list Image) : list Image :=
  foldr insertByArea [] imgs.

Definition sortedImages (imgs : list Image) : list Image :=
  if prioritizeLargeImages (autoFitSettings this) then sortByArea imgs
  else imgs.

(** One iteration of [rowImages.forEach] in [finalizeNaturalRow], on the
    pair of [currentX] and [positions]. *)
Definition placeRowItem (rowY finalScaleFactor : number)
    (st : number * list Position) (item : RowItem)
    : number * list Position :=
  let spacing := spacing (autoFitSettings this) in
  let '(currentX, positions) := st in
  let finalWidth := naturalWidth item * finalScaleFactor in
  let finalHeight := naturalHeight item * finalScaleFactor in
  (currentX + (finalWidth + spacing),
   positions ++
     [ {| imageData := image item;
          x := currentX;
          y := rowY;
          width := Num.max (minImageSize (autoFitSettings this)) finalWidth;
          height := Num.max (minImageSize (autoFitSettings this)) finalHeight
       |} ]).

(** The scale factor [finalizeNaturalRow] computes for a row. *)
Definition rowScaleFactor (rowImages : list RowItem)
    (availableWidth : number) : number :=
  let spacing := spacing (autoFitSettings this) in
  let totalNaturalWidth :=
    fold_left (fun sum item => sum + naturalWidth item) rowImages (Fin 0) in
  let totalSpacing := (Num.ofNat (length rowImages) - Fin 1) * spacing in
  let availableImageWidth := availableWidth - totalSpacing in
  let scaleFactor :=
    Num.min (Fin 1) (availableImageWidth / totalNaturalWidth) in
  let maxScaleDown := maxScaleDown (autoFitSettings this) in
  Num.max maxScaleDown scaleFactor.

(** [finalizeNaturalRow] pushes onto the [positions] array it is handed;
    the embedding returns the extended array. *)
Definition finalizeNaturalRow (rowImages : list RowItem) (rowY : number)
    (availableWidth : number) (positions : list Position)
    : list Position :=
  if (length rowImages =? 0)%nat then positions
  else
    let margin := margin (autoFitSettings this) in
    let finalScaleFactor := rowScaleFactor rowImages availableWidth in
    snd
      (fold_left (placeRowItem rowY finalScaleFactor) rowImages
         (margin, positions)).

(** The variables of the loop of [applyNaturalFlowLayout]. *)
Record FlowState : Type := mkFlowState {
  currentRowY : number;
  currentRowX : number;
  currentRowHeight : number;
  rowImages : list RowItem;
  flowPositions : list Position
}.

(** One iteration of the loop over [sortedImages]. *)
Definition flowStep (availableWidth : number) (st : FlowState)
    (image : Image) : FlowState :=
  let margin := margin (autoFitSettings this) in
  let spacing := spacing (autoFitSettings this) in
  let aspectRatio := calculateAspectRatio image in
  let imageWidth :=
    Num.min (originalWidth image) (availableWidth * Fin (3 # 10)) in
  let imageHeight := imageWidth / aspectRatio in
  let st :=
    if (currentRowX st + imageWidth >? availableWidth + margin)
       && (0 <? length (rowImages st))%nat
    then
      {| flowPositions :=
           finalizeNaturalRow (rowImages st) (currentRowY st) availableWidth
             (flowPositions st);
         currentRowY := currentRowY st + (currentRowHeight st + spacing);
         currentRowX := margin;
         currentRowHeight := Fin 0;
         rowImages := [] |}
    else st in
  {| rowImages :=
       rowImages st ++
         [ {| image := image;
              aspectRatio := aspectRatio;
              naturalWidth := imageWidth;
              naturalHeight := imageHeight;
              itemX := currentRowX st;
              itemY := currentRowY st |} ];
     currentRowX := currentRowX st + (imageWidth + spacing);
     currentRowHeight := Num.max (currentRowHeight st) imageHeight;
     currentRowY := currentRowY st;
     flowPositions := flowPositions st |}.

Definition applyNaturalFlowLayout (imgs : list Image) : list Position :=
  let margin := margin (autoFitSettings this) in
  let availableWidth := canvasWidth this - Fin 2 * margin in
  let st :=
    fold_left (flowStep availableWidth) (sortedImages imgs)
      {| currentRowY := margin;
         currentRowX := margin;
         currentRowHeight := Fin 0;
         rowImages := [];
         flowPositions := [] |} in
  if (0 <? length (rowImages st))%nat
  then finalizeNaturalRow (rowImages st) (currentRowY st) availableWidth
         (flowPositions st)
  else flowPositions st.

(** [columnHeights[i]]; reading past the end gives [undefined], which
    compares and adds like [NaN]. *)
Definition heightAt (columnHeights : list number) (i : nat) : number :=
  default NaN (columnHeights !! i).

(** The inner loop of [applyMasonryLayout]: the index of the first column
    of least height.  The heights compared are exact sums: columns whose
    exact heights are equal or within rounding distance of each other,
    but were summed from different rectangles, need not compare the same
    way in the source. *)
Definition findShortestColumn (columnCount : nat)
    (columnHeights : list number) : nat :=
  fst
    (fold_left
       (fun '(shortestColumn, shortestHeight) i =>
          if heightAt columnHeights i <? shortestHeight
          then (i, heightAt columnHeights i)
          else (shortestColumn, shortestHeight))
       (seq 1 (columnCount - 1)) (0%nat, heightAt columnHeights 0)).

Definition masonryColumnCount (imgs : list Image) : nat :=
  Nat.max 2 (Nat.min 5 (Num.ceilSqrt (length imgs))).

Definition masonryColumnWidth (imgs : list Image) : number :=
  let margin := margin (autoFitSettings this) in
  let spacing := spacing (autoFitSettings this) in
  let availableWidth := canvasWidth this - Fin 2 * margin in
  let columnCount := masonryColumnCount imgs in
  (availableWidth - (Num.ofNat columnCount - Fin 1) * spacing)
  / Num.ofNat columnCount.

(** One iteration of [sortedImages.forEach] in [applyMasonryLayout], on
    the pair of [columnHeights] and [positions]. *)
Definition masonryStep (columnCount : nat) (columnWidth : number)
    (st : list number * list Position) (image : Image)
    : list number * list Position :=
  let margin := margin (autoFitSettings this) in
  let spacing := spacing (autoFitSettings this) in
  let '(columnHeights, positions) := st in
  let shortestColumn := findShortestColumn columnCount columnHeights in
  let scaledDimensions :=
    scaleImagePreservingRatio image columnWidth (columnWidth * Fin 2) in
  let x := margin + Num.ofNat shortestColumn * (columnWidth + spacing) in
  let y := heightAt columnHeights shortestColumn in
  (<[shortestColumn :=
       heightAt columnHeights shortestColumn
       + (dimHeight scaledDimensions + spacing)]> columnHeights,
   positions ++
     [ {| imageData := image;
          x := x;
          y := y;
          width := dimWidth scaledDimensions;
          height := dimHeight scaledDimensions |} ]).

(** The state of [applyMasonryLayout] when its loop ends: the final
    [columnHeights] and [positions]. *)
Definition masonryRun (imgs : list Image) : list number * list Position :=
  let columnCount := masonryColumnCount imgs in
  fold_left (masonryStep columnCount (masonryColumnWidth imgs))
    (sortedImages imgs)
    (replicate columnCount (margin (autoFitSettings this)), []).

Definition applyMasonryLayout (imgs : list Image) : list Position :=
  snd (masonryRun imgs).

Definition gridCols (imgs : list Image) : nat :=
  Num.ceilSqrt (length imgs).

Definition gridRows (imgs : list Image) : number :=
  Num.ceil (Num.ofNat (length imgs) / Num.ofNat (gridCols imgs)).

Definition baseGridWidth (imgs : list Image) : number :=
  let margin := margin (autoFitSettings this) in
  let spacing := spacing (autoFitSettings this) in
  let availableWidth := canvasWidth this - Fin 2 * margin in
  let cols := Num.ofNat (gridCols imgs) in
  (availableWidth - (cols - Fin 1) * spacing) / cols.

Definition baseGridHeight (imgs : list Image) : number :=
  let margin := margin (autoFitSettings this) in
  let spacing := spacing (autoFitSettings this) in
  let availableHeight := canvasHeight this - Fin 2 * margin in
  let rows := gridRows imgs in
  (availableHeight - (rows - Fin 1) * spacing) / rows.

(** The body of the loop of [applyProportionalGridLayout] at index [i]. *)
Definition gridPosition (cols : nat) (baseGridWidth baseGridHeight : number)
    (i : nat) (image : Image) : Position :=
  let margin := margin (autoFitSettings this) in
  let spacing := spacing (autoFitSettings this) in
  let row := Num.floor (Num.ofNat i / Num.ofNat cols) in
  let col := Num.ofNat i %% Num.ofNat cols in
  let gridX := margin + col * (baseGridWidth + spacing) in
  let gridY := margin + row * (baseGridHeight + spacing) in
  let scaledDimensions :=
    scaleImagePreservingRatio image baseGridWidth baseGridHeight in
  let x := gridX + (baseGridWidth - dimWidth scaledDimensions) / Fin 2 in
  let y := gridY + (baseGridHeight - dimHeight scaledDimensions) / Fin 2 in
  {| imageData := image;
     x := x;
     y := y;
     width := dimWidth scaledDimensions;
     height := dimHeight scaledDimensions |}.

Definition applyProportionalGridLayout (imgs : list Image)
    : list Position :=
  imap
    (gridPosition (gridCols imgs) (baseGridWidth imgs) (baseGridHeight imgs))
    imgs.

(** One iteration of [Object.keys(groups).forEach] in
    [applyAspectGroupedLayout], on the pair of [currentY] and
    [positions]. *)
Definition groupedStep (st : number * list Position)
    (entry : string * list Image) : number * list Position :=
  let spacing := spacing (autoFitSettings this) in
  let '(currentY, positions) := st in
  let groupImages := snd entry in
  let groupPositions := applyNaturalFlowLayout groupImages in
  let minY := Num.minList (map y groupPositions) in
  let maxY :=
    Num.maxList (map (fun pos => y pos + height pos) groupPositions) in
  let groupHeight := maxY - minY in
  (currentY + (groupHeight + spacing * Fin 2),
   positions ++
     map
       (fun pos =>
          {| imageData := imageData pos;
             x := x pos;
             y := y pos - minY + currentY;
             width := width pos;
             height := height pos |})
       groupPositions).

Definition applyAspectGroupedLayout (imgs : list Image) : list Position :=
  let groups := groupImagesByAspectRatio imgs in
  snd (fold_left groupedStep groups (margin (autoFitSettings this), [])).

(** [Math.random] is the stream [random] of the values its successive
    calls return, together with the number of calls made so far.  One
    iteration of [masonryPositions.forEach] in [applyOrganicStackLayout]
    draws first the offset of [x] and then that of [y]. *)
Definition organicPosition (random : nat -> Q) (calls : nat) (index : nat)
    (pos : Position) : Position * nat :=
  let margin := margin (autoFitSettings this) in
  let spacing := spacing (autoFitSettings this) in
  if allowStacking (autoFitSettings this) && (0 <? index)%nat then
    let maxOffset := spacing * Fin (1 # 2) in
    let x1 := x pos + (Fin (random calls) - Fin (1 # 2)) * maxOffset in
    let y1 := y pos + (Fin (random (S calls)) - Fin (1 # 2)) * maxOffset in
    ({| imageData := imageData pos;
        x := Num.max margin
               (Num.min x1 (canvasWidth this - width pos - margin));
        y := Num.max margin
               (Num.min y1 (canvasHeight this - height pos - margin));
        width := width pos;
        height := height pos |},
     S (S calls))
  else (pos, calls).

Fixpoint organicLoop (random : nat -> Q) (calls : nat) (index : nat)
    (masonryPositions : list Position) : list Position :=
  match masonryPositions with
  | [] => []
  | pos :: rest =>
      let '(finalPos, calls) := organicPosition random calls index pos in
      finalPos :: organicLoop random calls (S index) rest
  end.

Definition applyOrganicStackLayout (random : nat -> Q)
    (imgs : list Image) : list Position :=
  organicLoop random 0 0 (applyMasonryLayout imgs).

(** ** The orchestrator *)

Definition runLayout (random : nat -> Q) (layout : string)
    (selectedImageData : list Image) : list Position :=
  if String.eqb layout "natural-flow" then
    applyNaturalFlowLayout selectedImageData
  else if String.eqb layout "masonry" then
    applyMasonryLayout selectedImageData
  else if String.eqb layout "proportional-grid" then
    applyProportionalGridLayout selectedImageData
  else if String.eqb layout "aspect-grouped" then
    applyAspectGroupedLayout selectedImageData
  else if String.eqb layout "organic" then
    applyOrganicStackLayout random selectedImageData
  else applyNaturalFlowLayout selectedImageData.

Definition validatePosition (pos : Position) : bool :=
  validateAspectRatioPreservation (imageData pos)
    {| dimWidth := width pos; dimHeight := height pos |}.

Definition selectedImageData : list Image :=
  filter (fun img => id img ∈ selectedImages this) (images this).

(** [applyNaturalAutoFitLayout] returns nothing; its outcome is the array
    it hands to [applyPositionsToCanvas], or [None] when it returns before
    running any layout. *)
Definition applyNaturalAutoFitLayout (random : nat -> Q)
    : option (list Position) :=
  match currentLayout this with
  | None => None
  | Some layout =>
      if String.eqb layout "" || (size (selectedImages this) =? 0)%nat
      then None
      else
        let positions := runLayout random layout selectedImageData in
        let validationResults := map validatePosition positions in
        if forallb (fun result => result) validationResults
        then Some positions
        else Some (applyProportionalGridLayout selectedImageData)
  end.

End Engine.


(** * The canvas, the gallery and the listeners

    Methods of [WallpaperCreator] outside the layout engine, as functions
    on the fields they read and write.  What they do to the document
    (thumbnails, toasts, the painted canvas) is left out: [render] only
    paints, and the other [update...] and [show...] methods change no
    field of the instance.  [Date.now()] is a stream of values, like
    [Math.random()]; the answer to [confirm] is an argument. *)

(** ** The canvas elements, the selection and the history *)

(** An element of [this.elements].  The fields [id], [type], [x], [y],
    [width], [height] and [imageData] of the source are named apart from
    those of [Image] and [Position].  [zIndex] is absent on the elements
    that [addImageToCanvas] and [bulkAddToCanvas] make. *)
Record Element : Type := mkElement {
  elementId : number;
  elementType : string;
  imageId : nat;
  elementX : number;
  elementY : number;
  elementWidth : number;
  elementHeight : number;
  rotation : number;
  opacity : number;
  elementImageData : Image;
  zIndex : option number
}.

(** What [JSON.parse(JSON.stringify(v))] makes of a number: the
    infinities and [NaN] become [null], here [None]. *)
Definition jsonNumber (n : number) : option number :=
  match n with
  | Fin q => Some (Fin q)
  | _ => None
  end.

(** The copy of an image and of an element in a history entry. *)
Record SavedImage : Type := mkSavedImage {
  savedId : nat;
  savedOriginalWidth : option number;
  savedOriginalHeight : option number
}.

Record SavedElement : Type := mkSavedElement {
  savedElementId : option number;
  savedElementType : string;
  savedImageId : nat;
  savedX : option number;
  savedY : option number;
  savedWidth : option number;
  savedHeight : option number;
  savedRotation : option number;
  savedOpacity : option number;
  savedImageData : SavedImage;
  savedZIndex : option (option number)
}.

Definition jsonImage (image : Image) : SavedImage :=
  {| savedId := id image;
     savedOriginalWidth := jsonNumber (originalWidth image);
     savedOriginalHeight := jsonNumber (originalHeight image) |}.

Definition jsonElement (el : Element) : SavedElement :=
  {| savedElementId := jsonNumber (elementId el);
     savedElementType := elementType el;
     savedImageId := imageId el;
     savedX := jsonNumber (elementX el);
     savedY := jsonNumber (elementY el);
     savedWidth := jsonNumber (elementWidth el);
     savedHeight := jsonNumber (elementHeight el);
     savedRotation := jsonNumber (rotation el);
     savedOpacity := jsonNumber (opacity el);
     savedImageData := jsonImage (elementImageData el);
     savedZIndex := jsonNumber <$> zIndex el |}.

(** An entry of [this.history]. *)
Record HistoryEntry : Type := mkHistoryEntry {
  historyElements : list SavedElement;
  historyCanvasWidth : number;
  historyCanvasHeight : number;
  historyBackgroundColor : string
}.

(** The fields of a [WallpaperCreator] instance that the canvas methods
    read and write beside those of the record [WallpaperCreator]. *)
Record AppState : Type := mkAppState {
  elements : list Element;
  selectedElement : option Element;
  history : list HistoryEntry;
  historyIndex : Z;
  zoom : number;
  currentImageId : nat;
  backgroundColor : string
}.

(** The values the constructor assigns. *)
Definition initialAppState : AppState :=
  {| elements := [];
     selectedElement := None;
     history := [];
     historyIndex := -1;
     zoom := Fin 1;
     currentImageId := 0;
     backgroundColor := "#ffffff" |}.

(** [l.slice(0, e)] for an integer [e]. *)
Definition sliceFromStart {A : Type} (l : list A) (e : Z) : list A :=
  let len := Z.of_nat (length l) in
  let final := if (e <? 0)%Z then Z.max (len + e) 0 else Z.min e len in
  take (Z.to_nat final) l.

Section Canvas.

Variable this : WallpaperCreator.

Definition setElements (app : AppState) (els : list Element) : AppState :=
  {| elements := els;
     selectedElement := selectedElement app;
     history := history app;
     historyIndex := historyIndex app;
     zoom := zoom app;
     currentImageId := currentImageId app;
     backgroundColor := backgroundColor app |}.

Definition saveState (app : AppState) : AppState :=
  let history1 := sliceFromStart (history app) (historyIndex app + 1) in
  {| elements := elements app;
     selectedElement := selectedElement app;
     history :=
       history1 ++
         [ {| historyElements := jsonElement <$> elements app;
              historyCanvasWidth := canvasWidth this;
              historyCanvasHeight := canvasHeight this;
              historyBackgroundColor := backgroundColor app |} ];
     historyIndex := (historyIndex app + 1)%Z;
     zoom := zoom app;
     currentImageId := currentImageId app;
     backgroundColor := backgroundColor app |}.

(** [el.type !== 'image' || !this.selectedImages.has(el.imageId)] *)
Definition notOfSelectedImage (el : Element) : Prop :=
  elementType el <> "image" \/ imageId el ∉ selectedImages this.

(** The element [applyPositionsToCanvas] makes of the position at
    [index]; [now] is the value of [Date.now()] in that iteration. *)
Definition positionElement (now : number) (index : nat) (pos : Position)
    : Element :=
  {| elementId := now + Num.ofNat index;
     elementType := "image";
     imageId := id (imageData pos);
     elementX := x pos;
     elementY := y pos;
     elementWidth := width pos;
     elementHeight := height pos;
     rotation := Fin 0;
     opacity := Fin 1;
     elementImageData := imageData pos;
     zIndex :=
       Some (if allowStacking (autoFitSettings this) then Num.ofNat index
             else Fin 0) |}.

(** [Date.now] is the stream [clock] of the values its successive calls
    return during the method.  [render] only paints and changes no
    field. *)
Definition applyPositionsToCanvas (clock : nat -> number)
    (positions : list Position) (app : AppState) : AppState :=
  let kept := filter notOfSelectedImage (elements app) in
  let added :=
    imap (fun index pos => positionElement (clock index) index pos)
      positions in
  saveState (setElements app (kept ++ added)).

(** The whole effect of [applyNaturalAutoFitLayout] on the canvas. *)
Definition applyNaturalAutoFitLayoutToCanvas (random : nat -> Q)
    (clock : nat -> number) (app : AppState) : AppState :=
  match applyNaturalAutoFitLayout this random with
  | None => app
  | Some positions => applyPositionsToCanvas clock positions app
  end.

Definition selectElement (element : option Element) (app : AppState)
    : AppState :=
  {| elements := elements app;
     selectedElement := element;
     history := history app;
     historyIndex := historyIndex app;
     zoom := zoom app;
     currentImageId := currentImageId app;
     backgroundColor := backgroundColor app |}.

(** The size [addImageToCanvas] gives to an image. *)
Definition addedImageSize (imageData : Image) : Dimensions :=
  let aspectRatio := calculateAspectRatio imageData in
  let maxSize := Fin 300 in
  let width := Num.min (originalWidth imageData) maxSize in
  let height := width / aspectRatio in
  if height >? maxSize
  then mkDimensions (maxSize * aspectRatio) maxSize
  else mkDimensions width height.

Definition addImageToCanvas (now : number) (imageData : Image)
    (app : AppState) : AppState :=
  let size := addedImageSize imageData in
  let element :=
    {| elementId := now;
       elementType := "image";
       imageId := id imageData;
       elementX := Fin 100;
       elementY := Fin 100;
       elementWidth := dimWidth size;
       elementHeight := dimHeight size;
       rotation := Fin 0;
       opacity := Fin 1;
       elementImageData := imageData;
       zIndex := None |} in
  saveState
    (selectElement (Some element)
       (setElements app (elements app ++ [element]))).

(** The element [bulkAddToCanvas] makes of the selected image at
    [index]. *)
Definition bulkElement (now : number) (index : nat) (imageData : Image)
    : Element :=
  let aspectRatio := calculateAspectRatio imageData in
  let width := Fin 120 in
  let height := width / aspectRatio in
  {| elementId := now + Num.ofNat index;
     elementType := "image";
     imageId := id imageData;
     elementX := Fin 100 + (Num.ofNat index %% Fin 3) * Fin 150;
     elementY := Fin 100 + Num.floor (Num.ofNat index / Fin 3) * Fin 150;
     elementWidth := width;
     elementHeight := height;
     rotation := Fin 0;
     opacity := Fin 1;
     elementImageData := imageData;
     zIndex := None |}.

Definition bulkAddToCanvas (clock : nat -> number) (app : AppState)
    : AppState :=
  if (size (selectedImages this) =? 0)%nat then app
  else
    let added :=
      imap (fun index imageData => bulkElement (clock index) index imageData)
        (selectedImageData this) in
    saveState (setElements app (elements app ++ added)).

(** ** Hit testing *)

Definition isPointInElement (px py : number) (element : Element) : bool :=
  if String.eqb (elementType element) "image" then
    (elementX element <=? px)
    && (px <=? elementX element + elementWidth element)
    && (elementY element <=? py)
    && (py <=? elementY element + elementHeight element)
  else false.

(** The loop of [getElementAtPosition] runs from the last element down
    to the first. *)
Definition getElementAtPosition (px py : number) (app : AppState)
    : option Element :=
  find (isPointInElement px py) (reverse (elements app)).

(** ** Painting order *)

(** [el.zIndex || 0]: a missing [zIndex], zero and [NaN] count as 0. *)
Definition zIndexOrZero (el : Element) : number :=
  match zIndex el with
  | None | Some NaN => Fin 0
  | Some z => z
  end.

(** The comparator of the [sort] call in [render]. *)
Definition compareByZIndex (a b : Element) : number :=
  zIndexOrZero a - zIndexOrZero b.

Fixpoint insertByZIndex (a : Element) (sorted : list Element)
    : list Element :=
  match sorted with
  | [] => [a]
  | b :: rest =>
      if compareByZIndex a b >? Fin 0 then b :: insertByZIndex a rest
      else a :: sorted
  end.

(** [sortedElements] of [render]: the elements in the order in which
    [renderElement] paints them, later ones over earlier ones.  As for
    [sortByArea], the stable sort is determined by the comparator when
    the keys are finite. *)
Definition sortedElements (app : AppState) : list Element :=
  foldr insertByZIndex [] (elements app).

(** ** Zoom *)

Definition setZoom (newZoom : number) (app : AppState) : AppState :=
  {| elements := elements app;
     selectedElement := selectedElement app;
     history := history app;
     historyIndex := historyIndex app;
     zoom := Num.max (Fin (1 # 10)) (Num.min (Fin 5) newZoom);
     currentImageId := currentImageId app;
     backgroundColor := backgroundColor app |}.

(** [container] holds [clientWidth] and [clientHeight] of the element
    [canvasContainer], which are whole numbers of pixels, or nothing when
    the document has no such element. *)
Definition fitToScreen (container : option (nat * nat))
    (app : AppState) : AppState :=
  match container with
  | None => app
  | Some (clientWidth, clientHeight) =>
      let containerWidth := Num.ofNat clientWidth - Fin 40 in
      let containerHeight := Num.ofNat clientHeight - Fin 40 in
      let scaleX := containerWidth / canvasWidth this in
      let scaleY := containerHeight / canvasHeight this in
      setZoom (Num.min scaleX scaleY) app
  end.

(** ** Selection and deletion of images *)

Definition setImages (imgs : list Image) (selected : gset nat)
    : WallpaperCreator :=
  {| autoFitSettings := autoFitSettings this;
     canvasWidth := canvasWidth this;
     canvasHeight := canvasHeight this;
     aspectRatioCategories := aspectRatioCategories this;
     images := imgs;
     selectedImages := selected;
     currentLayout := currentLayout this |}.

Definition selectAllImages : WallpaperCreator :=
  setImages (images this)
    (foldl (fun selected img => selected ∪ {[ id img ]}) ∅ (images this)).

Definition selectNoImages : WallpaperCreator :=
  setImages (images this) ∅.

Definition toggleImageSelection (imageId : nat) : WallpaperCreator :=
  if decide (imageId ∈ selectedImages this)
  then setImages (images this) (selectedImages this ∖ {[ imageId ]})
  else setImages (images this) (selectedImages this ∪ {[ imageId ]}).

End Canvas.

(** [deleteImage] and [bulkDeleteImages] change the images, the selection
    and the elements, and then save the state of the changed instance.
    [confirmed] is the answer to the [confirm] dialog. *)
Definition deleteImage (this : WallpaperCreator) (imageId0 : nat)
    (app : AppState) : WallpaperCreator * AppState :=
  let this1 :=
    setImages this (filter (fun img => id img <> imageId0) (images this))
      (selectedImages this ∖ {[ imageId0 ]}) in
  (this1,
   saveState this1
     (setElements app
        (filter (fun el => imageId el <> imageId0) (elements app)))).

Definition bulkDeleteImages (this : WallpaperCreator) (confirmed : bool)
    (app : AppState) : WallpaperCreator * AppState :=
  if (size (selectedImages this) =? 0)%nat then (this, app)
  else if confirmed then
    let this1 :=
      setImages this
        (filter (fun img => id img ∉ selectedImages this) (images this)) ∅ in
    (this1,
     saveState this1
       (setElements app (filter (notOfSelectedImage this) (elements app))))
  else (this, app).

(** The [onload] callback of [loadImage] for an image of the given
    size. *)
Definition imageLoaded (this : WallpaperCreator) (imgWidth imgHeight : number)
    (app : AppState) : WallpaperCreator * AppState :=
  let newId := S (currentImageId app) in
  let imageData :=
    {| id := newId; originalWidth := imgWidth; originalHeight := imgHeight |} in
  (setImages this (images this ++ [imageData]) (selectedImages this),
   {| elements := elements app;
      selectedElement := selectedElement app;
      history := history app;
      historyIndex := historyIndex app;
      zoom := zoom app;
      currentImageId := newId;
      backgroundColor := backgroundColor app |}).

(** ** The listeners *)

Definition setCurrentLayout (this : WallpaperCreator)
    (layout : option string) : WallpaperCreator :=
  {| autoFitSettings := autoFitSettings this;
     canvasWidth := canvasWidth this;
     canvasHeight := canvasHeight this;
     aspectRatioCategories := aspectRatioCategories this;
     images := images this;
     selectedImages := selectedImages this;
     currentLayout := layout |}.

Definition setAutoFitSettings (this : WallpaperCreator)
    (settings : AutoFitSettings) : WallpaperCreator :=
  {| autoFitSettings := settings;
     canvasWidth := canvasWidth this;
     canvasHeight := canvasHeight this;
     aspectRatioCategories := aspectRatioCategories this;
     images := images this;
     selectedImages := selectedImages this;
     currentLayout := currentLayout this |}.

(** The click listener that [displayImageThumbnail] puts on the thumbnail
    of [imageData]; [modifier] is [e.ctrlKey || e.metaKey]. *)
Definition thumbnailClick (this : WallpaperCreator) (modifier : bool)
    (now : number) (imageData : Image) (app : AppState)
    : WallpaperCreator * AppState :=
  if modifier then (toggleImageSelection this (id imageData), app)
  else if (size (selectedImages this) =? 0)%nat
  then (this, addImageToCanvas this now imageData app)
  else (toggleImageSelection this (id imageData), app).

(** What the user and the timers can make the instance do.  The gallery
    shows one thumbnail for every element of [this.images], in that order;
    [index] names the thumbnail.  [LayoutChosen] is the click on a layout
    algorithm, [QuickLayoutTimer] and [AdvancedLayoutTimer] are the timer
    callbacks of [applyQuickNaturalAutoFit] and
    [applyAdvancedNaturalLayout], and [SettingsChanged] stands for the
    listeners of the sliders and check boxes, which assign fields of
    [this.autoFitSettings].  The mouse listeners of the canvas, which
    select and drag an element, follow below. *)
Inductive Event : Type :=
| ImageLoaded (imgWidth imgHeight : number)
| ThumbnailClicked (index : nat) (modifier : bool) (now : number)
| DeleteClicked (index : nat)
| SelectAllClicked
| SelectNoneClicked
| BulkAddClicked (clock : nat -> number)
| BulkDeleteClicked (confirmed : bool)
| LayoutChosen (layout : option string)
| SettingsChanged (settings : AutoFitSettings)
| QuickLayoutTimer (layoutType : option string) (random : nat -> Q)
    (clock : nat -> number)
| AdvancedLayoutTimer (random : nat -> Q) (clock : nat -> number)
| ZoomInClicked
| ZoomOutClicked
| FitToScreenClicked (container : option (nat * nat)).

Definition handle (st : WallpaperCreator * AppState) (ev : Event)
    : WallpaperCreator * AppState :=
  let this := fst st in
  let app := snd st in
  match ev with
  | ImageLoaded imgWidth imgHeight => imageLoaded this imgWidth imgHeight app
  | ThumbnailClicked index modifier now =>
      match images this !! index with
      | Some imageData => thumbnailClick this modifier now imageData app
      | None => st
      end
  | DeleteClicked index =>
      match images this !! index with
      | Some imageData => deleteImage this (id imageData) app
      | None => st
      end
  | SelectAllClicked => (selectAllImages this, app)
  | SelectNoneClicked => (selectNoImages this, app)
  | BulkAddClicked clock => (this, bulkAddToCanvas this clock app)
  | BulkDeleteClicked confirmed => bulkDeleteImages this confirmed app
  | LayoutChosen layout => (setCurrentLayout this layout, app)
  | SettingsChanged settings => (setAutoFitSettings this settings, app)
  | QuickLayoutTimer layoutType random clock =>
      let this1 := setCurrentLayout this layoutType in
      (this1, applyNaturalAutoFitLayoutToCanvas this1 random clock app)
  | AdvancedLayoutTimer random clock =>
      (this, applyNaturalAutoFitLayoutToCanvas this random clock app)
  | ZoomInClicked => (this, setZoom (zoom app * Fin (12 # 10)) app)
  | ZoomOutClicked => (this, setZoom (zoom app / Fin (12 # 10)) app)
  | FitToScreenClicked container => (this, fitToScreen this container app)
  end.

(** The instance after the constructor has run: no image, nothing
    selected, and the first history entry saved. *)
Definition constructed : WallpaperCreator * AppState :=
  let this :=
    {| autoFitSettings := defaultSettings;
       canvasWidth := Num.ofZ 1920;
       canvasHeight := Num.ofZ 1080;
       aspectRatioCategories := defaultCategories;
       images := [];
       selectedImages := ∅;
       currentLayout := None |} in
  (this, saveState this initialAppState).

Definition run (events : list Event) : WallpaperCreator * AppState :=
  foldl handle constructed events.

(** ** Dragging an element *)

(** [this.isDragging] and [this.dragOffset].  The mouse handlers assign
    to fields of the object [this.selectedElement], and [this.elements]
    may hold that same object: [selectedIndex] records at which index it
    does, and is [None] when the selected object is not in the array (or
    nothing is selected). *)
Record Drag : Type := mkDrag {
  selectedIndex : option nat;
  isDragging : bool;
  dragOffsetX : number;
  dragOffsetY : number
}.

(** The values the constructor assigns. *)
Definition initialDrag : Drag :=
  {| selectedIndex := None;
     isDragging := false;
     dragOffsetX := Fin 0;
     dragOffsetY := Fin 0 |}.

(** The loop of [getElementAtPosition], with the index at which it stops;
    [i] is the number of indices still to visit. *)
Fixpoint elementIndexAtPosition (px py : number) (els : list Element)
    (i : nat) : option (nat * Element) :=
  match i with
  | O => None
  | S j =>
      match els !! j with
      | Some element =>
          if isPointInElement px py element then Some (j, element)
          else elementIndexAtPosition px py els j
      | None => elementIndexAtPosition px py els j
      end
  end.

(** [element.x = newX; element.y = newY] *)
Definition moveElement (element : Element) (newX newY : number) : Element :=
  {| elementId := elementId element;
     elementType := elementType element;
     imageId := imageId element;
     elementX := newX;
     elementY := newY;
     elementWidth := elementWidth element;
     elementHeight := elementHeight element;
     rotation := rotation element;
     opacity := opacity element;
     elementImageData := elementImageData element;
     zIndex := zIndex element |}.

(** The position of the mouse on the canvas: [clientX], [clientY] of the
    event and [left], [top] of [getBoundingClientRect()]. *)
Record Mouse : Type := mkMouse {
  clientX : number;
  clientY : number;
  rectLeft : number;
  rectTop : number
}.

Definition handleCanvasMouseDown (e : Mouse) (st : AppState * Drag)
    : AppState * Drag :=
  let app := fst st in
  let drag := snd st in
  let x := (clientX e - rectLeft e) / zoom app in
  let y := (clientY e - rectTop e) / zoom app in
  match
    elementIndexAtPosition x y (elements app) (length (elements app))
  with
  | Some (i, element) =>
      (selectElement (Some element) app,
       {| selectedIndex := Some i;
          isDragging := true;
          dragOffsetX := x - elementX element;
          dragOffsetY := y - elementY element |})
  | None =>
      (selectElement None app,
       {| selectedIndex := None;
          isDragging := isDragging drag;
          dragOffsetX := dragOffsetX drag;
          dragOffsetY := dragOffsetY drag |})
  end.

Definition handleCanvasMouseMove (e : Mouse) (st : AppState * Drag)
    : AppState * Drag :=
  let app := fst st in
  let drag := snd st in
  if negb (isDragging drag) then st
  else
    let x := (clientX e - rectLeft e) / zoom app in
    let y := (clientY e - rectTop e) / zoom app in
    match selectedElement app with
    | Some element =>
        let moved :=
          moveElement element
            (Num.max (Fin 0) (x - dragOffsetX drag))
            (Num.max (Fin 0) (y - dragOffsetY drag)) in
        ({| elements :=
              match selectedIndex drag with
              | Some i => <[i := moved]> (elements app)
              | None => elements app
              end;
            selectedElement := Some moved;
            history := history app;
            historyIndex := historyIndex app;
            zoom := zoom app;
            currentImageId := currentImageId app;
            backgroundColor := backgroundColor app |},
         drag)
    | None => st
    end.

Definition handleCanvasMouseUp (this : WallpaperCreator)
    (st : AppState * Drag) : AppState * Drag :=
  let app := fst st in
  let drag := snd st in
  (if isDragging drag then saveState this app else app,
   {| selectedIndex := selectedIndex drag;
      isDragging := false;
      dragOffsetX := dragOffsetX drag;
      dragOffsetY := dragOffsetY drag |}).

(** ** All listeners *)

(** Where the selected object is after [this.elements] has been replaced
    by [this.elements.filter(keep)]. *)
Definition afterFilter (keep : Element -> Prop)
    `{!forall el, Decision (keep el)} (els : list Element)
    (index : option nat) : option nat :=
  match index with
  | Some i =>
      match els !! i with
      | Some el =>
          if decide (keep el) then Some (length (filter keep (take i els)))
          else None
      | None => None
      end
  | None => None
  end.

(** Where the selected object is after the listener of [ev] has run:
    [addImageToCanvas] selects the element it appends, the methods that
    filter [this.elements] may drop the selected object, and the others
    leave the array or its front as it is. *)
Definition selectedIndexAfter (ev : Event) (this : WallpaperCreator)
    (app : AppState) (index : option nat) : option nat :=
  match ev with
  | ThumbnailClicked i modifier _ =>
      match images this !! i with
      | Some _ =>
          if negb modifier && (size (selectedImages this) =? 0)%nat
          then Some (length (elements app))
          else index
      | None => index
      end
  | DeleteClicked i =>
      match images this !! i with
      | Some imageData =>
          afterFilter (fun el => imageId el <> id imageData) (elements app)
            index
      | None => index
      end
  | BulkDeleteClicked confirmed =>
      if (size (selectedImages this) =? 0)%nat then index
      else if confirmed
      then afterFilter (notOfSelectedImage this) (elements app) index
      else index
  | QuickLayoutTimer layoutType random _ =>
      let this1 := setCurrentLayout this layoutType in
      match applyNaturalAutoFitLayout this1 random with
      | Some _ => afterFilter (notOfSelectedImage this1) (elements app) index
      | None => index
      end
  | AdvancedLayoutTimer random _ =>
      match applyNaturalAutoFitLayout this random with
      | Some _ => afterFilter (notOfSelectedImage this) (elements app) index
      | None => index
      end
  | _ => index
  end.

Inductive Action : Type :=
| Listener (ev : Event)
| MouseDown (e : Mouse)
| MouseMove (e : Mouse)
| MouseUp.

Definition act (st : WallpaperCreator * AppState * Drag) (a : Action)
    : WallpaperCreator * AppState * Drag :=
  let this := fst (fst st) in
  let app := snd (fst st) in
  let drag := snd st in
  match a with
  | Listener ev =>
      (handle (this, app) ev,
       {| selectedIndex := selectedIndexAfter ev this app (selectedIndex drag);
          isDragging := isDragging drag;
          dragOffsetX := dragOffsetX drag;
          dragOffsetY := dragOffsetY drag |})
  | MouseDown e =>
      let st1 := handleCanvasMouseDown e (app, drag) in
      (this, fst st1, snd st1)
  | MouseMove e =>
      let st1 := handleCanvasMouseMove e (app, drag) in
      (this, fst st1, snd st1)
  | MouseUp =>
      let st1 := handleCanvasMouseUp this (app, drag) in
      (this, fst st1, snd st1)
  end.

(** The instance after the constructor and the given actions. *)
Definition runAll (actions : list Action)
    : WallpaperCreator * AppState * Drag :=
  foldl act (constructed, initialDrag) actions.
(** ** Input conditions and the specification's own wording *)

(** The descriptors of the data model: both intrinsic dimensions are
    finite and strictly positive. *)
Definition validImage (image : Image) : Prop :=
  Num.pos (originalWidth image) /\ Num.pos (originalHeight image).

(** The configurations of the data model as far as the layouts depend on
    them: finite spacing, margin and canvas, and a positive minimum
    size. *)
Definition wellFormed (this : WallpaperCreator) : Prop :=
  Num.isFin (spacing (autoFitSettings this))
  /\ Num.isFin (margin (autoFitSettings this))
  /\ Num.pos (minImageSize (autoFitSettings this))
  /\ Num.isFin (canvasWidth this)
  /\ Num.isFin (canvasHeight this).

(** The rectangle of [pos] has exactly the ratio of its image. *)
Definition ratioExact (pos : Position) : Prop :=
  Num.eqn (width pos / height pos) (calculateAspectRatio (imageData pos)).

Module Spec.

(** ScaleToFit as the specification words it (section 4.2), on the ratio
    of the image; the result is the pair of [width] and [height]. *)
Definition step1 (r maxWidth maxHeight : number) : number * number :=
  if maxWidth / maxHeight >? r then
    let height := maxHeight in
    let width := height * r in
    (width, height)
  else
    let width := maxWidth in
    let height := width / r in
    (width, height).

Definition step2 (r minSize : number) (box : number * number)
    : number * number :=
  let (width, height) := box in
  if (width <? minSize) || (height <? minSize) then
    if width <? height then (minSize, minSize / r)
    else (minSize * r, minSize)
  else box.

Definition fit (r maxWidth maxHeight minSize : number) : number * number :=
  step2 r minSize (step1 r maxWidth maxHeight).

(** The aspect ratio of an image (glossary): its intrinsic width divided
    by its intrinsic height. *)
Definition intrinsicRatio (image : Image) : number :=
  originalWidth image / originalHeight image.

(** [fit(image, maxWidth, maxHeight, minSize)] of section 4.2: the two
    steps on the intrinsic ratio of the image. *)
Definition scaleToFit (image : Image) (maxWidth maxHeight minSize : number)
    : Dimensions :=
  let (width, height) :=
    fit (intrinsicRatio image) maxWidth maxHeight minSize in
  {| dimWidth := width; dimHeight := height |}.

(** The validator of section 4.8: how far the ratio of a rectangle is
    from the intrinsic ratio of its image, and whether that is within a
    tolerance. *)
Definition deviation (pos : Position) : number :=
  Num.abs (width pos / height pos - intrinsicRatio (imageData pos)).

Definition validates (tolerance : Q) (pos : Position) : Prop :=
  Num.le (deviation pos) (Fin tolerance).

(** The rectangle has exactly the intrinsic ratio of its image. *)
Definition exactRatio (pos : Position) : Prop :=
  Num.eqn (width pos / height pos) (intrinsicRatio (imageData pos)).

(** The source computes in binary floating point and this development in
    exact arithmetic.  Where the source compares a computed number with a
    threshold, the exact numbers tell how the comparison comes out only
    when they are not within rounding distance of each other; the
    statements that depend on such a comparison keep this margin, a
    millionth, away from the threshold. *)
Definition roundingMargin : Q := 1 # 1000000.

(** Row finalization as the specification words it (section 4.3): the
    single factor of a row, the left edge of the image that follows the
    images [before] in the row, and the rectangle of an image. *)
Definition rowFactor (this : WallpaperCreator) (row : list RowItem)
    (availableWidth : number) : number :=
  let count := Num.ofNat (length row) in
  let sumOfNaturalWidths :=
    fold_left (fun sum item => sum + naturalWidth item) row (Fin 0) in
  Num.max (maxScaleDown (autoFitSettings this))
    (Num.min (Fin 1)
       ((availableWidth - (count - Fin 1) * spacing (autoFitSettings this))
        / sumOfNaturalWidths)).

Definition rowLeftEdge (this : WallpaperCreator) (s : number)
    (before : list RowItem) : number :=
  fold_left
    (fun edge item =>
       edge + (naturalWidth item * s + spacing (autoFitSettings this)))
    before (margin (autoFitSettings this)).

Definition rowPlacement (this : WallpaperCreator) (s rowY : number)
    (row : list RowItem) (k : nat) (item : RowItem) : Position :=
  {| imageData := image item;
     x := rowLeftEdge this s (take k row);
     y := rowY;
     width :=
       Num.max (minImageSize (autoFitSettings this)) (naturalWidth item * s);
     height :=
       Num.max (minImageSize (autoFitSettings this)) (naturalHeight item * s)
  |}.

Definition finalizedRow (this : WallpaperCreator) (availableWidth : number)
    (row : list RowItem) (rowY : number) : list Position :=
  imap (rowPlacement this (rowFactor this row availableWidth) rowY row) row.

(** The proportional grid as the specification words it (section 4.5):
    the cell size for [cols] columns and [rows] rows, and the rectangle of
    an image put into the cell at [row] and [col]. *)
Definition cellWidth (this : WallpaperCreator) (cols : nat) : number :=
  let availableWidth :=
    canvasWidth this - Fin 2 * margin (autoFitSettings this) in
  (availableWidth - (Num.ofNat cols - Fin 1) * spacing (autoFitSettings this))
  / Num.ofNat cols.

Definition cellHeight (this : WallpaperCreator) (rows : nat) : number :=
  let availableHeight :=
    canvasHeight this - Fin 2 * margin (autoFitSettings this) in
  (availableHeight - (Num.ofNat rows - Fin 1) * spacing (autoFitSettings this))
  / Num.ofNat rows.

Definition cellPlacement (this : WallpaperCreator) (cols rows : nat)
    (row col : nat) (image : Image) : Position :=
  let cellX :=
    margin (autoFitSettings this)
    + Num.ofNat col * (cellWidth this cols + spacing (autoFitSettings this)) in
  let cellY :=
    margin (autoFitSettings this)
    + Num.ofNat row * (cellHeight this rows + spacing (autoFitSettings this)) in
  let d :=
    scaleToFit image (cellWidth this cols) (cellHeight this rows)
      (minImageSize (autoFitSettings this)) in
  {| imageData := image;
     x := cellX + (cellWidth this cols - dimWidth d) / Fin 2;
     y := cellY + (cellHeight this rows - dimHeight d) / Fin 2;
     width := dimWidth d;
     height := dimHeight d |}.

(** [ceil(n / cols)] on naturals. *)
Definition ceilDiv (n cols : nat) : nat := ((n + cols - 1) / cols)%nat.


Definition columnWidth (this : WallpaperCreator) (columns : nat) : number :=
  let availableWidth :=
    canvasWidth this - Fin 2 * margin (autoFitSettings this) in
  (availableWidth
   - (Num.ofNat columns - Fin 1) * spacing (autoFitSettings this))
  / Num.ofNat columns.

(** Column [c] is a shortest column of [heights], and the one of lowest
    index among those of the same height. *)
Definition shortest (heights : list number) (c : nat) : Prop :=
  exists hc,
    heights !! c = Some hc
    /\ forall j hj,
         heights !! j = Some hj ->
         Num.le hc hj /\ ((j < c)%nat -> Num.lt hc hj).

(** [masonry this columnWidth heights imgs placed final]: starting from
    the column heights [heights], the images [imgs] are placed one at a
    time, each into the currently shortest column at that column's height,
    sized by ScaleToFit in a box of [columnWidth] by twice [columnWidth];
    the column grows by the placed height plus one spacing.  [placed] are
    the rectangles and [final] the column heights at the end. *)
Inductive masonry (this : WallpaperCreator) (columnWidth : number)
    : list number -> list Image -> list Position -> list number -> Prop :=
| masonry_done (heights : list number) :
    masonry this columnWidth heights [] [] heights
| masonry_place (heights : list number) (image : Image) (rest : list Image)
    (c : nat) (hc : number) (d : Dimensions) (placed : list Position)
    (final : list number) :
    shortest heights c ->
    heights !! c = Some hc ->
    d = scaleToFit image columnWidth (columnWidth * Fin 2)
          (minImageSize (autoFitSettings this)) ->
    masonry this columnWidth
      (<[c := hc + (dimHeight d + spacing (autoFitSettings this))]> heights)
      rest placed final ->
    masonry this columnWidth heights (image :: rest)
      ({| imageData := image;
          x := margin (autoFitSettings this)
               + Num.ofNat c
                 * (columnWidth + spacing (autoFitSettings this));
          y := hc;
          width := dimWidth d;
          height := dimHeight d |} :: placed)
      final.

End Spec.

(** The five strategies and the names [applyNaturalAutoFitLayout]
    dispatches on. *)
Inductive Strategy : Type :=
| Flow
| Masonry
| ProportionalGrid
| AspectGrouped
| Organic.

Definition strategyName (s : Strategy) : string :=
  match s with
  | Flow => "natural-flow"
  | Masonry => "masonry"
  | ProportionalGrid => "proportional-grid"
  | AspectGrouped => "aspect-grouped"
  | Organic => "organic"
  end.

Definition runStrategy (this : WallpaperCreator) (random : nat -> Q)
    (s : Strategy) (imgs : list Image) : list Position :=
  match s with
  | Flow => applyNaturalFlowLayout this imgs
  | Masonry => applyMasonryLayout this imgs
  | ProportionalGrid => applyProportionalGridLayout this imgs
  | AspectGrouped => applyAspectGroupedLayout this imgs
  | Organic => applyOrganicStackLayout this random imgs
  end.

(** The images held by a state of the flow loop: those already placed,
    then those waiting in the open row. *)
Definition flowImages (st : FlowState) : list Image :=
  (imageData <$> flowPositions st) ++ (image <$> rowImages st).

(** The default instance: the constructor's settings on the 1920 by 1080
    canvas, with [imgs] uploaded and selected. *)
Definition defaultCreator (imgs : list Image) (layout : option string)
    : WallpaperCreator :=
  creator defaultSettings (Num.ofZ 1920) (Num.ofZ 1080) imgs layout.

Definition pixels (i : nat) (w h : Z) : Image :=
  mkImage i (Num.ofZ w) (Num.ofZ h).

(** The rows the flow loop has closed so far, each with its [rowY], make
    up the positions it has pushed; the open row holds the rest. *)
Definition closedRows (this : WallpaperCreator) (availableWidth : number)
    (st : FlowState)
    (rows : list (list RowItem * number)) : Prop :=
  flowPositions st
  = concat
      ((fun r => Spec.finalizedRow this availableWidth (fst r) (snd r))
         <$> rows)
  /\ Forall (fun r => fst r <> []) rows.

(** A rectangle with finite coordinates and finite positive sides. *)
Definition finitePosition (pos : Position) : Prop :=
  Num.isFin (x pos) /\ Num.isFin (y pos)
  /\ Num.pos (width pos) /\ Num.pos (height pos).

(** The height of the tallest rectangle of a placement list. *)
Definition tallest (ps : list Position) : number :=
  Num.maxList (height <$> ps).

(** Masonry balance as the specification states it (section 8): after all
    placements any two column heights differ by less than the height of
    the tallest placed image. *)
Definition strictlyBalanced (this : WallpaperCreator) (imgs : list Image)
    : Prop :=
  forall (i j : nat) (a b : number),
    fst (masonryRun this imgs) !! i = Some a ->
    fst (masonryRun this imgs) !! j = Some b ->
    Num.lt (a - b) (tallest (applyMasonryLayout this imgs)).

(** Five square images of equal intrinsic size. *)
Definition fiveSquares : list Image :=
  (fun i => pixels i 500 500) <$> seq 0 5.

(** Any two of the column heights [qs] differ by at most [bound]. *)
Definition within (bound : Q) (qs : list Q) : Prop :=
  forall (i j : nat) (a b : Q),
    qs !! i = Some a -> qs !! j = Some b -> (a - b <= bound)%Q.

(** [pos] lies inside the canvas margins (section 8, organic
    containment). *)
Definition contained (this : WallpaperCreator) (pos : Position) : Prop :=
  Num.le (margin (autoFitSettings this)) (x pos)
  /\ Num.le (x pos + width pos)
        (canvasWidth this - margin (autoFitSettings this))
  /\ Num.le (margin (autoFitSettings this)) (y pos)
  /\ Num.le (y pos + height pos)
        (canvasHeight this - margin (autoFitSettings this)).

Definition organicContained (this : WallpaperCreator) (random : nat -> Q)
    (imgs : list Image) : Prop :=
  Forall (contained this) (applyOrganicStackLayout this random imgs).

(** The two images of the grid scenario of section 8. *)
Definition landscapeAndPortrait : list Image :=
  [pixels 0 1600 900; pixels 1 900 1600].

(** A random source that always returns one half: no offset at all. *)
Definition noJitter : nat -> Q := fun _ => 1 # 2.

(** The placement list an outcome of [applyNaturalAutoFitLayout] hands to
    the canvas; none when it returned early. *)
Definition appliedPositions (outcome : option (list Position))
    : list Position :=
  default [] outcome.

(** A descriptor the error taxonomy calls invalid (section 7). *)
Definition invalidDescriptor (image : Image) : Prop :=
  Num.le (originalWidth image) (Fin 0)
  \/ Num.le (originalHeight image) (Fin 0).

(** Fail-fast rejection as the specification states it: no placement is
    ever computed from an invalid descriptor. *)
Definition rejectsInvalid (this : WallpaperCreator) (random : nat -> Q)
    : Prop :=
  forall image,
    image ∈ selectedImageData this ->
    invalidDescriptor image ->
    image ∉ imageData <$> appliedPositions
                            (applyNaturalAutoFitLayout this random).

(** An image 100 wide and 0 high. *)
Definition flatImage : Image := pixels 0 100 0.

(** ** Further notions used by the properties of the layouts *)

(** The key of the bucket [groupImagesByAspectRatio] puts an image in. *)
Definition groupKey (this : WallpaperCreator) (image : Image) : string :=
  group (categorizeByAspectRatio this image).

(** Every bucket of [groups] is not empty and holds, in their order, the
    images of [l] that have its key. *)
Definition bucketsOf (this : WallpaperCreator) (l : list Image)
    (groups : list (string * list Image)) : Prop :=
  Forall
    (fun g =>
       snd g <> []
       /\ snd g = filter (fun img => groupKey this img = fst g) l)
    groups.

(** The distinct keys of [ks], in the order of their first occurrence. *)
Fixpoint firstSeen (ks : list string) : list string :=
  match ks with
  | [] => []
  | k :: rest => k :: filter (fun k' => k' <> k) (firstSeen rest)
  end.

Definition seeKey (seen : list string) (k : string) : list string :=
  if decide (k ∈ seen) then seen else seen ++ [k].

(** An image with finite dimensions, and the order of [sortByArea]. *)
Definition finiteImage (image : Image) : Prop :=
  Num.isFin (originalWidth image) /\ Num.isFin (originalHeight image).

Definition areaGe (a b : Image) : Prop := Num.le (area b) (area a).

(** Equality of numbers up to the representation of a rational, as a
    test. *)
Definition eqnb (a b : number) : bool :=
  match a, b with
  | Fin p, Fin q => Qeq_bool p q
  | PInf, PInf | NInf, NInf | NaN, NaN => true
  | _, _ => false
  end.

Definition sameArea (a b : Image) : Prop :=
  eqnb (area a) (area b) = true.

#[global] Instance sameArea_dec (a b : Image) : Decision (sameArea a b) :=
  decide (eqnb (area a) (area b) = true).

(** [availableWidth] of the flow layout. *)
Definition flowAvailableWidth (this : WallpaperCreator) : number :=
  canvasWidth this - Fin 2 * margin (autoFitSettings this).

(** A row item as the flow loop builds it from a valid image. *)
Definition naturalItem (this : WallpaperCreator) (item : RowItem) : Prop :=
  validImage (image item)
  /\ aspectRatio item = calculateAspectRatio (image item)
  /\ naturalWidth item
     = Num.min (originalWidth (image item))
         (flowAvailableWidth this * Fin (3 # 10))
  /\ naturalHeight item = naturalWidth item / aspectRatio item.

(** A finite number at or above the margin; a finite number at or above
    zero. *)
Definition belowMargin (this : WallpaperCreator) (v : number) : Prop :=
  Num.isFin v /\ Num.le (margin (autoFitSettings this)) v.

Definition nonNegative (v : number) : Prop :=
  Num.isFin v /\ Num.le (Fin 0) v.

(** The state of the flow loop, with the rows it has closed. *)
Definition flowInvariant (this : WallpaperCreator) (st : FlowState)
    (rows : list (list RowItem * number)) : Prop :=
  closedRows this (flowAvailableWidth this) st rows
  /\ Forall
       (fun r =>
          Forall (naturalItem this) (fst r) /\ belowMargin this (snd r))
       rows
  /\ Forall (naturalItem this) (rowImages st)
  /\ belowMargin this (currentRowY st)
  /\ nonNegative (currentRowHeight st).

(** [p], placed before [q] in the same masonry column, ends at least one
    spacing above [q]. *)
Definition stackedAbove (this : WallpaperCreator) (p q : Position) : Prop :=
  Num.eqn (x p) (x q) ->
  Num.le (y p + height p + spacing (autoFitSettings this)) (y q).

(** The rectangle [p] stands in the masonry column [c], at or below the
    height [qs] gives to that column; [m], [sp] and [cw] are the margin,
    the spacing and the column width. *)
Definition inColumn (m sp cw : Q) (qs : list Q) (p : Position) (c : nat)
    : Prop :=
  exists qc yq hq,
    qs !! c = Some qc
    /\ x p = Fin (m + inject_Z (Z.of_nat c) * (cw + sp))
    /\ y p = Fin yq /\ height p = Fin hq
    /\ (0 < hq)%Q /\ (qc <= yq)%Q.

(** [pos] lies inside the grid cell at [row] and [col]. *)
Definition insideCell (this : WallpaperCreator) (cols rows row col : nat)
    (pos : Position) : Prop :=
  let cellX :=
    margin (autoFitSettings this)
    + Num.ofNat col
      * (Spec.cellWidth this cols + spacing (autoFitSettings this)) in
  let cellY :=
    margin (autoFitSettings this)
    + Num.ofNat row
      * (Spec.cellHeight this rows + spacing (autoFitSettings this)) in
  Num.le cellX (x pos)
  /\ Num.le (x pos + width pos) (cellX + Spec.cellWidth this cols)
  /\ Num.le cellY (y pos)
  /\ Num.le (y pos + height pos) (cellY + Spec.cellHeight this rows).

(** [a] and [b] differ by at most [d]. *)
Definition nearBy (d a b : number) : Prop := Num.le (Num.abs (a - b)) d.


(** ** Pixel quantities *)

(** A whole number of pixels, at least [lo] and at most 2^26.  The
    dimensions of a decoded image and the values the sliders assign are
    such numbers, and the sums and products of two of them are whole
    numbers below 2^53, which the source computes without rounding. *)
Definition pixelCount (lo : Z) (a : number) : Prop :=
  exists z : Z, a = Num.ofZ z /\ (lo <= z <= 67108864)%Z.

(** The descriptors of section 6: positive integer pixel dimensions. *)
Definition pixelImage (image : Image) : Prop :=
  pixelCount 1 (originalWidth image) /\ pixelCount 1 (originalHeight image).

(** A configuration of whole pixel quantities: spacing and margin from 0,
    the minimum size and the canvas from 1. *)
Definition screenConfig (this : WallpaperCreator) : Prop :=
  pixelCount 0 (spacing (autoFitSettings this))
  /\ pixelCount 0 (margin (autoFitSettings this))
  /\ pixelCount 1 (minImageSize (autoFitSettings this))
  /\ pixelCount 1 (canvasWidth this)
  /\ pixelCount 1 (canvasHeight this).

(** ** Ties of the masonry columns *)








(** ** Properties of the canvas state *)

(** [historyIndex] points at the last entry of a history that is not
    empty. *)
Definition historyConsistent (app : AppState) : Prop :=
  historyIndex app = (Z.of_nat (length (history app)) - 1)%Z
  /\ history app <> [].

(** The images carry distinct ids, all of them handed out already. *)
Definition uniqueIds (this : WallpaperCreator) (app : AppState) : Prop :=
  NoDup (id <$> images this)
  /\ Forall (fun img => (1 <= id img <= currentImageId app)%nat) (images this).

(** Only images of the gallery are selected. *)
Definition selectionKnown (this : WallpaperCreator) : Prop :=
  forall i, i ∈ selectedImages this -> i ∈ id <$> images this.

(** An element that shows an image of the gallery. *)
Definition knownElement (this : WallpaperCreator) (el : Element) : Prop :=
  elementType el = "image"
  /\ imageId el = id (elementImageData el)
  /\ elementImageData el ∈ images this.

Definition zoomInRange (app : AppState) : Prop :=
  Num.le (Fin (1 # 10)) (zoom app) /\ Num.le (zoom app) (Fin 5).

(** What holds of the instance whatever the listeners have done: the
    canvas has the size the constructor gave it, the ids of the images
    are distinct, the selection and the elements refer to images of the
    gallery only, and the zoom is between 0.1 and 5. *)
Definition consistent (st : WallpaperCreator * AppState) : Prop :=
  (canvasWidth (fst st) = Num.ofZ 1920 /\ canvasHeight (fst st) = Num.ofZ 1080)
  /\ uniqueIds (fst st) (snd st)
  /\ selectionKnown (fst st)
  /\ Forall (knownElement (fst st)) (elements (snd st))
  /\ zoomInRange (snd st).

(** The elements whose image is selected: those that
    [applyPositionsToCanvas] replaces. *)
Definition ofSelectedImage (this : WallpaperCreator) (el : Element) : Prop :=
  ~ notOfSelectedImage this el.

#[global] Instance ofSelectedImage_dec (this : WallpaperCreator)
    (el : Element) : Decision (ofSelectedImage this el) :=
  not_dec (decide (notOfSelectedImage this el)).

(** The history of [app'] is that of [app], or that of [app] and one
    more entry. *)
Definition historyExtended (app app' : AppState) : Prop :=
  history app' = history app
  \/ exists entry, history app' = history app ++ [entry].

(** [p] lies under the point [(px, py)]. *)
Definition hit (px py : number) (el : Element) : Prop :=
  isPointInElement px py el = true.

(** The elements are in non-decreasing order of [zIndex || 0]. *)
Definition zIndexLe (a b : Element) : Prop :=
  Num.le (zIndexOrZero a) (zIndexOrZero b).

Definition finiteZIndex (el : Element) : Prop :=
  Num.isFin (zIndexOrZero el).

#[global] Instance hit_dec (px py : number) (el : Element)
    : Decision (hit px py el) :=
  decide (isPointInElement px py el = true).

(** Two images are loaded, selected and laid out in the proportional
    grid; then the second image is taken out of the selection and the
    grid is applied again, to the first image alone. *)
Definition restackTrace : list Event :=
  [ ImageLoaded (Num.ofZ 1600) (Num.ofZ 900);
    ImageLoaded (Num.ofZ 900) (Num.ofZ 1600);
    SelectAllClicked;
    QuickLayoutTimer (Some "proportional-grid") noJitter (fun _ => Fin 0);
    ThumbnailClicked 1 true (Fin 0);
    QuickLayoutTimer (Some "proportional-grid") noJitter (fun _ => Fin 0) ].

(** The element passes the ratio check for the image it shows. *)
Definition undistorted (el : Element) : Prop :=
  validateAspectRatioPreservation (elementImageData el)
    (mkDimensions (elementWidth el) (elementHeight el)) = true.

(** The events of the data model: images of positive size, and settings
    with finite spacing and margin and a positive minimum size. *)
Definition admissible (ev : Event) : Prop :=
  match ev with
  | ImageLoaded imgWidth imgHeight => Num.pos imgWidth /\ Num.pos imgHeight
  | SettingsChanged settings =>
      Num.isFin (spacing settings) /\ Num.isFin (margin settings)
      /\ Num.pos (minImageSize settings)
  | _ => True
  end.

Definition preserving (st : WallpaperCreator * AppState) : Prop :=
  wellFormed (fst st)
  /\ Forall validImage (images (fst st))
  /\ Forall undistorted (elements (snd st)).

(** [this.elements] holds the selected object where [selectedIndex]
    says. *)
Definition aliased (st : AppState * Drag) : Prop :=
  forall i, selectedIndex (snd st) = Some i ->
    exists el,
      elements (fst st) !! i = Some el /\ selectedElement (fst st) = Some el.

Definition admissibleAction (a : Action) : Prop :=
  match a with
  | Listener ev => admissible ev
  | _ => True
  end.

(** The states of the instance, and what the actions keep of them. *)
Definition appOf (st : WallpaperCreator * AppState * Drag) : AppState :=
  snd (fst st).

Definition dragOf (st : WallpaperCreator * AppState * Drag) : Drag :=
  snd st.

(** Down on the second of two overlapping elements, then a move to the
    left beyond the edge of the canvas. *)
Definition dragTrace : list Action :=
  [ Listener (ImageLoaded (Num.ofZ 1600) (Num.ofZ 900));
    Listener (ThumbnailClicked 0 false (Fin 0));
    Listener (ThumbnailClicked 0 false (Fin 1));
    MouseDown (mkMouse (Fin 210) (Fin 160) (Fin 10) (Fin 10));
    MouseMove (mkMouse (Fin 50) (Fin 260) (Fin 10) (Fin 10));
    MouseUp ].
(** ** Arithmetic of finite numbers *)

Lemma Qltb_lt (a b : Q) : Num.Qltb a b = true <-> (a < b)%Q.
Proof.
  unfold Num.Qltb. rewrite negb_true_iff. split.
  - intros H. apply Qnot_le_lt. intros Hle.
    apply Qle_bool_iff in Hle. congruence.
  - intros H. destruct (Qle_bool b a) eqn:E; [|done].
    apply Qle_bool_iff in E. lra.
Qed.

Lemma Qltb_ge (a b : Q) : Num.Qltb a b = false <-> (b <= a)%Q.
Proof. unfold Num.Qltb. rewrite negb_false_iff. apply Qle_bool_iff. Qed.

Lemma Qeq_bool_false (a b : Q) : Qeq_bool a b = false <-> ~ a == b.
Proof.
  split.
  - intros H E. apply Qeq_bool_iff in E. congruence.
  - intros H. destruct (Qeq_bool a b) eqn:E; [|done].
    apply Qeq_bool_iff in E. done.
Qed.

Lemma Qle_bool_false (a b : Q) : Qle_bool a b = false <-> (b < a)%Q.
Proof.
  split.
  - intros H. apply Qnot_le_lt. intros Hle.
    apply Qle_bool_iff in Hle. congruence.
  - intros H. destruct (Qle_bool a b) eqn:E; [|done].
    apply Qle_bool_iff in E. lra.
Qed.

(** Turn the boolean tests on rationals among the hypotheses into
    propositions. *)
Ltac qbool :=
  repeat match goal with
  | H : Num.Qltb _ _ = true |- _ => apply Qltb_lt in H
  | H : Num.Qltb _ _ = false |- _ => apply Qltb_ge in H
  | H : Qeq_bool _ _ = true |- _ => apply Qeq_bool_iff in H
  | H : Qeq_bool _ _ = false |- _ => apply Qeq_bool_false in H
  | H : Qle_bool _ _ = true |- _ => apply Qle_bool_iff in H
  | H : Qle_bool _ _ = false |- _ => apply Qle_bool_false in H
  | H : (_ ?= _)%Q = Lt |- _ => apply Qlt_alt in H
  | H : (_ ?= _)%Q = Gt |- _ => apply Qgt_alt in H
  | H : (_ ?= _)%Q = Eq |- _ => apply Qeq_alt in H
  end.

(** Split on the next boolean test on rationals in the goal. *)
Ltac qcase :=
  match goal with
  | |- context [Num.Qltb ?a ?b] => destruct (Num.Qltb a b) eqn:?
  | |- context [Qeq_bool ?a ?b] => destruct (Qeq_bool a b) eqn:?
  | |- context [Qle_bool ?a ?b] => destruct (Qle_bool a b) eqn:?
  | |- context [(?a ?= ?b)%Q] => destruct (a ?= b)%Q eqn:?
  end.

Lemma pos_Fin (a : number) : Num.pos a -> exists q, a = Fin q /\ (0 < q)%Q.
Proof. destruct a; simpl; try done. eauto. Qed.

Lemma isFin_Fin (a : number) : Num.isFin a -> exists q, a = Fin q.
Proof. destruct a; simpl; try done. eauto. Qed.

Lemma pos_isFin (a : number) : Num.pos a -> Num.isFin a.
Proof. by destruct a. Qed.

Lemma div_Fin (p q : Q) : ~ q == 0 -> Fin p / Fin q = Fin (p / q).
Proof.
  intros Hq. unfold Num.div.
  destruct (Qeq_bool q 0) eqn:E; [|done]. by apply Qeq_bool_iff in E.
Qed.

(** The ratio of a valid image is a positive rational. *)
Lemma calculateAspectRatio_valid (image : Image) :
  validImage image ->
  exists r, calculateAspectRatio image = Fin r /\ (0 < r)%Q.
Proof.
  intros [Hw Hh]. unfold calculateAspectRatio.
  apply pos_Fin in Hw as (w & -> & Hw). apply pos_Fin in Hh as (h & -> & Hh).
  exists (w / h)%Q. split.
  - apply div_Fin. lra.
  - apply Qlt_shift_div_l; lra.
Qed.

(** ** ScaleToFit *)

Lemma scaleImagePreservingRatio_fit (this : WallpaperCreator)
    (image : Image) (maxWidth maxHeight : number) :
  let d := scaleImagePreservingRatio this image maxWidth maxHeight in
  (dimWidth d, dimHeight d)
  = Spec.fit (calculateAspectRatio image) maxWidth maxHeight
      (minImageSize (autoFitSettings this)).
Proof.
  unfold scaleImagePreservingRatio, Spec.fit, Spec.step1, Spec.step2.
  destruct (maxWidth / maxHeight >? calculateAspectRatio image);
    repeat match goal with |- context [if ?b then _ else _] => destruct b end;
    reflexivity.
Qed.

(** ScaleToFit of the specification, taken on the intrinsic dimensions of
    the image, is what the method returns. *)
Lemma scaleToFit_code (this : WallpaperCreator) (image : Image)
    (maxWidth maxHeight : number) :
  Spec.scaleToFit image maxWidth maxHeight
    (minImageSize (autoFitSettings this))
  = scaleImagePreservingRatio this image maxWidth maxHeight.
Proof.
  pose proof (scaleImagePreservingRatio_fit this image maxWidth maxHeight) as E.
  cbn zeta in E. unfold Spec.scaleToFit.
  change (Spec.intrinsicRatio image) with (calculateAspectRatio image).
  rewrite <- E.
  by destruct (scaleImagePreservingRatio this image maxWidth maxHeight).
Qed.

(** At a positive ratio and a positive minimum size the two steps return
    positive finite dimensions in exactly that ratio, whatever finite
    bounding box they are given. *)
Lemma fit_exact (r maxWidth maxHeight minSize : Q) :
  (0 < r)%Q -> (0 < minSize)%Q ->
  exists w h,
    Spec.fit (Fin r) (Fin maxWidth) (Fin maxHeight) (Fin minSize)
    = (Fin w, Fin h)
    /\ (0 < w)%Q /\ (0 < h)%Q /\ w == h * r.
Proof.
  intros Hr Hm.
  unfold Spec.fit, Spec.step1, Spec.step2, Num.gtb, Num.div, Num.mul,
    Num.ltb, Num.signedInf.
  repeat (qcase; simpl); qbool; try lra;
    eexists _, _; (split; [reflexivity|]); repeat split; try lra; try nra.
  all: try (field; lra).
  all: try (apply Qlt_shift_div_l; lra).
Qed.

Lemma scaleImagePreservingRatio_exact (this : WallpaperCreator)
    (image : Image) (maxWidth maxHeight : number) :
  validImage image ->
  Num.pos (minImageSize (autoFitSettings this)) ->
  Num.isFin maxWidth -> Num.isFin maxHeight ->
  exists w h r,
    scaleImagePreservingRatio this image maxWidth maxHeight
    = mkDimensions (Fin w) (Fin h)
    /\ calculateAspectRatio image = Fin r
    /\ (0 < w)%Q /\ (0 < h)%Q /\ (0 < r)%Q /\ w == h * r.
Proof.
  intros Himg Hmin Hw Hh.
  pose proof (scaleImagePreservingRatio_fit this image maxWidth maxHeight) as E.
  destruct (calculateAspectRatio_valid image Himg) as (r & Hr & Hr0).
  apply pos_Fin in Hmin as (m & Hm & Hm0).
  apply isFin_Fin in Hw as (mw & ->). apply isFin_Fin in Hh as (mh & ->).
  rewrite Hr, Hm in E.
  destruct (fit_exact r mw mh m Hr0 Hm0) as (w & h & Hfit & ? & ? & ?).
  simpl in E. rewrite Hfit in E.
  destruct (scaleImagePreservingRatio this image (Fin mw) (Fin mh)) as [dw dh].
  simpl in E. injection E as -> ->. by exists w, h, r.
Qed.

Lemma ratio_eqn (w h r : Q) :
  (0 < h)%Q -> w == h * r -> Num.eqn (Fin w / Fin h) (Fin r).
Proof.
  intros Hh E. rewrite div_Fin by lra. simpl. rewrite E. field. lra.
Qed.

(** C2: for an image with positive intrinsic dimensions and positive
    [maxWidth], [maxHeight] and minimum size, [scaleImagePreservingRatio]
    computes exactly the two steps of ScaleToFit on the ratio
    [originalWidth / originalHeight] (the bounding-box fit, then the
    re-derivation from the smaller side when a side is below the
    minimum); the returned sides are positive, and the returned width
    over height equals [originalWidth / originalHeight] exactly. *)
Theorem scaleImagePreservingRatio_spec (this : WallpaperCreator)
    (image : Image) (maxWidth maxHeight : number) :
  validImage image ->
  Num.pos maxWidth -> Num.pos maxHeight ->
  Num.pos (minImageSize (autoFitSettings this)) ->
  let d := scaleImagePreservingRatio this image maxWidth maxHeight in
  let r := originalWidth image / originalHeight image in
  (dimWidth d, dimHeight d)
  = Spec.step2 r (minImageSize (autoFitSettings this))
      (Spec.step1 r maxWidth maxHeight)
  /\ Num.pos (dimWidth d) /\ Num.pos (dimHeight d)
  /\ Num.eqn (dimWidth d / dimHeight d)
       (originalWidth image / originalHeight image).
Proof.
  intros Himg Hw Hh Hmin d r. split.
  - apply scaleImagePreservingRatio_fit.
  - destruct (scaleImagePreservingRatio_exact this image maxWidth maxHeight)
      as (w & h & r' & E & Hr & ? & ? & ? & ?); auto using pos_isFin.
    subst d. rewrite E. cbn [dimWidth dimHeight].
    split; [done|]. split; [done|].
    change (originalWidth image / originalHeight image)
      with (calculateAspectRatio image).
    rewrite Hr. by apply ratio_eqn.
Qed.

Lemma scaleImagePreservingRatio_spec_witness :
  let this0 := defaultCreator [] None in
  let image := pixels 0 1600 900 in
  let d := scaleImagePreservingRatio this0 image (Num.ofZ 935) (Num.ofZ 1040) in
  validImage image
  /\ Num.pos (Num.ofZ 935) /\ Num.pos (Num.ofZ 1040)
  /\ Num.pos (minImageSize (autoFitSettings this0))
  /\ Num.eqn (dimWidth d) (Fin 935)
  /\ Num.eqn (dimHeight d) (Fin (8415 # 16))
  /\ Num.eqn (dimWidth d / dimHeight d) (Fin (16 # 9)).
Proof.
  intros this0 image d.
  assert (H1 : validImage image) by (split; reflexivity).
  assert (H2 : Num.pos (Num.ofZ 935)) by reflexivity.
  assert (H3 : Num.pos (Num.ofZ 1040)) by reflexivity.
  assert (H4 : Num.pos (minImageSize (autoFitSettings this0))) by reflexivity.
  destruct (scaleImagePreservingRatio_spec this0 image (Num.ofZ 935)
              (Num.ofZ 1040) H1 H2 H3 H4) as (Hsteps & _ & _ & Hratio).
  assert (H5 : Num.eqn (dimWidth d) (Fin 935)).
  { pose proof (f_equal fst Hsteps) as E. cbn [fst] in E. unfold d.
    rewrite E. reflexivity. }
  assert (H6 : Num.eqn (dimHeight d) (Fin (8415 # 16))).
  { pose proof (f_equal snd Hsteps) as E. cbn [snd] in E. unfold d.
    rewrite E. reflexivity. }
  assert (H7 : Num.eqn (dimWidth d / dimHeight d) (Fin (16 # 9))).
  { unfold d. vm_compute. reflexivity. }
  exact (conj H1 (conj H2 (conj H3 (conj H4 (conj H5 (conj H6 H7)))))).
Defined.

(** ** Pixel quantities and the ratio check of the specification *)

Lemma pixelCount_isFin (lo : Z) (a : number) : pixelCount lo a -> Num.isFin a.
Proof. by intros (z & -> & _). Qed.

Lemma pixelCount_pos (a : number) : pixelCount 1 a -> Num.pos a.
Proof.
  intros (z & -> & Hz). unfold Num.pos, Num.ofZ.
  change 0%Q with (inject_Z 0). rewrite <- Zlt_Qlt. lia.
Qed.

Lemma pixelImage_valid (image : Image) : pixelImage image -> validImage image.
Proof. intros [Hw Hh]. split; by apply pixelCount_pos. Qed.

Lemma pixelImage_finite (image : Image) :
  pixelImage image -> finiteImage image.
Proof. intros [Hw Hh]. split; by eapply pixelCount_isFin. Qed.

Lemma pixelImages_valid (imgs : list Image) :
  Forall pixelImage imgs -> Forall validImage imgs.
Proof. intros H. eapply Forall_impl; [exact H|]. apply pixelImage_valid. Qed.

Lemma screenConfig_wellFormed (this : WallpaperCreator) :
  screenConfig this -> wellFormed this.
Proof.
  intros (Hsp & Hm & Hmin & Hcw & Hch).
  repeat split; eauto using pixelCount_isFin, pixelCount_pos.
Qed.

(** The distance of two numbers does not depend on their order. *)
Lemma abs_sub_comm (a b : number) : Num.abs (a - b) = Num.abs (b - a)
  \/ exists p q, Num.abs (a - b) = Fin p /\ Num.abs (b - a) = Fin q /\ p == q.
Proof.
  destruct a as [p| | |], b as [q| | |]; try (by left).
  right. exists (Qabs (p + - q)), (Qabs (q + - p)). repeat split.
  rewrite <- (Qabs_opp (q + - p)). apply Qabs_wd. ring.
Qed.

Lemma leb_abs_sub_comm (a b t : number) :
  (Num.abs (a - b) <=? t) = (Num.abs (b - a) <=? t).
Proof.
  destruct (abs_sub_comm a b) as [->|(p & q & -> & -> & E)]; [done|].
  destruct t as [t| | |]; try done. unfold Num.leb.
  destruct (Qle_bool p t) eqn:E1, (Qle_bool q t) eqn:E2; qbool; try done;
    exfalso; lra.
Qed.

(** The test of [validateAspectRatioPreservation] is the inequality of
    section 4.8 with the tolerance 0.01. *)
Lemma validatePosition_validates (pos : Position) :
  validatePosition pos = true <-> Spec.validates (1 # 100) pos.
Proof.
  unfold validatePosition, validateAspectRatioPreservation, Spec.validates,
    Spec.deviation, Spec.intrinsicRatio, calculateAspectRatio, Num.le.
  cbn [dimWidth dimHeight]. by rewrite leb_abs_sub_comm.
Qed.

Lemma validates_mono (s t : Q) (pos : Position) :
  (s <= t)%Q -> Spec.validates s pos -> Spec.validates t pos.
Proof.
  unfold Spec.validates, Num.le. intros Hst.
  destruct (Spec.deviation pos) as [d| | |]; try done.
  unfold Num.leb. intros H. qbool. apply Qle_bool_iff. lra.
Qed.

Lemma ratioExact_exactRatio (pos : Position) :
  ratioExact pos <-> Spec.exactRatio pos.
Proof. reflexivity. Qed.

Lemma pixelCount_ofZ (lo z : Z) :
  (lo <= z <= 67108864)%Z -> pixelCount lo (Num.ofZ z).
Proof. intros Hz. by exists z. Qed.

Lemma pixels_pixelImage (i : nat) (w h : Z) :
  (1 <= w <= 67108864)%Z -> (1 <= h <= 67108864)%Z ->
  pixelImage (pixels i w h).
Proof. intros Hw Hh. split; by apply pixelCount_ofZ. Qed.

Lemma defaultCreator_screenConfig (imgs : list Image)
    (layout : option string) :
  screenConfig (defaultCreator imgs layout).
Proof. repeat split; apply pixelCount_ofZ; lia. Qed.

(** ** Which images a strategy places *)

Section Placed.

Variable this : WallpaperCreator.

Lemma insertByArea_perm (a : Image) (l : list Image) :
  insertByArea a l ≡ₚ a :: l.
Proof.
  induction l as [|b l IH]; simpl; [reflexivity|].
  destruct (compareByArea a b >? Fin 0); [|reflexivity].
  rewrite IH. apply Permutation_swap.
Qed.

Lemma sortByArea_perm (l : list Image) : sortByArea l ≡ₚ l.
Proof.
  induction l as [|a l IH]; simpl; [reflexivity|].
  rewrite insertByArea_perm. by f_equiv.
Qed.

Lemma sortedImages_perm (l : list Image) : sortedImages this l ≡ₚ l.
Proof.
  unfold sortedImages.
  destruct (prioritizeLargeImages _); [apply sortByArea_perm | reflexivity].
Qed.

Lemma sortedImages_nil : sortedImages this [] = [].
Proof. unfold sortedImages. by destruct (prioritizeLargeImages _). Qed.

Lemma placeRowItems_imageData (rowY scale : number) (row : list RowItem)
    (st : number * list Position) :
  imageData <$> snd (fold_left (placeRowItem this rowY scale) row st)
  = (imageData <$> snd st) ++ (image <$> row).
Proof.
  revert st. induction row as [|item row IH]; intros [cx ps]; simpl.
  - by rewrite app_nil_r.
  - rewrite IH. simpl. by rewrite fmap_app, <- app_assoc.
Qed.

(** [finalizeNaturalRow] appends one position per item of the row, in the
    order of the row. *)
Lemma finalizeNaturalRow_imageData (row : list RowItem)
    (rowY availableWidth : number) (ps : list Position) :
  imageData <$> finalizeNaturalRow this row rowY availableWidth ps
  = (imageData <$> ps) ++ (image <$> row).
Proof.
  unfold finalizeNaturalRow.
  destruct (length row =? 0)%nat eqn:E.
  - apply Nat.eqb_eq, nil_length_inv in E. subst. by rewrite app_nil_r.
  - by rewrite placeRowItems_imageData.
Qed.

Lemma flowStep_images (availableWidth : number) (st : FlowState)
    (img : Image) :
  flowImages (flowStep this availableWidth st img) = flowImages st ++ [img].
Proof.
  unfold flowStep, flowImages.
  destruct (_ && _); simpl.
  - rewrite finalizeNaturalRow_imageData. done.
  - rewrite fmap_app, app_assoc. done.
Qed.

Lemma flowLoop_images (availableWidth : number) (l : list Image)
    (st : FlowState) :
  flowImages (fold_left (flowStep this availableWidth) l st)
  = flowImages st ++ l.
Proof.
  revert st. induction l as [|img l IH]; intros st; simpl.
  - by rewrite app_nil_r.
  - rewrite IH, flowStep_images, <- app_assoc. done.
Qed.

Lemma applyNaturalFlowLayout_imageData (imgs : list Image) :
  imageData <$> applyNaturalFlowLayout this imgs = sortedImages this imgs.
Proof.
  unfold applyNaturalFlowLayout.
  match goal with
  | |- context [fold_left ?f ?l ?s] =>
      pose proof (flowLoop_images
        (canvasWidth this - Fin 2 * margin (autoFitSettings this)) l s) as E;
      set (st := fold_left f l s) in *
  end.
  unfold flowImages in E. simpl in E. rewrite <- E.
  destruct (rowImages st) as [|item row] eqn:Hrow; simpl.
  - by rewrite app_nil_r.
  - by rewrite finalizeNaturalRow_imageData.
Qed.

Lemma masonryLoop_imageData (columnCount : nat) (columnWidth : number)
    (l : list Image) (st : list number * list Position) :
  imageData <$> snd (fold_left (masonryStep this columnCount columnWidth) l st)
  = (imageData <$> snd st) ++ l.
Proof.
  revert st. induction l as [|img l IH]; intros [hs ps]; simpl.
  - by rewrite app_nil_r.
  - rewrite IH. simpl. rewrite fmap_app, <- app_assoc. done.
Qed.

Lemma applyMasonryLayout_imageData (imgs : list Image) :
  imageData <$> applyMasonryLayout this imgs = sortedImages this imgs.
Proof.
  unfold applyMasonryLayout, masonryRun. by rewrite masonryLoop_imageData.
Qed.

Lemma imap_imageData (f : nat -> Image -> Position) (l : list Image) :
  (forall i a, imageData (f i a) = a) -> imageData <$> imap f l = l.
Proof.
  revert f. induction l as [|a l IH]; intros f Hf; simpl; [done|].
  rewrite Hf, IH; [done|]. intros i b. apply Hf.
Qed.

Lemma applyProportionalGridLayout_imageData (imgs : list Image) :
  imageData <$> applyProportionalGridLayout this imgs = imgs.
Proof. unfold applyProportionalGridLayout. by apply imap_imageData. Qed.

Lemma pushToGroup_perm (key : string) (img : Image)
    (groups : list (string * list Image)) :
  concat (snd <$> pushToGroup key img groups)
  ≡ₚ img :: concat (snd <$> groups).
Proof.
  induction groups as [|[k imgs] groups IH]; simpl; [done|].
  destruct (String.eqb k key); simpl.
  - rewrite <- app_assoc. simpl.
    rewrite <- Permutation_middle. done.
  - rewrite IH. by rewrite Permutation_middle.
Qed.

Lemma groupLoop_perm (l : list Image) (groups : list (string * list Image)) :
  concat
    (snd <$>
       fold_left
         (fun groups image =>
            pushToGroup (group (categorizeByAspectRatio this image)) image
              groups)
         l groups)
  ≡ₚ concat (snd <$> groups) ++ l.
Proof.
  revert groups. induction l as [|img l IH]; intros groups; simpl.
  - by rewrite app_nil_r.
  - rewrite IH, pushToGroup_perm. simpl. apply Permutation_middle.
Qed.

Lemma groupImagesByAspectRatio_perm (imgs : list Image) :
  concat (snd <$> groupImagesByAspectRatio this imgs) ≡ₚ imgs.
Proof. unfold groupImagesByAspectRatio. by rewrite groupLoop_perm. Qed.

Lemma groupedLoop_imageData (groups : list (string * list Image))
    (st : number * list Position) :
  imageData <$> snd (fold_left (groupedStep this) groups st)
  = (imageData <$> snd st)
    ++ concat ((fun entry => sortedImages this (snd entry)) <$> groups).
Proof.
  revert st. induction groups as [|entry groups IH]; intros [cy ps]; simpl.
  - by rewrite app_nil_r.
  - rewrite IH. simpl. rewrite fmap_app, <- app_assoc. f_equal. f_equal.
    rewrite <- list_fmap_compose.
    rewrite <- (applyNaturalFlowLayout_imageData (snd entry)).
    by apply list_fmap_ext.
Qed.

Lemma applyAspectGroupedLayout_perm (imgs : list Image) :
  imageData <$> applyAspectGroupedLayout this imgs ≡ₚ imgs.
Proof.
  unfold applyAspectGroupedLayout. rewrite groupedLoop_imageData. simpl.
  rewrite <- (groupImagesByAspectRatio_perm imgs) at 2.
  induction (groupImagesByAspectRatio this imgs) as [|entry groups IH];
    simpl; [done|].
  by rewrite IH, sortedImages_perm.
Qed.

Lemma organicLoop_imageData (random : nat -> Q) (calls index : nat)
    (ps : list Position) :
  imageData <$> organicLoop this random calls index ps = imageData <$> ps.
Proof.
  revert calls index. induction ps as [|p ps IH]; intros calls index; simpl;
    [done|].
  unfold organicPosition. destruct (_ && _); simpl; by rewrite IH.
Qed.

Lemma organicLoop_length (random : nat -> Q) (calls index : nat)
    (ps : list Position) :
  length (organicLoop this random calls index ps) = length ps.
Proof.
  rewrite <- (length_fmap imageData), organicLoop_imageData.
  apply length_fmap.
Qed.

Lemma runStrategy_perm (random : nat -> Q) (s : Strategy)
    (imgs : list Image) :
  imageData <$> runStrategy this random s imgs ≡ₚ imgs.
Proof.
  destruct s; simpl.
  - rewrite applyNaturalFlowLayout_imageData. apply sortedImages_perm.
  - rewrite applyMasonryLayout_imageData. apply sortedImages_perm.
  - by rewrite applyProportionalGridLayout_imageData.
  - apply applyAspectGroupedLayout_perm.
  - unfold applyOrganicStackLayout.
    rewrite organicLoop_imageData, applyMasonryLayout_imageData.
    apply sortedImages_perm.
Qed.

(** C10: each of the five strategies returns exactly one placement per
    input image: the output is as long as the input, and the descriptors
    the placements refer to are the input descriptors, each as often as it
    occurs in the input (none dropped, none placed twice). *)
Theorem runStrategy_one_placement_per_image (random : nat -> Q)
    (s : Strategy) (imgs : list Image) :
  length (runStrategy this random s imgs) = length imgs
  /\ imageData <$> runStrategy this random s imgs ≡ₚ imgs.
Proof.
  split; [|apply runStrategy_perm].
  rewrite <- (length_fmap imageData).
  apply Permutation_length, runStrategy_perm.
Qed.

Lemma runStrategy_nil (random : nat -> Q) (s : Strategy) :
  runStrategy this random s [] = [].
Proof.
  apply length_zero_iff_nil.
  rewrite <- (length_fmap imageData).
  by rewrite (Permutation_length (runStrategy_perm random s [])).
Qed.

Lemma runStrategy_length (random : nat -> Q) (s : Strategy)
    (imgs : list Image) :
  length (runStrategy this random s imgs) = length imgs.
Proof.
  rewrite <- (length_fmap imageData).
  apply Permutation_length, runStrategy_perm.
Qed.

(** Whatever the layout name, [runLayout] runs one of the five
    strategies; an unknown name runs the flow layout. *)
Lemma runLayout_runStrategy (random : nat -> Q) (layout : string)
    (imgs : list Image) :
  exists s, runLayout this random layout imgs = runStrategy this random s imgs.
Proof.
  unfold runLayout.
  destruct (String.eqb layout "natural-flow"); [by exists Flow|].
  destruct (String.eqb layout "masonry"); [by exists Masonry|].
  destruct (String.eqb layout "proportional-grid");
    [by exists ProportionalGrid|].
  destruct (String.eqb layout "aspect-grouped"); [by exists AspectGrouped|].
  destruct (String.eqb layout "organic"); [by exists Organic|].
  by exists Flow.
Qed.

Lemma runLayout_strategyName (random : nat -> Q) (s : Strategy)
    (imgs : list Image) :
  runLayout this random (strategyName s) imgs
  = runStrategy this random s imgs.
Proof. by destruct s. Qed.

(** C9: on the empty image list every one of the five strategies returns
    the empty placement list; the strategies are total, so there is no
    error to signal. *)
Theorem strategies_empty_input (random : nat -> Q) (s : Strategy) :
  runStrategy this random s [] = []
  /\ applyNaturalFlowLayout this [] = []
  /\ applyMasonryLayout this [] = []
  /\ applyProportionalGridLayout this [] = []
  /\ applyAspectGroupedLayout this [] = []
  /\ applyOrganicStackLayout this random [] = [].
Proof.
  assert (Hflow : applyNaturalFlowLayout this [] = []).
  { unfold applyNaturalFlowLayout. by rewrite sortedImages_nil. }
  assert (Hmasonry : applyMasonryLayout this [] = []).
  { unfold applyMasonryLayout, masonryRun. by rewrite sortedImages_nil. }
  assert (Horganic : applyOrganicStackLayout this random [] = []).
  { unfold applyOrganicStackLayout. by rewrite Hmasonry. }
  repeat split; try done. by destruct s.
Qed.

End Placed.

(** ** Row finalization of the flow layout *)

Section FlowRows.

Variable this : WallpaperCreator.

Lemma rowScaleFactor_rowFactor (row : list RowItem) (availableWidth : number) :
  rowScaleFactor this row availableWidth
  = Spec.rowFactor this row availableWidth.
Proof. reflexivity. Qed.

(** The loop of [finalizeNaturalRow] started after the items [before]:
    every item it visits gets the rectangle the specification gives it. *)
Lemma placeRowItems_spec (s rowY : number) (before rest : list RowItem)
    (ps : list Position) :
  snd
    (fold_left (placeRowItem this rowY s) rest
       (Spec.rowLeftEdge this s before, ps))
  = ps
    ++ imap
         (fun k item =>
            Spec.rowPlacement this s rowY (before ++ rest)
              (length before + k) item)
         rest.
Proof.
  revert before ps. induction rest as [|item rest IH]; intros before ps.
  - simpl. by rewrite app_nil_r.
  - cbn [fold_left placeRowItem imap].
    replace (Spec.rowLeftEdge this s before
             + (naturalWidth item * s + spacing (autoFitSettings this)))
      with (Spec.rowLeftEdge this s (before ++ [item])).
    2:{ unfold Spec.rowLeftEdge. by rewrite fold_left_app. }
    rewrite IH, <- app_assoc. f_equal. cbn [app]. f_equal.
    + unfold Spec.rowPlacement. f_equal.
      rewrite Nat.add_0_r, take_app_length. done.
    + apply imap_ext. intros k it _. cbn.
      rewrite <- app_assoc, length_app. cbn.
      f_equal. lia.
Qed.

Lemma finalizeNaturalRow_spec (row : list RowItem)
    (rowY availableWidth : number) (ps : list Position) :
  finalizeNaturalRow this row rowY availableWidth ps
  = ps ++ Spec.finalizedRow this availableWidth row rowY.
Proof.
  unfold finalizeNaturalRow, Spec.finalizedRow.
  destruct (length row =? 0)%nat eqn:E.
  - apply Nat.eqb_eq, nil_length_inv in E. subst. by rewrite app_nil_r.
  - rewrite rowScaleFactor_rowFactor.
    apply (placeRowItems_spec _ rowY [] row ps).
Qed.

Lemma flowStep_closedRows (availableWidth : number) (st : FlowState)
    (img : Image) (rows : list (list RowItem * number)) :
  closedRows this availableWidth st rows ->
  exists rows',
    closedRows this availableWidth (flowStep this availableWidth st img) rows'.
Proof.
  intros [Hps Hne]. unfold flowStep.
  destruct (_ && _) eqn:Hbreak; cbn.
  - exists (rows ++ [(rowImages st, currentRowY st)]). split; cbn.
    + rewrite finalizeNaturalRow_spec, Hps, fmap_app, concat_app. cbn.
      by rewrite app_nil_r.
    + apply Forall_app. split; [done|]. constructor; [|done]. cbn.
      apply andb_true_iff in Hbreak as [_ Hlen].
      apply Nat.ltb_lt in Hlen. intros E. rewrite E in Hlen. cbn in Hlen. lia.
  - by exists rows.
Qed.

Lemma flowLoop_closedRows (availableWidth : number) (l : list Image)
    (st : FlowState) (rows : list (list RowItem * number)) :
  closedRows this availableWidth st rows ->
  exists rows',
    closedRows this availableWidth
      (fold_left (flowStep this availableWidth) l st) rows'.
Proof.
  revert st rows. induction l as [|img l IH]; intros st rows H; cbn.
  - by exists rows.
  - destruct (flowStep_closedRows availableWidth st img rows H) as [rows' H'].
    by apply (IH _ rows').
Qed.

Lemma applyNaturalFlowLayout_rows (imgs : list Image) :
  exists rows : list (list RowItem * number),
    applyNaturalFlowLayout this imgs
    = concat
        ((fun r =>
            Spec.finalizedRow this
              (canvasWidth this - Fin 2 * margin (autoFitSettings this))
              (fst r) (snd r))
           <$> rows)
    /\ Forall (fun r => fst r <> []) rows.
Proof.
  unfold applyNaturalFlowLayout.
  set (aw := canvasWidth this - Fin 2 * margin (autoFitSettings this)).
  match goal with
  | |- context [fold_left ?f ?l ?s] =>
      destruct (flowLoop_closedRows aw l s []) as [rows [Hps Hne]];
        [by split|];
      set (st := fold_left f l s) in *
  end.
  destruct (0 <? length (rowImages st))%nat eqn:Hlen.
  - exists (rows ++ [(rowImages st, currentRowY st)]). split.
    + rewrite finalizeNaturalRow_spec, Hps, fmap_app, concat_app. cbn.
      by rewrite app_nil_r.
    + apply Forall_app. split; [done|]. constructor; [|done]. cbn.
      apply Nat.ltb_lt in Hlen. intros E. rewrite E in Hlen. cbn in Hlen. lia.
  - by exists rows.
Qed.

End FlowRows.

(** C3: [finalizeNaturalRow] gives the k-th image of a row the rectangle
    with [x] equal to the margin plus, for every earlier image of the row,
    its scaled natural width and one spacing; with the row's [y]; and with
    width and height the scaled natural width and height, each floored
    separately at [minImageSize] by [Math.max].  The scale is the single
    factor max(maxScaleDown, min(1, (availableWidth - (count - 1) * spacing)
    / sum of natural widths)).  The output of the flow layout is made of
    rows finalized in this way.  The floor is not ratio-exact: for the
    image 1000 by 50 on the default canvas only the height is below the
    floor, and the rectangle 564 by 100 fails the ratio check. *)
Theorem finalizeNaturalRow_layout (this : WallpaperCreator) :
  (forall (row : list RowItem) (rowY availableWidth : number)
          (ps : list Position),
     let s := Spec.rowFactor this row availableWidth in
     finalizeNaturalRow this row rowY availableWidth ps
     = ps ++ imap (Spec.rowPlacement this s rowY row) row)
  /\ (forall imgs : list Image,
        exists rows : list (list RowItem * number),
          applyNaturalFlowLayout this imgs
          = concat
              ((fun r =>
                  Spec.finalizedRow this
                    (canvasWidth this - Fin 2 * margin (autoFitSettings this))
                    (fst r) (snd r))
                 <$> rows)
          /\ Forall (fun r => fst r <> []) rows)
  /\ (let imgs := [pixels 0 1000 50] in
      let this0 := defaultCreator imgs None in
      exists pos,
        In pos (applyNaturalFlowLayout this0 imgs)
        /\ Num.eqn (width pos) (Fin 564)
        /\ Num.eqn (height pos) (Fin 100)
        /\ Num.eqn (calculateAspectRatio (imageData pos)) (Fin 20)
        /\ validatePosition pos = false).
Proof.
  split; [|split].
  - intros row rowY aw ps s. apply finalizeNaturalRow_spec.
  - apply applyNaturalFlowLayout_rows.
  - vm_compute. eexists. split; [left; reflexivity|]. vm_compute. done.
Qed.

(** ** The proportional grid *)

Lemma ofNat_nonzero (c : nat) : (0 < c)%nat -> ~ inject_Z (Z.of_nat c) == 0.
Proof.
  intros Hc E. unfold Qeq, inject_Z in E. simpl in E. lia.
Qed.

Lemma ofNat_div (i c : nat) :
  (0 < c)%nat ->
  Num.ofNat i / Num.ofNat c
  = Fin (inject_Z (Z.of_nat i) / inject_Z (Z.of_nat c)).
Proof. intros Hc. apply div_Fin. by apply ofNat_nonzero. Qed.

Lemma floor_ofNat_div (i c : nat) :
  (0 < c)%nat ->
  Num.floor (Num.ofNat i / Num.ofNat c) = Num.ofNat (i / c).
Proof.
  intros Hc. rewrite ofNat_div by done.
  unfold Num.floor, Num.ofNat. by rewrite <- Zdiv_Qdiv, Nat2Z.inj_div.
Qed.

Lemma Qceiling_div (n c : Z) :
  (0 < c)%Z -> Qceiling (inject_Z n / inject_Z c) = ((n + c - 1) / c)%Z.
Proof.
  intros Hc. unfold Qceiling.
  assert (E : - (inject_Z n / inject_Z c) == inject_Z (- n) / inject_Z c).
  { rewrite inject_Z_opp. field. unfold Qeq, inject_Z. simpl. lia. }
  rewrite (Qfloor_comp _ _ E), <- Zdiv_Qdiv.
  pose proof (Z.div_mod (- n) c ltac:(lia)) as H1.
  pose proof (Z.mod_pos_bound (- n) c Hc) as H2.
  apply Z.div_unique with (r := (c - 1 - (- n) mod c)%Z); lia.
Qed.

Lemma ceil_ofNat_div (n c : nat) :
  (0 < c)%nat ->
  Num.ceil (Num.ofNat n / Num.ofNat c) = Num.ofNat (Spec.ceilDiv n c).
Proof.
  intros Hc. rewrite ofNat_div by done.
  unfold Num.ceil, Num.ofNat, Spec.ceilDiv.
  rewrite Qceiling_div by lia. f_equal. f_equal.
  rewrite Nat2Z.inj_div. f_equal. lia.
Qed.

Lemma rem_ofNat (i c : nat) :
  (0 < c)%nat -> Num.ofNat i %% Num.ofNat c = Num.ofNat (i mod c).
Proof.
  intros Hc. unfold Num.rem, Num.ofNat, Num.ofZ.
  destruct (Qeq_bool _ 0) eqn:E.
  { apply Qeq_bool_iff in E. by apply ofNat_nonzero in E. }
  destruct (Num.Qltb _ 0) eqn:Hneg.
  { apply Qltb_lt in Hneg. exfalso.
    assert (0 <= inject_Z (Z.of_nat i) / inject_Z (Z.of_nat c))%Q; [|lra].
    apply Qle_shift_div_l.
    - unfold Qlt, inject_Z. simpl. lia.
    - unfold Qle, inject_Z. simpl. lia. }
  rewrite <- Zdiv_Qdiv.
  unfold Qminus, Qplus, Qmult, Qopp, inject_Z. simpl.
  f_equal. f_equal. rewrite Nat2Z.inj_mod.
  rewrite Z.mod_eq by lia. lia.
Qed.

Lemma ceilSqrt_bounds (n : nat) :
  (1 <= n)%nat ->
  (1 <= Num.ceilSqrt n
   /\ (Num.ceilSqrt n - 1) * (Num.ceilSqrt n - 1) < n
   /\ n <= Num.ceilSqrt n * Num.ceilSqrt n)%nat.
Proof.
  intros Hn. unfold Num.ceilSqrt.
  pose proof (Nat.sqrt_spec n ltac:(lia)) as [Hlo Hhi].
  destruct (Nat.sqrt n * Nat.sqrt n =? n)%nat eqn:E.
  - apply Nat.eqb_eq in E. nia.
  - apply Nat.eqb_neq in E. simpl. nia.
Qed.

Lemma ceilDiv_bounds (n c : nat) :
  (1 <= n)%nat -> (1 <= c)%nat ->
  (1 <= Spec.ceilDiv n c
   /\ (Spec.ceilDiv n c - 1) * c < n
   /\ n <= Spec.ceilDiv n c * c)%nat.
Proof.
  intros Hn Hc. unfold Spec.ceilDiv.
  pose proof (Nat.div_mod (n + c - 1) c ltac:(lia)) as H1.
  pose proof (Nat.mod_upper_bound (n + c - 1) c ltac:(lia)) as H2.
  nia.
Qed.

Section Grid.

Variable this : WallpaperCreator.

Lemma gridRows_ceilDiv (imgs : list Image) :
  (1 <= length imgs)%nat ->
  gridRows imgs = Num.ofNat (Spec.ceilDiv (length imgs) (gridCols imgs)).
Proof.
  intros Hn. unfold gridRows. apply ceil_ofNat_div.
  unfold gridCols. pose proof (ceilSqrt_bounds _ Hn). lia.
Qed.

Lemma gridPosition_cell (imgs : list Image) (i : nat) (image : Image) :
  (1 <= length imgs)%nat ->
  let cols := gridCols imgs in
  let rows := Spec.ceilDiv (length imgs) cols in
  gridPosition this cols (baseGridWidth this imgs) (baseGridHeight this imgs)
    i image
  = Spec.cellPlacement this cols rows (i / cols) (i mod cols) image.
Proof.
  intros Hn cols rows.
  assert (Hc : (0 < cols)%nat).
  { unfold cols, gridCols. pose proof (ceilSqrt_bounds _ Hn). lia. }
  unfold gridPosition, Spec.cellPlacement. rewrite scaleToFit_code.
  rewrite floor_ofNat_div, rem_ofNat by done.
  replace (baseGridHeight this imgs) with (Spec.cellHeight this rows).
  2:{ unfold baseGridHeight, Spec.cellHeight. by rewrite gridRows_ceilDiv. }
  reflexivity.
Qed.

End Grid.

Lemma Forall_forallb {A : Type} (f : A -> bool) (l : list A) :
  forallb f l = true <-> Forall (fun a => f a = true) l.
Proof.
  induction l as [|a l IH]; simpl.
  - split; [constructor | done].
  - rewrite andb_true_iff, IH, Forall_cons. done.
Qed.

(** C4: for a list of [n >= 1] images the grid uses [cols = ceil(sqrt(n))]
    columns and [rows = ceil(n / cols)] rows; image [i] gets the cell in
    row [floor(i / cols)] and column [i mod cols], which lies inside the
    grid; two different images never get the same cell; the image is
    scaled into its cell by the two steps of ScaleToFit on the ratio
    [originalWidth / originalHeight] and centred
    ([x = cellX + (cellWidth - width) / 2], likewise [y]).  For the images
    1600 by 900 and 900 by 1600 on the default 1920 by 1080 canvas (margin
    20, spacing 10, minimum size 100) there are 2 columns and 1 row, and
    for both rectangles [width / height] is within 0.01 of
    [originalWidth / originalHeight]. *)
Theorem applyProportionalGridLayout_cells (this : WallpaperCreator)
    (imgs : list Image) :
  (1 <= length imgs)%nat ->
  let n := length imgs in
  let cols := gridCols imgs in
  let rows := Spec.ceilDiv n cols in
  ((cols - 1) * (cols - 1) < n /\ n <= cols * cols)%nat
  /\ gridRows imgs = Num.ofNat rows
  /\ ((rows - 1) * cols < n /\ n <= rows * cols)%nat
  /\ length (applyProportionalGridLayout this imgs) = n
  /\ (forall (i : nat) (image : Image),
        imgs !! i = Some image ->
        applyProportionalGridLayout this imgs !! i
        = Some
            (Spec.cellPlacement this cols rows (i / cols) (i mod cols) image)
        /\ (i / cols < rows)%nat /\ (i mod cols < cols)%nat)
  /\ (forall i j : nat,
        (i < n)%nat -> (j < n)%nat ->
        (i / cols)%nat = (j / cols)%nat ->
        (i mod cols)%nat = (j mod cols)%nat -> i = j)
  /\ (let this0 := defaultCreator landscapeAndPortrait None in
      gridCols landscapeAndPortrait = 2%nat
      /\ gridRows landscapeAndPortrait = Num.ofNat 1
      /\ Forall (Spec.validates (1 # 100))
           (applyProportionalGridLayout this0 landscapeAndPortrait)).
Proof.
  intros Hn n cols rows.
  destruct (ceilSqrt_bounds n Hn) as (Hc & Hc1 & Hc2).
  fold (gridCols imgs) in Hc, Hc1, Hc2. fold cols in Hc, Hc1, Hc2.
  destruct (ceilDiv_bounds n cols Hn Hc) as (Hr & Hr1 & Hr2).
  fold rows in Hr, Hr1, Hr2.
  repeat split; try done.
  - by apply gridRows_ceilDiv.
  - unfold applyProportionalGridLayout. by rewrite length_imap.
  - unfold applyProportionalGridLayout.
    rewrite list_lookup_imap, H. simpl. f_equal.
    by apply gridPosition_cell.
  - apply lookup_lt_Some in H. fold n in H.
    apply Nat.Div0.div_lt_upper_bound. lia.
  - apply Nat.mod_upper_bound. lia.
  - intros i j Hi Hj Hdiv Hmod.
    rewrite (Nat.div_mod i cols), (Nat.div_mod j cols) by lia.
    by rewrite Hdiv, Hmod.
  - set (l := applyProportionalGridLayout _ _). vm_compute in l. subst l.
    repeat (constructor; [vm_compute; reflexivity|]). constructor.
Qed.

Lemma applyProportionalGridLayout_cells_witness :
  let this0 := defaultCreator landscapeAndPortrait None in
  (1 <= length landscapeAndPortrait)%nat
  /\ applyProportionalGridLayout this0 landscapeAndPortrait !! 1%nat
     = Some (Spec.cellPlacement this0 2 1 0 1 (pixels 1 900 1600))
  /\ Num.eqn (width (Spec.cellPlacement this0 2 1 0 1 (pixels 1 900 1600)))
       (Fin 585)
  /\ Num.eqn (height (Spec.cellPlacement this0 2 1 0 1 (pixels 1 900 1600)))
       (Fin 1040).
Proof.
  intros this0. split; [simpl; lia|].
  assert (H : (1 <= length landscapeAndPortrait)%nat) by (simpl; lia).
  destruct (applyProportionalGridLayout_cells this0 landscapeAndPortrait H)
    as (_ & _ & _ & _ & Hcell & _).
  destruct (Hcell 1%nat (pixels 1 900 1600) eq_refl) as (E & _).
  split; [exact E|]. split; vm_compute; reflexivity.
Defined.

(** ** The masonry layout *)

Lemma Forall_isFin_fmap (hs : list number) :
  Forall Num.isFin hs -> exists qs : list Q, hs = Fin <$> qs.
Proof.
  induction 1 as [|h hs Hh _ [qs ->]].
  - by exists [].
  - apply isFin_Fin in Hh as [q ->]. by exists (q :: qs).
Qed.

Lemma Forall_isFin_Fin (qs : list Q) : Forall Num.isFin (Fin <$> qs).
Proof. apply Forall_fmap, Forall_true. done. Qed.

Lemma heightAt_Fin (qs : list Q) (i : nat) (q : Q) :
  qs !! i = Some q -> heightAt (Fin <$> qs) i = Fin q.
Proof. intros H. unfold heightAt. by rewrite list_lookup_fmap, H. Qed.

Lemma ltb_Fin (p q : Q) : (Fin p <? Fin q) = Num.Qltb p q.
Proof. reflexivity. Qed.

Lemma leb_Fin (p q : Q) : (Fin p <=? Fin q) = Qle_bool p q.
Proof. reflexivity. Qed.

Lemma le_Fin (p q : Q) : Num.le (Fin p) (Fin q) <-> (p <= q)%Q.
Proof. unfold Num.le. rewrite leb_Fin. apply Qle_bool_iff. Qed.

Lemma lt_Fin (p q : Q) : Num.lt (Fin p) (Fin q) <-> (p < q)%Q.
Proof. unfold Num.lt. rewrite ltb_Fin. apply Qltb_lt. Qed.

(** The scan for the shortest column, resumed at column [a] with the
    best column [c] among those before [a]. *)
Lemma shortestScan (qs : list Q) (len a c : nat) (qc : Q) :
  (a + len)%nat = length qs ->
  (c < a)%nat ->
  qs !! c = Some qc ->
  (forall j qj, (j < a)%nat -> qs !! j = Some qj ->
                (qc <= qj)%Q /\ ((j < c)%nat -> (qc < qj)%Q)) ->
  exists c' qc',
    fold_left
      (fun '(shortestColumn, shortestHeight) i =>
         if heightAt (Fin <$> qs) i <? shortestHeight
         then (i, heightAt (Fin <$> qs) i)
         else (shortestColumn, shortestHeight))
      (seq a len) (c, Fin qc)
    = (c', Fin qc')
    /\ qs !! c' = Some qc'
    /\ forall j qj, qs !! j = Some qj ->
                    (qc' <= qj)%Q /\ ((j < c')%nat -> (qc' < qj)%Q).
Proof.
  revert a c qc. induction len as [|len IH]; intros a c qc Hlen Hc Hqc Hmin.
  - exists c, qc. simpl. repeat split; try done.
    all: apply (Hmin j qj); try done; apply lookup_lt_Some in H; lia.
  - cbn [seq fold_left].
    destruct (lookup_lt_is_Some_2 qs a ltac:(lia)) as [qa Hqa].
    rewrite (heightAt_Fin qs a qa Hqa), ltb_Fin.
    destruct (Num.Qltb qa qc) eqn:E; qbool.
    + apply (IH (S a) a qa); try done; try lia.
      intros j qj Hj Hqj. destruct (decide (j = a)) as [->|Hne].
      * rewrite Hqa in Hqj. injection Hqj as ->. split; [lra|lia].
      * destruct (Hmin j qj ltac:(lia) Hqj) as [H1 _]. split; intros; lra.
    + apply (IH (S a) c qc); try done; try lia.
      intros j qj Hj Hqj. destruct (decide (j = a)) as [->|Hne].
      * rewrite Hqa in Hqj. injection Hqj as ->. split; [lra|lia].
      * apply (Hmin j qj); [lia|done].
Qed.

Lemma findShortestColumn_Fin (qs : list Q) :
  (1 <= length qs)%nat ->
  exists c qc,
    findShortestColumn (length qs) (Fin <$> qs) = c
    /\ qs !! c = Some qc
    /\ forall j qj, qs !! j = Some qj ->
                    (qc <= qj)%Q /\ ((j < c)%nat -> (qc < qj)%Q).
Proof.
  intros Hlen. unfold findShortestColumn.
  destruct (lookup_lt_is_Some_2 qs 0 ltac:(lia)) as [q0 Hq0].
  rewrite (heightAt_Fin qs 0 q0 Hq0).
  destruct (shortestScan qs (length qs - 1) 1 0 q0) as (c & qc & E & Hc & Hmin);
    try done; try lia.
  { intros j qj Hj Hqj. assert (j = 0%nat) as -> by lia.
    rewrite Hq0 in Hqj. injection Hqj as ->. split; [lra|lia]. }
  exists c, qc. by rewrite E.
Qed.

Lemma findShortestColumn_shortest (qs : list Q) :
  (1 <= length qs)%nat ->
  Spec.shortest (Fin <$> qs) (findShortestColumn (length qs) (Fin <$> qs)).
Proof.
  intros Hlen.
  destruct (findShortestColumn_Fin qs Hlen) as (c & qc & -> & Hc & Hmin).
  exists (Fin qc). split; [by rewrite list_lookup_fmap, Hc|].
  intros j hj Hj. rewrite list_lookup_fmap in Hj.
  destruct (qs !! j) as [qj|] eqn:Hqj; [|done]. injection Hj as <-.
  destruct (Hmin j qj Hqj) as [H1 H2].
  split; [by apply le_Fin | intros; by apply lt_Fin, H2].
Qed.

(** Finite numbers are closed under the arithmetic the layouts use. *)
Lemma isFin_add (a b : number) :
  Num.isFin a -> Num.isFin b -> Num.isFin (a + b).
Proof. by destruct a, b. Qed.

Lemma isFin_sub (a b : number) :
  Num.isFin a -> Num.isFin b -> Num.isFin (a - b).
Proof. by destruct a, b. Qed.

Lemma isFin_mul (a b : number) :
  Num.isFin a -> Num.isFin b -> Num.isFin (a * b).
Proof. by destruct a, b. Qed.

Lemma isFin_ofNat (n : nat) : Num.isFin (Num.ofNat n).
Proof. done. Qed.

Lemma isFin_const (q : Q) : Num.isFin (Fin q).
Proof. done. Qed.

Lemma isFin_div_ofNat (a : number) (n : nat) :
  (0 < n)%nat -> Num.isFin a -> Num.isFin (a / Num.ofNat n).
Proof.
  intros Hn Ha. apply isFin_Fin in Ha as [q ->].
  unfold Num.ofNat, Num.ofZ. by rewrite div_Fin by by apply ofNat_nonzero.
Qed.

Create HintDb finite.
#[local] Hint Resolve isFin_add isFin_sub isFin_mul isFin_ofNat isFin_const
  isFin_div_ofNat pos_isFin : finite.

Section Masonry.

Variable this : WallpaperCreator.
Hypothesis Hwf : wellFormed this.

Lemma masonryColumnCount_bounds (imgs : list Image) :
  (2 <= masonryColumnCount imgs <= 5)%nat.
Proof. unfold masonryColumnCount. lia. Qed.


Lemma masonryColumnWidth_finite (imgs : list Image) :
  Num.isFin (masonryColumnWidth this imgs).
Proof.
  destruct Hwf as (Hsp & Hm & _ & Hcw & _).
  unfold masonryColumnWidth.
  pose proof (masonryColumnCount_bounds imgs).
  apply isFin_div_ofNat; [lia|]. auto 10 with finite.
Qed.

(** The loop of [applyMasonryLayout] carries out the placement process of
    the specification. *)
Lemma masonryLoop_refines (columnWidth : number) (l : list Image)
    (qs : list Q) (ps : list Position) :
  Num.isFin columnWidth ->
  (1 <= length qs)%nat ->
  Forall validImage l ->
  exists placed final,
    fold_left (masonryStep this (length qs) columnWidth) l (Fin <$> qs, ps)
    = (Fin <$> final, ps ++ placed)
    /\ Spec.masonry this columnWidth (Fin <$> qs) l placed (Fin <$> final).
Proof.
  intros Hcw. revert qs ps.
  induction l as [|img l IH]; intros qs ps Hlen Hl.
  - exists [], qs. simpl. rewrite app_nil_r. split; [done|constructor].
  - apply Forall_cons in Hl as [Himg Hl].
    destruct Hwf as (Hsp & _ & Hmin & _).
    apply isFin_Fin in Hsp as [sp Hsp].
    destruct (findShortestColumn_Fin qs Hlen) as (c & qc & Hc & Hqc & _).
    pose proof (findShortestColumn_shortest qs Hlen) as Hshort.
    rewrite Hc in Hshort.
    destruct (scaleImagePreservingRatio_exact this img columnWidth
                (columnWidth * Fin 2) Himg Hmin Hcw)
      as (w & h & r & Hd & _); [auto with finite|].
    cbn [fold_left]. unfold masonryStep at 2.
    rewrite Hc, (heightAt_Fin qs c qc Hqc), Hd, Hsp.
    cbn [dimHeight dimWidth].
    change (Fin qc + (Fin h + Fin sp)) with (Fin (qc + (h + sp))).
    rewrite <- list_fmap_insert.
    destruct (IH (<[c := (qc + (h + sp))%Q]> qs)
                (ps ++ [ {| imageData := img;
                            x := margin (autoFitSettings this)
                                 + Num.ofNat c * (columnWidth + Fin sp);
                            y := Fin qc;
                            width := Fin w;
                            height := Fin h |} ]))
      as (placed & final & E & Hrel); [by rewrite length_insert|done|].
    rewrite length_insert in E.
    eexists (_ :: placed), final. split.
    + rewrite E, <- app_assoc. reflexivity.
    + pose proof (Spec.masonry_place this columnWidth (Fin <$> qs) img l c
                    (Fin qc) (mkDimensions (Fin w) (Fin h)) placed
                    (Fin <$> final) Hshort) as Hplace.
      rewrite Hsp in Hplace. cbn [dimHeight dimWidth] in Hplace.
      apply Hplace.
      * by rewrite list_lookup_fmap, Hqc.
      * by rewrite scaleToFit_code.
      * change (Fin qc + (Fin h + Fin sp)) with (Fin (qc + (h + sp))).
        by rewrite <- list_fmap_insert.
Qed.

(** Along the placement process all numbers stay finite, every rectangle
    has positive sides in exactly the ratio of its image, and each
    rectangle belongs to the image at the same place of the input. *)
Lemma masonry_finite (columnWidth : number) (hs : list number)
    (l : list Image) (placed : list Position) (final : list number) :
  Spec.masonry this columnWidth hs l placed final ->
  Num.isFin columnWidth ->
  Forall validImage l ->
  Forall Num.isFin hs ->
  Forall finitePosition placed
  /\ Forall ratioExact placed
  /\ Forall Num.isFin final.
Proof.
  intros Hrel Hcw. induction Hrel as [hs|hs img rest c hc d placed final
    Hshort Hhc Hd Hrel IH]; intros Hl Hhs.
  - repeat split; [constructor|constructor|done].
  - apply Forall_cons in Hl as [Himg Hl].
    destruct Hwf as (Hsp & Hm & Hmin & _).
    destruct (scaleImagePreservingRatio_exact this img columnWidth
                (columnWidth * Fin 2) Himg Hmin Hcw)
      as (w & h & r & Hd' & Hr & Hw0 & Hh0 & Hr0 & Hwh);
      [auto with finite|].
    rewrite scaleToFit_code, Hd' in Hd. subst d.
    cbn [dimHeight dimWidth] in *.
    assert (Hfin : Num.isFin hc).
    { by apply (Forall_lookup_1 _ _ _ _ Hhs Hhc). }
    destruct IH as (IH1 & IH2 & IH3); [done| |].
    { apply Forall_insert; [done|]. auto with finite. }
    repeat split; try done; constructor; try done.
    + repeat split; cbn; auto 10 with finite.
    + unfold ratioExact. cbn. rewrite Hr. by apply ratio_eqn.
Qed.

Lemma sortedImages_valid (imgs : list Image) :
  Forall validImage imgs -> Forall validImage (sortedImages this imgs).
Proof. intros H. by rewrite sortedImages_perm. Qed.

(** The whole run of [applyMasonryLayout]. *)
Lemma masonryRun_spec (imgs : list Image) :
  Forall validImage imgs ->
  exists final : list Q,
    masonryRun this imgs = (Fin <$> final, applyMasonryLayout this imgs)
    /\ Spec.masonry this (masonryColumnWidth this imgs)
         (replicate (masonryColumnCount imgs) (margin (autoFitSettings this)))
         (sortedImages this imgs) (applyMasonryLayout this imgs)
         (Fin <$> final)
    /\ Forall finitePosition (applyMasonryLayout this imgs)
    /\ Forall ratioExact (applyMasonryLayout this imgs).
Proof.
  intros Himgs.
  pose proof (masonryColumnWidth_finite imgs) as Hcw.
  pose proof (masonryColumnCount_bounds imgs) as Hcount.
  pose proof (sortedImages_valid imgs Himgs) as Hsorted.
  destruct Hwf as (_ & Hm & _).
  apply isFin_Fin in Hm as [m Hm].
  destruct (masonryLoop_refines (masonryColumnWidth this imgs)
              (sortedImages this imgs)
              (replicate (masonryColumnCount imgs) m) [] Hcw)
    as (placed & final & E & Hrel); [rewrite length_replicate; lia|done|].
  rewrite length_replicate in E. rewrite fmap_replicate, <- Hm in E, Hrel.
  assert (Hrun : applyMasonryLayout this imgs = placed).
  { unfold applyMasonryLayout, masonryRun. by rewrite E. }
  exists final. rewrite Hrun. split; [|split; [done|]].
  - unfold masonryRun. by rewrite E.
  - destruct (masonry_finite _ _ _ _ _ Hrel Hcw Hsorted) as (H1 & H2 & _);
      [|done].
    rewrite Hm. apply Forall_replicate. done.
Qed.

End Masonry.



(** ** Balance of the masonry columns *)

Lemma max_Fin (a q : Q) :
  exists t, Num.max (Fin a) (Fin q) = Fin t /\ (a <= t)%Q /\ (q <= t)%Q.
Proof.
  unfold Num.max. rewrite ltb_Fin.
  destruct (Num.Qltb a q) eqn:E; qbool; eexists; (split; [done|]); lra.
Qed.

Lemma maxLoop_Fin (hq : list Q) (a : Q) :
  exists t,
    fold_left Num.max (Fin <$> hq) (Fin a) = Fin t
    /\ (a <= t)%Q /\ Forall (fun h => (h <= t)%Q) hq.
Proof.
  revert a. induction hq as [|h hq IH]; intros a; cbn.
  - exists a. repeat split; [lra|constructor].
  - destruct (max_Fin a h) as (t & -> & Ha & Hh).
    destruct (IH t) as (t' & -> & Ht & Hall).
    exists t'. repeat split; [lra|]. constructor; [lra|done].
Qed.

Lemma maxList_Fin (h : Q) (hq : list Q) :
  exists t,
    Num.maxList (Fin <$> (h :: hq)) = Fin t
    /\ Forall (fun h => (h <= t)%Q) (h :: hq).
Proof.
  unfold Num.maxList. cbn [fmap list_fmap fold_left].
  change (Num.max NInf (Fin h)) with (Fin h).
  destruct (maxLoop_Fin hq h) as (t & -> & Ht & Hall).
  exists t. split; [done|]. by constructor.
Qed.

Section Balance.

Variable this : WallpaperCreator.
Variables (sp T : Q).
Hypothesis Hsp : spacing (autoFitSettings this) = Fin sp.
Hypothesis Hsp0 : (0 <= sp)%Q.

(** Growing a shortest column by at most [T + sp] keeps the heights
    within [T + sp] of each other. *)
Lemma within_insert (qs : list Q) (c : nat) (qc h : Q) :
  within (T + sp) qs ->
  qs !! c = Some qc ->
  (forall j qj, qs !! j = Some qj -> (qc <= qj)%Q) ->
  (0 < h)%Q -> (h <= T)%Q ->
  within (T + sp) (<[c := (qc + (h + sp))%Q]> qs).
Proof.
  intros Hin Hc Hmin Hh HT i j a b Ha Hb.
  apply list_lookup_insert_Some in Ha as [(<- & <- & _)|[Hi Ha]];
    apply list_lookup_insert_Some in Hb as [(<- & <- & _)|[Hj Hb]].
  - lra.
  - pose proof (Hmin j b Hb). lra.
  - pose proof (Hin i c a qc Ha Hc). lra.
  - apply (Hin i j a b Ha Hb).
Qed.

Lemma masonry_within (columnWidth : number) (hs : list number)
    (l : list Image) (placed : list Position) (final : list number) :
  Spec.masonry this columnWidth hs l placed final ->
  forall qs : list Q,
    hs = Fin <$> qs ->
    Forall (fun p => exists h, height p = Fin h /\ (0 < h)%Q /\ (h <= T)%Q)
      placed ->
    within (T + sp) qs ->
    exists qf, final = Fin <$> qf /\ within (T + sp) qf.
Proof.
  induction 1 as [hs|hs img rest c hc d placed final Hshort Hhc Hd Hrel IH];
    intros qs -> Hheights Hin.
  - by exists qs.
  - apply Forall_cons in Hheights as [(h & Hh & Hh0 & HhT) Hheights].
    cbn in Hh. rewrite list_lookup_fmap in Hhc.
    destruct (qs !! c) as [qc|] eqn:Hqc; [|done]. injection Hhc as <-.
    apply (IH (<[c := (qc + (h + sp))%Q]> qs)); [|done|].
    + rewrite Hh, Hsp, list_fmap_insert. reflexivity.
    + apply within_insert; try done.
      intros j qj Hqj. destruct Hshort as (hc & Hhc & Hmin).
      rewrite list_lookup_fmap, Hqc in Hhc. injection Hhc as <-.
      destruct (Hmin j (Fin qj)) as [Hle _];
        [by rewrite list_lookup_fmap, Hqj|].
      by apply le_Fin.
Qed.

End Balance.

Lemma heights_Fin (ps : list Position) :
  Forall finitePosition ps ->
  exists hq : list Q,
    height <$> ps = Fin <$> hq /\ Forall (fun h => (0 < h)%Q) hq.
Proof.
  induction 1 as [|p ps (_ & _ & _ & Hh) _ (hq & E & Hpos)].
  - exists []. split; [done|constructor].
  - apply pos_Fin in Hh as (h & Hh & Hh0).
    exists (h :: hq). cbn. rewrite Hh, E. split; [done|by constructor].
Qed.

(** C7: after the masonry layout has placed a non-empty list of images,
    any two column heights differ by at most the height of the tallest
    placed image plus one spacing (each placement raises its column by the
    placed height plus the spacing).  For five equal squares under the
    default configuration there are 3 columns, of heights 1280, 1280 and
    650, and the tallest image is 620 high: the difference, 630, is that
    height plus the spacing of 10. *)
Theorem masonry_columns_balanced (this : WallpaperCreator)
    (imgs : list Image) :
  imgs <> [] ->
  wellFormed this ->
  Num.le (Fin 0) (spacing (autoFitSettings this)) ->
  Forall validImage imgs ->
  (forall (i j : nat) (a b : number),
     fst (masonryRun this imgs) !! i = Some a ->
     fst (masonryRun this imgs) !! j = Some b ->
     Num.le (a - b)
        (tallest (applyMasonryLayout this imgs)
         + spacing (autoFitSettings this)))
  /\ (let this0 := defaultCreator fiveSquares None in
      masonryColumnCount fiveSquares = 3%nat
      /\ Forall2 Num.eqn (fst (masonryRun this0 fiveSquares))
           [Fin 1280; Fin 1280; Fin 650]
      /\ Num.eqn (tallest (applyMasonryLayout this0 fiveSquares)) (Fin 620)).
Proof.
  intros Hne Hwf Hsp0 Himgs. split.
  2:{ vm_compute. repeat split; repeat constructor; done. }
  destruct (masonryRun_spec this Hwf imgs Himgs)
    as (final & E & Hrel & Hfin & _).
  pose proof Hwf as (Hsp & Hm & _).
  apply isFin_Fin in Hsp as [sp Hsp]. apply isFin_Fin in Hm as [m Hm].
  rewrite Hsp in Hsp0. apply le_Fin in Hsp0.
  destruct (heights_Fin _ Hfin) as (hq & Hhq & Hpos).
  destruct hq as [|h hq].
  { exfalso. apply Hne.
    apply fmap_nil_inv in Hhq.
    pose proof (applyMasonryLayout_imageData this imgs) as Himg.
    rewrite Hhq in Himg. cbn in Himg.
    apply Permutation_nil_r. rewrite Himg. symmetry. apply sortedImages_perm. }
  destruct (maxList_Fin h hq) as (T & HT & Hall).
  assert (HT0 : (0 < T)%Q).
  { apply Forall_cons in Hall as [? _]. apply Forall_cons in Hpos as [? _].
    lra. }
  destruct (masonry_within this sp T Hsp Hsp0 _ _ _ _ _ Hrel
              (replicate (masonryColumnCount imgs) m))
    as (qf & Hqf & Hin).
  { by rewrite Hm, fmap_replicate. }
  { apply Forall_forall. intros p Hp.
    apply list_elem_of_lookup in Hp as [k Hk].
    assert (height <$> applyMasonryLayout this imgs !! k = Some (height p))
      as Hk' by (by rewrite Hk).
    rewrite <- list_lookup_fmap, Hhq, list_lookup_fmap in Hk'.
    destruct ((h :: hq) !! k) as [hk|] eqn:Hhk; [|done].
    injection Hk' as Hk'. exists hk. split; [done|].
    split.
    - by apply (Forall_lookup_1 _ _ _ _ Hpos Hhk).
    - by apply (Forall_lookup_1 _ _ _ _ Hall Hhk). }
  { intros i j a b Ha Hb.
    apply lookup_replicate in Ha as [-> _].
    apply lookup_replicate in Hb as [-> _]. lra. }
  intros i j a b Ha Hb. rewrite E in Ha, Hb. cbn in Ha, Hb.
  rewrite Hqf, list_lookup_fmap in Ha, Hb.
  destruct (qf !! i) as [qa|] eqn:Hqa; [|done].
  destruct (qf !! j) as [qb|] eqn:Hqb; [|done].
  injection Ha as <-. injection Hb as <-.
  unfold tallest. rewrite Hhq, HT, Hsp.
  apply le_Fin. pose proof (Hin i j qa qb Hqa Hqb). lra.
Qed.

(** The balance property as the specification states it fails for the
    five squares: the first column is 630 higher than the third, and the
    tallest image is 620 high. *)
Lemma strictlyBalanced_fiveSquares_fails :
  ~ strictlyBalanced (defaultCreator fiveSquares None) fiveSquares.
Proof.
  intros H.
  specialize (H 0%nat 2%nat _ _ eq_refl eq_refl).
  vm_compute in H. done.
Qed.

Lemma masonry_columns_balanced_witness :
  let this0 := defaultCreator fiveSquares None in
  fiveSquares <> []
  /\ wellFormed this0
  /\ Num.le (Fin 0) (spacing (autoFitSettings this0))
  /\ Forall validImage fiveSquares
  /\ (forall (i j : nat) (a b : number),
        fst (masonryRun this0 fiveSquares) !! i = Some a ->
        fst (masonryRun this0 fiveSquares) !! j = Some b ->
        Num.le (a - b)
           (tallest (applyMasonryLayout this0 fiveSquares)
            + spacing (autoFitSettings this0))).
Proof.
  intros this0.
  assert (H1 : fiveSquares <> []) by done.
  assert (H2 : wellFormed this0) by (vm_compute; done).
  assert (H3 : Num.le (Fin 0) (spacing (autoFitSettings this0))) by reflexivity.
  assert (H4 : Forall validImage fiveSquares).
  { repeat constructor. }
  destruct (masonry_columns_balanced this0 fiveSquares H1 H2 H3 H4) as [H _].
  exact (conj H1 (conj H2 (conj H3 (conj H4 H)))).
Defined.

(** ** The organic stack layout *)

Lemma clamp_Fin (m a b : Q) :
  exists u,
    Num.max (Fin m) (Num.min (Fin a) (Fin b)) = Fin u
    /\ (m <= u)%Q /\ ((m <= b)%Q -> (u <= b)%Q).
Proof.
  unfold Num.max, Num.min. rewrite ltb_Fin.
  destruct (Num.Qltb b a) eqn:E1; rewrite ltb_Fin;
    match goal with |- context [Num.Qltb ?p ?q] =>
      destruct (Num.Qltb p q) eqn:E2 end;
    qbool; eexists; (split; [reflexivity|]); split; intros; lra.
Qed.

Section Organic.

Variable this : WallpaperCreator.
Variable random : nat -> Q.

(** The k-th rectangle of the organic loop is the k-th masonry rectangle
    put through [organicPosition] at its index. *)
Lemma organicLoop_lookup (ps : list Position) (calls index k : nat)
    (base : Position) :
  ps !! k = Some base ->
  exists calls',
    organicLoop this random calls index ps !! k
    = Some (fst (organicPosition this random calls' (index + k) base)).
Proof.
  revert calls index k. induction ps as [|p ps IH]; intros calls index k Hk;
    [done|].
  cbn [organicLoop].
  destruct (organicPosition this random calls index p) as [finalPos calls1]
    eqn:E.
  destruct k as [|k]; cbn in Hk |- *.
  - injection Hk as ->. exists calls. by rewrite Nat.add_0_r, E.
  - destruct (IH calls1 (S index) k Hk) as [calls' Hcalls'].
    exists calls'.
    replace (index + S k)%nat with (S index + k)%nat by lia. exact Hcalls'.
Qed.

Lemma organicPosition_clamped (calls index : nat) (base : Position) :
  wellFormed this ->
  finitePosition base ->
  let pos := fst (organicPosition this random calls index base) in
  imageData pos = imageData base
  /\ width pos = width base
  /\ height pos = height base
  /\ if allowStacking (autoFitSettings this) && (0 <? index)%nat then
       Num.le (margin (autoFitSettings this)) (x pos)
       /\ Num.le (margin (autoFitSettings this)) (y pos)
       /\ (Num.le (margin (autoFitSettings this))
             (canvasWidth this - width pos - margin (autoFitSettings this)) ->
           Num.le (x pos + width pos)
              (canvasWidth this - margin (autoFitSettings this)))
       /\ (Num.le (margin (autoFitSettings this))
             (canvasHeight this - height pos
              - margin (autoFitSettings this)) ->
           Num.le (y pos + height pos)
              (canvasHeight this - margin (autoFitSettings this)))
     else pos = base.
Proof.
  intros (Hsp & Hm & _ & Hcw & Hch) (Hx & Hy & Hw & Hh).
  unfold organicPosition.
  destruct (allowStacking (autoFitSettings this) && (0 <? index)%nat);
    cbn [fst imageData width height x y]; [|done].
  split; [done|]. split; [done|]. split; [done|].
  apply isFin_Fin in Hsp as [sp ->]. apply isFin_Fin in Hm as [m ->].
  apply isFin_Fin in Hcw as [cw ->]. apply isFin_Fin in Hch as [ch ->].
  apply isFin_Fin in Hx as [bx ->]. apply isFin_Fin in Hy as [by' ->].
  apply pos_Fin in Hw as (w & -> & Hw). apply pos_Fin in Hh as (h & -> & Hh).
  match goal with
  | |- context [Num.max (Fin m) (Num.min ?a (Fin cw - Fin w - Fin m))] =>
      change a with (Fin (bx + (random calls + - (1 # 2)) * (sp * (1 # 2))));
      change (Fin cw - Fin w - Fin m) with (Fin (cw + - w + - m))
  end.
  match goal with
  | |- context [Num.max (Fin m) (Num.min ?a (Fin ch - Fin h - Fin m))] =>
      change a
        with (Fin (by' + (random (S calls) + - (1 # 2)) * (sp * (1 # 2))));
      change (Fin ch - Fin h - Fin m) with (Fin (ch + - h + - m))
  end.
  destruct (clamp_Fin m (bx + (random calls + - (1 # 2)) * (sp * (1 # 2)))
              (cw + - w + - m)) as (ux & -> & Hux1 & Hux2).
  destruct (clamp_Fin m
              (by' + (random (S calls) + - (1 # 2)) * (sp * (1 # 2)))
              (ch + - h + - m)) as (uy & -> & Huy1 & Huy2).
  change (Fin cw - Fin m) with (Fin (cw + - m)).
  change (Fin ch - Fin m) with (Fin (ch + - m)).
  change (Fin ux + Fin w) with (Fin (ux + w)).
  change (Fin uy + Fin h) with (Fin (uy + h)).
  rewrite !le_Fin.
  split; [done|]. split; [done|]. split; intros; lra.
Qed.

(** Where the upper bound of a clamp lies below the margin, the clamp
    returns the margin, whatever the value clamped. *)
Lemma clamp_below (m a b : Q) :
  (b < m)%Q -> Num.max (Fin m) (Num.min (Fin a) (Fin b)) = Fin m.
Proof.
  intros Hb. unfold Num.max, Num.min. rewrite ltb_Fin.
  destruct (Num.Qltb b a) eqn:E1; rewrite ltb_Fin;
    match goal with |- context [Num.Qltb ?p ?q] =>
      destruct (Num.Qltb p q) eqn:E2 end;
    qbool; try done; exfalso; lra.
Qed.

End Organic.

(** X27: the organic stack layout keeps the image and the size of every
    masonry rectangle.  With [allowStacking] set, every rectangle but the
    first has [margin <= x] and [margin <= y], and it ends before the
    right (bottom) margin whenever it fits between the two margins, that
    is whenever [margin <= canvasWidth - width - margin] (respectively
    [margin <= canvasHeight - height - margin]).  The first rectangle, and
    every rectangle when [allowStacking] is off, is the masonry rectangle
    unchanged. *)
Theorem applyOrganicStackLayout_clamped (this : WallpaperCreator)
    (random : nat -> Q) (imgs : list Image) :
  wellFormed this ->
  Forall validImage imgs ->
  length (applyOrganicStackLayout this random imgs)
  = length (applyMasonryLayout this imgs)
  /\ forall (k : nat) (base : Position),
       applyMasonryLayout this imgs !! k = Some base ->
       exists pos,
         applyOrganicStackLayout this random imgs !! k = Some pos
         /\ imageData pos = imageData base
         /\ width pos = width base
         /\ height pos = height base
         /\ if allowStacking (autoFitSettings this) && (0 <? k)%nat then
              Num.le (margin (autoFitSettings this)) (x pos)
              /\ Num.le (margin (autoFitSettings this)) (y pos)
              /\ (Num.le (margin (autoFitSettings this))
                    (canvasWidth this - width pos
                     - margin (autoFitSettings this)) ->
                  Num.le (x pos + width pos)
                     (canvasWidth this - margin (autoFitSettings this)))
              /\ (Num.le (margin (autoFitSettings this))
                    (canvasHeight this - height pos
                     - margin (autoFitSettings this)) ->
                  Num.le (y pos + height pos)
                     (canvasHeight this - margin (autoFitSettings this)))
            else pos = base.
Proof.
  intros Hwf Himgs. split.
  { apply organicLoop_length. }
  intros k base Hk.
  destruct (masonryRun_spec this Hwf imgs Himgs) as (_ & _ & _ & Hfin & _).
  pose proof (Forall_lookup_1 _ _ _ _ Hfin Hk) as Hbase.
  destruct (organicLoop_lookup this random _ 0 0 k base Hk) as [calls Hpos].
  eexists. split; [exact Hpos|].
  apply (organicPosition_clamped this random calls k base Hwf Hbase).
Qed.

(** C6: on the default canvas of 1920 by 1080 (margin 20, spacing 10,
    minimum size 100, [allowStacking] set) the organic stack layout of the
    images 1600 by 900 and 900 by 1600 returns, whatever [Math.random]
    yields, a second rectangle 935 wide and 14960/9 (about 1662.2) high
    at [y = 20]: it ends at about 1682.2, below
    [canvasHeight - margin = 1060], so that the placements are not
    contained within the canvas margins.  The clamp
    [max(margin, min(y, canvasHeight - height - margin))] returns the
    margin because its upper bound is negative. *)
Theorem applyOrganicStackLayout_overflows (random : nat -> Q) :
  let this0 := defaultCreator landscapeAndPortrait None in
  (exists pos,
     applyOrganicStackLayout this0 random landscapeAndPortrait !! 1%nat
     = Some pos
     /\ imageData pos = pixels 1 900 1600
     /\ Num.eqn (width pos) (Fin 935)
     /\ Num.eqn (height pos) (Fin (14960 # 9))
     /\ Num.eqn (y pos) (Fin 20)
     /\ Num.lt (canvasHeight this0 - margin (autoFitSettings this0))
          (y pos + height pos))
  /\ ~ organicContained this0 random landscapeAndPortrait.
Proof.
  intros this0.
  assert (Hpos :
    exists pos,
      applyOrganicStackLayout this0 random landscapeAndPortrait !! 1%nat
      = Some pos
      /\ imageData pos = pixels 1 900 1600
      /\ Num.eqn (width pos) (Fin 935)
      /\ Num.eqn (height pos) (Fin (14960 # 9))
      /\ Num.eqn (y pos) (Fin 20)
      /\ Num.lt (canvasHeight this0 - margin (autoFitSettings this0))
           (y pos + height pos)).
  { unfold applyOrganicStackLayout.
    set (l := applyMasonryLayout this0 landscapeAndPortrait).
    vm_compute in l. subst l.
    cbn [organicLoop]. unfold organicPosition at 1.
    change (allowStacking (autoFitSettings this0) && (0 <? 0)%nat)
      with false. cbv iota.
    unfold organicPosition.
    change (allowStacking (autoFitSettings this0) && (0 <? 1)%nat)
      with true. cbv iota. cbn [lookup list_lookup].
    eexists. split; [reflexivity|].
    cbn [imageData width height x y].
    split; [reflexivity|]. split; [reflexivity|]. split; [reflexivity|].
    match goal with
    | |- context [Num.max ?m (Num.min ?a ?b)] =>
        assert (E : Num.max m (Num.min a b) = Fin 20)
    end.
    { match goal with
      | |- context [Num.min ?a _] =>
          assert (Ha : exists q, a = Fin q) by (by eexists)
      end.
      destruct Ha as [q ->].
      match goal with
      | |- Num.max ?m (Num.min _ ?b) = _ =>
          let b' := eval vm_compute in b in change b with b';
          let m' := eval vm_compute in m in change m with m'
      end.
      rewrite clamp_below; [reflexivity|]. reflexivity. }
    rewrite E. split; vm_compute; reflexivity. }
  split; [exact Hpos|].
  destruct Hpos as (pos & Hpos & _ & _ & _ & _ & Hlt).
  unfold organicContained. intros H.
  pose proof (Forall_lookup_1 _ _ _ _ H Hpos) as (_ & _ & _ & Hle).
  unfold Num.le, Num.lt in *.
  destruct (canvasHeight this0 - margin (autoFitSettings this0))
    as [a| | |], (y pos + height pos) as [b| | |]; try done.
  rewrite ltb_Fin in Hlt. rewrite leb_Fin in Hle. qbool. lra.
Qed.

Lemma applyOrganicStackLayout_clamped_witness :
  let this0 := defaultCreator landscapeAndPortrait None in
  wellFormed this0
  /\ Forall validImage landscapeAndPortrait
  /\ length (applyOrganicStackLayout this0 noJitter landscapeAndPortrait)
     = length (applyMasonryLayout this0 landscapeAndPortrait).
Proof.
  intros this0.
  assert (H1 : wellFormed this0) by (vm_compute; done).
  assert (H2 : Forall validImage landscapeAndPortrait).
  { repeat constructor. }
  destruct (applyOrganicStackLayout_clamped this0 noJitter
              landscapeAndPortrait H1 H2) as [H _].
  exact (conj H1 (conj H2 H)).
Defined.

(** ** The orchestrator *)

Lemma selectedImageData_valid (this : WallpaperCreator) :
  Forall validImage (images this) ->
  Forall validImage (selectedImageData this).
Proof.
  intros H. apply Forall_forall. intros img Himg.
  apply list_elem_of_filter in Himg as [_ Himg].
  by apply (proj1 (Forall_forall _ _) H).
Qed.

Lemma selectedImageData_empty (this : WallpaperCreator) :
  size (selectedImages this) = 0%nat -> selectedImageData this = [].
Proof.
  intros H. apply size_empty_inv in H.
  unfold selectedImageData.
  induction (images this) as [|img l IH]; [done|].
  rewrite filter_cons_False; [done|].
  intros Hin. apply H in Hin. set_solver.
Qed.

Section Orchestrator.

Variable this : WallpaperCreator.
Hypothesis Hwf : wellFormed this.

(** A rectangle with positive sides in exactly the ratio of a valid image
    passes the 0.01 check. *)
Lemma validatePosition_exact (pos : Position) :
  validImage (imageData pos) ->
  Num.pos (height pos) ->
  Num.isFin (width pos) ->
  ratioExact pos ->
  validatePosition pos = true.
Proof.
  intros Himg Hh Hw Hexact.
  unfold validatePosition, validateAspectRatioPreservation, ratioExact in *.
  cbn [dimWidth dimHeight].
  destruct (calculateAspectRatio_valid _ Himg) as (r & Hr & Hr0).
  apply pos_Fin in Hh as (h & Eh & Hh). apply isFin_Fin in Hw as (w & Ew).
  rewrite Hr, Ew, Eh, div_Fin in Hexact by lra.
  rewrite Hr, Ew, Eh, div_Fin by lra. cbn in Hexact.
  change (Fin r - Fin (w / h)) with (Fin (r + - (w / h))).
  unfold Num.abs. rewrite leb_Fin. apply Qle_bool_iff.
  apply Qabs_Qle_condition. rewrite Hexact. split; lra.
Qed.

Lemma baseGrid_finite (imgs : list Image) :
  (1 <= length imgs)%nat ->
  Num.isFin (baseGridWidth this imgs) /\ Num.isFin (baseGridHeight this imgs).
Proof.
  intros Hn. destruct Hwf as (Hsp & Hm & _ & Hcw & Hch).
  pose proof (ceilSqrt_bounds _ Hn) as (Hc & _).
  pose proof (ceilDiv_bounds _ _ Hn Hc) as (Hr & _).
  split.
  - unfold baseGridWidth. apply isFin_div_ofNat; [done|].
    auto 10 with finite.
  - unfold baseGridHeight. rewrite gridRows_ceilDiv by done.
    apply isFin_div_ofNat; [done|]. auto 10 with finite.
Qed.

(** The grid is ratio-exact on valid images: its output always passes
    validation. *)
Lemma applyProportionalGridLayout_valid (imgs : list Image) :
  Forall validImage imgs ->
  Forall (fun pos => validatePosition pos = true)
    (applyProportionalGridLayout this imgs).
Proof.
  intros Himgs. apply Forall_lookup. intros i pos Hpos.
  unfold applyProportionalGridLayout in Hpos.
  rewrite list_lookup_imap in Hpos.
  destruct (imgs !! i) as [img|] eqn:Himg; [|done].
  injection Hpos as <-.
  assert (Hn : (1 <= length imgs)%nat).
  { apply lookup_lt_Some in Himg. lia. }
  destruct (baseGrid_finite imgs Hn) as [Hgw Hgh].
  pose proof (Forall_lookup_1 _ _ _ _ Himgs Himg) as Hvalid.
  destruct Hwf as (_ & _ & Hmin & _).
  destruct (scaleImagePreservingRatio_exact this img _ _ Hvalid Hmin Hgw Hgh)
    as (w & h & r & Hd & Hr & Hw0 & Hh0 & Hr0 & Hwh).
  apply validatePosition_exact; unfold gridPosition, ratioExact;
    cbn [imageData width height]; rewrite ?Hd; cbn [dimWidth dimHeight];
    try done.
  rewrite Hr. by apply ratio_eqn.
Qed.

End Orchestrator.

(** The grid hands over rectangles in exactly the ratio of their
    images. *)
Lemma applyProportionalGridLayout_exactRatio (this : WallpaperCreator)
    (imgs : list Image) :
  wellFormed this ->
  Forall validImage imgs ->
  Forall Spec.exactRatio (applyProportionalGridLayout this imgs).
Proof.
  intros Hwf Himgs. apply Forall_lookup. intros i pos Hpos.
  unfold applyProportionalGridLayout in Hpos.
  rewrite list_lookup_imap in Hpos.
  destruct (imgs !! i) as [img|] eqn:Himg; [|done].
  injection Hpos as <-.
  assert (Hn : (1 <= length imgs)%nat).
  { apply lookup_lt_Some in Himg. lia. }
  destruct (baseGrid_finite this Hwf imgs Hn) as [Hgw Hgh].
  pose proof (Forall_lookup_1 _ _ _ _ Himgs Himg) as Hvalid.
  destruct Hwf as (_ & _ & Hmin & _).
  destruct (scaleImagePreservingRatio_exact this img _ _ Hvalid Hmin Hgw Hgh)
    as (w & h & r & Hd & Hr & Hw0 & Hh0 & Hr0 & Hwh).
  apply (proj1 (ratioExact_exactRatio _)). unfold gridPosition, ratioExact.
  cbn [imageData width height]. rewrite Hd. cbn [dimWidth dimHeight].
  rewrite Hr. by apply ratio_eqn.
Qed.

(** The outcome of the orchestrator once a layout is set. *)
Lemma applyNaturalAutoFitLayout_outcome (this : WallpaperCreator)
    (random : nat -> Q) (s : Strategy) :
  currentLayout this = Some (strategyName s) ->
  let imgs := selectedImageData this in
  let positions := runStrategy this random s imgs in
  let result := appliedPositions (applyNaturalAutoFitLayout this random) in
  result
  = (if forallb validatePosition positions then positions
     else applyProportionalGridLayout this imgs)
  /\ (size (selectedImages this) <> 0%nat ->
      applyNaturalAutoFitLayout this random = Some result).
Proof.
  intros Hlayout imgs positions result.
  assert (Hrun : runLayout this random (strategyName s) imgs = positions)
    by apply runLayout_strategyName.
  assert (Hname : String.eqb (strategyName s) "" = false) by by destruct s.
  unfold result, applyNaturalAutoFitLayout.
  rewrite Hlayout, Hname. cbn [orb].
  destruct (size (selectedImages this) =? 0)%nat eqn:Hsize.
  - apply Nat.eqb_eq in Hsize. split; [|done].
    unfold positions, imgs.
    rewrite (selectedImageData_empty this Hsize), runStrategy_nil. done.
  - fold imgs. rewrite Hrun.
    replace (forallb (fun result => result) (map validatePosition positions))
      with (forallb validatePosition positions).
    2:{ clear. induction positions as [|p ps IH]; cbn; [done|].
        by rewrite IH. }
    destruct (forallb validatePosition positions); done.
Qed.

(** C1: with a strategy name as the current layout,
    [applyNaturalAutoFitLayout] runs that strategy on the selected images
    and hands the canvas either its positions or the output of
    [applyProportionalGridLayout] on the same images.  On whole pixel
    dimensions: if for every rectangle [width / height] is within
    [0.01 - 10^-6] of [originalWidth / originalHeight], the positions of
    the strategy are handed over; if for some rectangle the distance is
    above [0.01 + 10^-6], the output of the grid is handed over instead;
    for every rectangle handed over the distance is at most
    [0.01 + 10^-6], and for every rectangle of the grid [width / height]
    is [originalWidth / originalHeight].  Within [10^-6] of the tolerance
    the verdict of the check depends on the rounding of the two quotients
    and the statement leaves it open. *)
Theorem applyNaturalAutoFitLayout_validated (this : WallpaperCreator)
    (random : nat -> Q) (s : Strategy) :
  screenConfig this ->
  Forall pixelImage (selectedImageData this) ->
  currentLayout this = Some (strategyName s) ->
  let imgs := selectedImageData this in
  let positions := runStrategy this random s imgs in
  let grid := applyProportionalGridLayout this imgs in
  let result := appliedPositions (applyNaturalAutoFitLayout this random) in
  runLayout this random (strategyName s) imgs = positions
  /\ (size (selectedImages this) <> 0%nat ->
      applyNaturalAutoFitLayout this random = Some result)
  /\ (result = positions \/ result = grid)
  /\ (Forall (Spec.validates ((1 # 100) - Spec.roundingMargin)) positions ->
      result = positions)
  /\ (Exists
        (fun pos => ~ Spec.validates ((1 # 100) + Spec.roundingMargin) pos)
        positions ->
      result = grid)
  /\ Forall (Spec.validates ((1 # 100) + Spec.roundingMargin)) result
  /\ Forall Spec.exactRatio grid.
Proof.
  intros Hcfg Himgs Hlayout imgs positions grid result.
  pose proof (screenConfig_wellFormed this Hcfg) as Hwf.
  pose proof (pixelImages_valid _ Himgs) as Hvalid.
  destruct (applyNaturalAutoFitLayout_outcome this random s Hlayout)
    as [Hresult Hsome].
  fold imgs positions result in Hresult, Hsome. fold grid in Hresult.
  assert (Hmargin : (0 <= Spec.roundingMargin)%Q) by (vm_compute; discriminate).
  assert (Hgrid : Forall (Spec.validates (1 # 100)) grid).
  { eapply Forall_impl;
      [exact (applyProportionalGridLayout_valid this Hwf imgs Hvalid)|].
    intros pos. apply validatePosition_validates. }
  assert (Hpass : forallb validatePosition positions = true
                  <-> Forall (Spec.validates (1 # 100)) positions).
  { rewrite Forall_forallb. apply Forall_iff. intros pos.
    apply validatePosition_validates. }
  split; [apply runLayout_strategyName|]. split; [exact Hsome|].
  split; [|split; [|split; [|split]]].
  - rewrite Hresult. destruct (forallb validatePosition positions); auto.
  - intros Hall. rewrite Hresult.
    replace (forallb validatePosition positions) with true; [done|].
    symmetry. apply Hpass. eapply Forall_impl; [exact Hall|].
    intros pos. apply validates_mono. lra.
  - intros Hex. rewrite Hresult.
    destruct (forallb validatePosition positions) eqn:E; [|done].
    exfalso. pose proof (proj1 Hpass eq_refl) as Hall.
    apply Exists_exists in Hex as (pos & Hin & Hn).
    apply Hn. apply (validates_mono (1 # 100)); [lra|].
    by apply (proj1 (Forall_forall _ _) Hall).
  - rewrite Hresult.
    destruct (forallb validatePosition positions) eqn:E.
    + eapply Forall_impl; [exact (proj1 Hpass eq_refl)|].
      intros pos. apply validates_mono. lra.
    + eapply Forall_impl; [exact Hgrid|].
      intros pos. apply validates_mono. lra.
  - by apply applyProportionalGridLayout_exactRatio.
Qed.

Lemma applyNaturalAutoFitLayout_validated_witness :
  let imgs := [pixels 0 1000 50; pixels 1 50 1000] in
  let this0 := defaultCreator imgs (Some (strategyName Flow)) in
  screenConfig this0
  /\ Forall pixelImage (selectedImageData this0)
  /\ currentLayout this0 = Some (strategyName Flow)
  /\ Exists
       (fun pos => ~ Spec.validates ((1 # 100) + Spec.roundingMargin) pos)
       (runStrategy this0 noJitter Flow (selectedImageData this0))
  /\ appliedPositions (applyNaturalAutoFitLayout this0 noJitter)
     = applyProportionalGridLayout this0 (selectedImageData this0).
Proof.
  intros imgs this0.
  assert (H1 : screenConfig this0) by apply defaultCreator_screenConfig.
  assert (H2 : Forall pixelImage (selectedImageData this0)).
  { assert (E : selectedImageData this0 = imgs) by (vm_compute; reflexivity).
    rewrite E.
    repeat (constructor; [apply pixels_pixelImage; lia|]). constructor. }
  assert (H3 : currentLayout this0 = Some (strategyName Flow)) by reflexivity.
  assert (H4 : Exists
                 (fun pos =>
                    ~ Spec.validates ((1 # 100) + Spec.roundingMargin) pos)
                 (runStrategy this0 noJitter Flow (selectedImageData this0))).
  { set (l := runStrategy _ _ _ _). vm_compute in l. subst l.
    apply Exists_cons_hd. vm_compute. discriminate. }
  destruct (applyNaturalAutoFitLayout_validated this0 noJitter Flow H1 H2 H3)
    as (_ & _ & _ & _ & Hfall & _).
  exact (conj H1 (conj H2 (conj H3 (conj H4 (Hfall H4))))).
Defined.

(** No check of the intrinsic dimensions stands before the division. *)
Lemma calculateAspectRatio_zero_height (image : Image) (w h : Q) :
  originalWidth image = Fin w -> (0 < w)%Q ->
  originalHeight image = Fin h -> h == 0 ->
  calculateAspectRatio image = PInf.
Proof.
  intros Hw Hw0 Hh Hh0. unfold calculateAspectRatio, Num.div.
  rewrite Hw, Hh.
  destruct (Qeq_bool h 0) eqn:E; qbool; [|done].
  unfold Num.signedInf. destruct (w ?= 0)%Q eqn:E'; qbool; try done; lra.
Qed.

(** C8: the engine has no rejection of descriptors.  Whenever a layout is
    set and the selection is not empty, [applyNaturalAutoFitLayout] hands
    the canvas one rectangle for every selected image, whatever the
    intrinsic dimensions are; [calculateAspectRatio] divides without a
    check, so that a descriptor of positive width and zero height has the
    ratio [Infinity].  For the image 100 by 0 under the masonry layout the
    rectangle handed over has the width [Infinity] and [x] equal to
    [-Infinity]. *)
Theorem applyNaturalAutoFitLayout_never_rejects (this : WallpaperCreator)
    (random : nat -> Q) (layout : string) :
  currentLayout this = Some layout ->
  layout <> EmptyString ->
  size (selectedImages this) <> 0%nat ->
  (exists positions,
     applyNaturalAutoFitLayout this random = Some positions
     /\ length positions = length (selectedImageData this))
  /\ (forall (image : Image) (w h : Q),
        originalWidth image = Fin w -> (0 < w)%Q ->
        originalHeight image = Fin h -> h == 0 ->
        calculateAspectRatio image = PInf)
  /\ (let this0 := defaultCreator [flatImage] (Some (strategyName Masonry)) in
      exists pos,
        applyNaturalAutoFitLayout this0 noJitter = Some [pos]
        /\ imageData pos = flatImage
        /\ width pos = PInf
        /\ x pos = NInf).
Proof.
  intros Hlayout Hname Hsize. split; [|split].
  - unfold applyNaturalAutoFitLayout. rewrite Hlayout.
    apply String.eqb_neq in Hname. apply Nat.eqb_neq in Hsize.
    rewrite Hname, Hsize. cbn [orb].
    destruct (forallb _ _); eexists; (split; [reflexivity|]).
    + destruct (runLayout_runStrategy this random layout
                  (selectedImageData this)) as [s ->].
      apply runStrategy_length.
    + apply (runStrategy_length this random ProportionalGrid).
  - apply calculateAspectRatio_zero_height.
  - vm_compute. eexists. repeat split.
Qed.

(** Rejection as the specification states it fails for the image 100 by
    0: the masonry layout, and after the failed validation the grid,
    compute a rectangle from it. *)
Lemma rejectsInvalid_flatImage_fails :
  ~ rejectsInvalid (defaultCreator [flatImage] (Some (strategyName Masonry)))
      noJitter.
Proof.
  intros H. apply (H flatImage).
  - vm_compute. constructor.
  - right. reflexivity.
  - vm_compute. constructor.
Qed.

Lemma applyNaturalAutoFitLayout_never_rejects_witness :
  let this0 := defaultCreator [flatImage] (Some (strategyName Masonry)) in
  currentLayout this0 = Some (strategyName Masonry)
  /\ strategyName Masonry <> EmptyString
  /\ size (selectedImages this0) <> 0%nat
  /\ exists positions,
       applyNaturalAutoFitLayout this0 noJitter = Some positions
       /\ length positions = length (selectedImageData this0).
Proof.
  intros this0.
  assert (H1 : currentLayout this0 = Some (strategyName Masonry))
    by reflexivity.
  assert (H2 : strategyName Masonry <> EmptyString) by done.
  assert (H3 : size (selectedImages this0) <> 0%nat) by (vm_compute; lia).
  destruct (applyNaturalAutoFitLayout_never_rejects this0 noJitter
              (strategyName Masonry) H1 H2 H3) as [H _].
  exact (conj H1 (conj H2 (conj H3 H))).
Defined.

(** * Further properties of the layout code *)

(** ** ScaleToFit: minimum size and bounding box *)

(** Name every quotient in the goal and the hypotheses, keeping only the
    equation that defines it. *)
Ltac qdiv :=
  repeat match goal with
  | |- context [(?a / ?r)%Q] =>
      let q := fresh "q" in
      let E := fresh "E" in
      assert (E : a / r * r == a) by (field; lra);
      set (q := (a / r)%Q) in *; clearbody q
  | H : context [(?a / ?r)%Q] |- _ =>
      let q := fresh "q" in
      let E := fresh "E" in
      assert (E : a / r * r == a) by (field; lra);
      set (q := (a / r)%Q) in *; clearbody q
  end.

Lemma fit_bounds (r maxWidth maxHeight minSize : Q) :
  (0 < r)%Q -> (0 < minSize)%Q -> (0 < maxWidth)%Q -> (0 < maxHeight)%Q ->
  exists w h,
    Spec.fit (Fin r) (Fin maxWidth) (Fin maxHeight) (Fin minSize)
    = (Fin w, Fin h)
    /\ (minSize <= w)%Q /\ (minSize <= h)%Q
    /\ (((w <= maxWidth)%Q /\ (h <= maxHeight)%Q
         /\ (w == maxWidth \/ h == maxHeight))
        \/ (w == minSize \/ h == minSize)).
Proof.
  intros Hr Hm Hw Hh.
  unfold Spec.fit, Spec.step1, Spec.step2, Num.gtb, Num.div, Num.mul,
    Num.ltb, Num.signedInf.
  repeat (qcase; simpl); qbool; try lra;
    eexists _, _; (split; [reflexivity|]).
  all: split; [|split].
  all: qdiv.
  all: try nra.
  all: try (right; left; lra).
  all: try (right; right; lra).
  all: try (left; repeat split; try nra; try (left; lra); try (right; lra)).
  all: try (assert (r < 1)%Q by nra).
  all: try (assert (1 <= r)%Q by nra).
  all: repeat match goal with
       | E : ?q * ?r' == ?m', _ : (0 < ?r')%Q, _ : (0 < ?m')%Q |- _ =>
           lazymatch goal with
           | _ : (0 < q)%Q |- _ => fail
           | _ => assert (0 < q)%Q by nra
           end
       end.
  all: nra.
Qed.

Lemma scaleImagePreservingRatio_bounds (this : WallpaperCreator)
    (image : Image) (mw mh m : Q) :
  validImage image ->
  minImageSize (autoFitSettings this) = Fin m -> (0 < m)%Q ->
  (0 < mw)%Q -> (0 < mh)%Q ->
  exists w h,
    scaleImagePreservingRatio this image (Fin mw) (Fin mh)
    = mkDimensions (Fin w) (Fin h)
    /\ (m <= w)%Q /\ (m <= h)%Q
    /\ (((w <= mw)%Q /\ (h <= mh)%Q /\ (w == mw \/ h == mh))
        \/ (w == m \/ h == m)).
Proof.
  intros Himg Em Hm Hw Hh.
  pose proof (scaleImagePreservingRatio_fit this image (Fin mw) (Fin mh)) as E.
  destruct (calculateAspectRatio_valid image Himg) as (r & Hr & Hr0).
  rewrite Hr, Em in E.
  destruct (fit_bounds r mw mh m Hr0 Hm Hw Hh) as (w & h & Hfit & H).
  cbn in E. rewrite Hfit in E.
  destruct (scaleImagePreservingRatio this image (Fin mw) (Fin mh)) as [dw dh].
  cbn in E. injection E as -> ->. by exists w, h.
Qed.

(** X1: for an image with positive intrinsic dimensions, a positive
    bounding box and a positive minimum size, both sides of the rectangle
    [scaleImagePreservingRatio] returns are at least the minimum size. *)
Theorem scaleImagePreservingRatio_min_size (this : WallpaperCreator)
    (image : Image) (maxWidth maxHeight : number) :
  validImage image ->
  Num.pos maxWidth -> Num.pos maxHeight ->
  Num.pos (minImageSize (autoFitSettings this)) ->
  let d := scaleImagePreservingRatio this image maxWidth maxHeight in
  Num.le (minImageSize (autoFitSettings this)) (dimWidth d)
  /\ Num.le (minImageSize (autoFitSettings this)) (dimHeight d).
Proof.
  intros Himg Hw Hh Hmin d.
  apply pos_Fin in Hw as (mw & -> & Hw). apply pos_Fin in Hh as (mh & -> & Hh).
  apply pos_Fin in Hmin as (m & Em & Hm).
  destruct (scaleImagePreservingRatio_bounds this image mw mh m Himg Em Hm
              Hw Hh) as (w & h & Ed & Hw' & Hh' & _).
  subst d. rewrite Ed, Em. cbn [dimWidth dimHeight].
  split; by apply le_Fin.
Qed.

Lemma scaleImagePreservingRatio_min_size_witness :
  let this0 := defaultCreator [] None in
  let image := pixels 0 1000 50 in
  let d := scaleImagePreservingRatio this0 image (Num.ofZ 935) (Num.ofZ 1040) in
  validImage image
  /\ Num.pos (Num.ofZ 935) /\ Num.pos (Num.ofZ 1040)
  /\ Num.pos (minImageSize (autoFitSettings this0))
  /\ Num.le (minImageSize (autoFitSettings this0)) (dimWidth d)
  /\ Num.le (minImageSize (autoFitSettings this0)) (dimHeight d).
Proof.
  intros this0 image d.
  assert (H1 : validImage image) by (split; reflexivity).
  assert (H2 : Num.pos (Num.ofZ 935)) by reflexivity.
  assert (H3 : Num.pos (Num.ofZ 1040)) by reflexivity.
  assert (H4 : Num.pos (minImageSize (autoFitSettings this0))) by reflexivity.
  pose proof (scaleImagePreservingRatio_min_size this0 image (Num.ofZ 935)
                (Num.ofZ 1040) H1 H2 H3 H4) as H.
  exact (conj H1 (conj H2 (conj H3 (conj H4 H)))).
Defined.

(** X2: under the same conditions the rectangle either fits the bounding
    box and touches it on one side, or one of its sides is exactly the
    minimum size (the floor of step 2 was applied). *)
Theorem scaleImagePreservingRatio_box (this : WallpaperCreator)
    (image : Image) (maxWidth maxHeight : number) :
  validImage image ->
  Num.pos maxWidth -> Num.pos maxHeight ->
  Num.pos (minImageSize (autoFitSettings this)) ->
  let d := scaleImagePreservingRatio this image maxWidth maxHeight in
  (Num.le (dimWidth d) maxWidth /\ Num.le (dimHeight d) maxHeight
   /\ (Num.eqn (dimWidth d) maxWidth \/ Num.eqn (dimHeight d) maxHeight))
  \/ Num.eqn (dimWidth d) (minImageSize (autoFitSettings this))
  \/ Num.eqn (dimHeight d) (minImageSize (autoFitSettings this)).
Proof.
  intros Himg Hw Hh Hmin d.
  apply pos_Fin in Hw as (mw & -> & Hw). apply pos_Fin in Hh as (mh & -> & Hh).
  apply pos_Fin in Hmin as (m & Em & Hm).
  destruct (scaleImagePreservingRatio_bounds this image mw mh m Himg Em Hm
              Hw Hh) as (w & h & Ed & _ & _ & Hfit).
  subst d. rewrite Ed, Em. cbn [dimWidth dimHeight].
  destruct Hfit as [(H1 & H2 & H3)|[H|H]].
  - left. split; [by apply le_Fin|]. split; [by apply le_Fin|exact H3].
  - right. by left.
  - right. by right.
Qed.

Lemma scaleImagePreservingRatio_box_witness :
  let this0 := defaultCreator [] None in
  let image := pixels 0 1600 900 in
  let d := scaleImagePreservingRatio this0 image (Num.ofZ 935) (Num.ofZ 1040) in
  validImage image
  /\ Num.pos (Num.ofZ 935) /\ Num.pos (Num.ofZ 1040)
  /\ Num.pos (minImageSize (autoFitSettings this0))
  /\ ((Num.le (dimWidth d) (Num.ofZ 935)
       /\ Num.le (dimHeight d) (Num.ofZ 1040)
       /\ (Num.eqn (dimWidth d) (Num.ofZ 935)
           \/ Num.eqn (dimHeight d) (Num.ofZ 1040)))
      \/ Num.eqn (dimWidth d) (minImageSize (autoFitSettings this0))
      \/ Num.eqn (dimHeight d) (minImageSize (autoFitSettings this0))).
Proof.
  intros this0 image d.
  assert (H1 : validImage image) by (split; reflexivity).
  assert (H2 : Num.pos (Num.ofZ 935)) by reflexivity.
  assert (H3 : Num.pos (Num.ofZ 1040)) by reflexivity.
  assert (H4 : Num.pos (minImageSize (autoFitSettings this0))) by reflexivity.
  pose proof (scaleImagePreservingRatio_box this0 image (Num.ofZ 935)
                (Num.ofZ 1040) H1 H2 H3 H4) as H.
  exact (conj H1 (conj H2 (conj H3 (conj H4 H)))).
Defined.

(** ** Classification and grouping by aspect ratio *)

Lemma categoryMatches_interval (r c t : Q) (n g : string) :
  categoryMatches (Fin r) (mkCategory n (Some (Fin c)) (Some (Fin t)) g) = true
  <-> (c - t <= r <= c + t)%Q.
Proof.
  unfold categoryMatches. cbn [ratio tolerance].
  change (Fin r - Fin c) with (Fin (r + - c)).
  unfold Num.abs, Num.leb. rewrite Qle_bool_iff, Qabs_Qle_condition.
  split; intros [H1 H2]; split; lra.
Qed.

(** Split on every catalog test at the ratio [r]. *)
Ltac categorize_cases r :=
  repeat match goal with
  | |- context [categoryMatches (Fin r) ?c] =>
      let E := fresh "E" in
      destruct (categoryMatches (Fin r) c) eqn:E;
      [apply categoryMatches_interval in E
      |apply not_true_iff_false in E; rewrite categoryMatches_interval in E]
  end.

(** X3: with the catalog of the constructor, the group of an image of
    whole pixel dimensions and ratio [r] is: portrait below 0.95; square
    between 0.95 and 1.05; landscape between 1.05 and 1.58, between 1.98
    and 2 and above 4.5; wide between 1.58 and 1.98; panoramic from 2 to
    3; ultrawide above 3 up to 4.5.  The first matching catalog entry
    wins, and the fallback fills the gaps of the catalog.  The bounds 2, 3
    and 4.5 are met exactly.  The bounds 0.95, 1.05, 1.58 and 1.98 are
    sums of a catalog ratio and a tolerance that are not binary fractions:
    the table leaves open the ratios within [10^-6] of them, where the
    outcome of the test depends on the rounding of these sums. *)
Theorem categorizeByAspectRatio_table (this : WallpaperCreator)
    (image : Image) (r : Q) :
  aspectRatioCategories this = defaultCategories ->
  pixelImage image ->
  calculateAspectRatio image = Fin r ->
  let g := group (categorizeByAspectRatio this image) in
  let e := Spec.roundingMargin in
  ((r <= (95 # 100) - e)%Q -> g = "portrait")
  /\ (((95 # 100) + e <= r <= (105 # 100) - e)%Q -> g = "square")
  /\ (((105 # 100) + e <= r <= (158 # 100) - e)%Q -> g = "landscape")
  /\ (((158 # 100) + e <= r <= (198 # 100) - e)%Q -> g = "wide")
  /\ (((198 # 100) + e <= r < 2)%Q -> g = "landscape")
  /\ ((2 <= r <= 3)%Q -> g = "panoramic")
  /\ ((3 < r <= 45 # 10)%Q -> g = "ultrawide")
  /\ ((45 # 10 < r)%Q -> g = "landscape").
Proof.
  intros Hcat _ Hr g e. subst g e. unfold Spec.roundingMargin.
  unfold categorizeByAspectRatio. rewrite Hcat, Hr.
  unfold defaultCategories. cbn [find].
  categorize_cases r; cbn [group]; unfold Num.gtb, Num.ltb;
    try qcase; qbool;
    (split; [|split; [|split; [|split; [|split; [|split; [|split]]]]]]);
    intros H; try reflexivity; exfalso; lra.
Qed.

Lemma categorizeByAspectRatio_table_witness :
  let this0 := defaultCreator [] None in
  let image := pixels 0 1600 900 in
  aspectRatioCategories this0 = defaultCategories
  /\ pixelImage image
  /\ calculateAspectRatio image = Fin (inject_Z 1600 / inject_Z 900)
  /\ group (categorizeByAspectRatio this0 image) = "wide".
Proof.
  intros this0 image.
  assert (H1 : aspectRatioCategories this0 = defaultCategories)
    by reflexivity.
  assert (H2 : pixelImage image) by (apply pixels_pixelImage; lia).
  assert (H3 : calculateAspectRatio image
               = Fin (inject_Z 1600 / inject_Z 900)) by reflexivity.
  destruct (categorizeByAspectRatio_table this0 image _ H1 H2 H3)
    as (_ & _ & _ & H & _).
  assert (H4 : ((158 # 100) + Spec.roundingMargin
                <= inject_Z 1600 / inject_Z 900
                <= (198 # 100) - Spec.roundingMargin)%Q).
  { split; vm_compute; discriminate. }
  exact (conj H1 (conj H2 (conj H3 (H H4)))).
Defined.

Section Grouping.

Variable this : WallpaperCreator.

Lemma pushToGroup_keys (key : string) (img : Image)
    (groups : list (string * list Image)) :
  fst <$> pushToGroup key img groups
  = if decide (key ∈ fst <$> groups) then fst <$> groups
    else (fst <$> groups) ++ [key].
Proof.
  induction groups as [|[k b] groups IH]; cbn.
  - rewrite decide_False; [done|]. apply not_elem_of_nil.
  - destruct (String.eqb_spec k key) as [->|Hne]; cbn.
    + rewrite decide_True; [done|]. apply elem_of_cons. by left.
    + rewrite IH. destruct (decide (key ∈ fst <$> groups)) as [Hin|Hnin].
      * rewrite decide_True; [done|]. apply elem_of_cons. by right.
      * rewrite decide_False; [done|].
        intros [E|Hin]%elem_of_cons; [by apply Hne|done].
Qed.

Lemma filter_snoc_key (k : string) (l : list Image) (img : Image) :
  filter (fun i => groupKey this i = k) (l ++ [img])
  = filter (fun i => groupKey this i = k) l
    ++ (if decide (groupKey this img = k) then [img] else []).
Proof.
  rewrite filter_app.
  destruct (decide (groupKey this img = k)) as [E|E].
  - by rewrite filter_cons_True.
  - by rewrite filter_cons_False.
Qed.

Lemma pushToGroup_buckets (l : list Image) (img : Image)
    (groups : list (string * list Image)) :
  NoDup (fst <$> groups) ->
  (groupKey this img ∉ fst <$> groups ->
   filter (fun i => groupKey this i = groupKey this img) l = []) ->
  bucketsOf this l groups ->
  bucketsOf this (l ++ [img]) (pushToGroup (groupKey this img) img groups).
Proof.
  induction groups as [|[k b] groups IH]; intros Hnd Hnew Hb; cbn.
  - constructor; [|constructor]. cbn. split; [done|].
    rewrite filter_snoc_key, decide_True by done.
    rewrite Hnew; [done|]. apply not_elem_of_nil.
  - cbn in Hnd. apply NoDup_cons in Hnd as [Hk Hnd].
    apply Forall_cons in Hb as [[Hb1 Hb2] Hb]. cbn in Hb1, Hb2.
    destruct (String.eqb_spec k (groupKey this img)) as [->|Hne].
    + constructor; cbn.
      * split; [by destruct b|].
        by rewrite filter_snoc_key, decide_True, <- Hb2.
      * apply Forall_forall. intros [k' b'] Hin.
        destruct (proj1 (Forall_forall _ _) Hb _ Hin) as [H1 H2]. cbn in *.
        split; [done|].
        rewrite filter_snoc_key, decide_False, app_nil_r; [done|].
        intros E. apply Hk. rewrite E.
        apply list_elem_of_fmap. by exists (k', b').
    + constructor; cbn.
      * split; [done|].
        rewrite filter_snoc_key, decide_False, app_nil_r; [done|].
        by intros E.
      * apply IH; try done.
        intros Hnin. apply Hnew.
        intros [E|Hin]%elem_of_cons; [by apply Hne|done].
Qed.


Lemma filter_none {A : Type} (P : A -> Prop) `{!forall a, Decision (P a)}
    (l : list A) :
  (forall a, a ∈ l -> ~ P a) -> filter P l = [].
Proof.
  induction l as [|a l IH]; intros Hl; [done|].
  rewrite filter_cons_False by (apply Hl; by left).
  apply IH. intros b Hb. apply Hl. by right.
Qed.

Lemma filter_all {A : Type} (P : A -> Prop) `{!forall a, Decision (P a)}
    (l : list A) :
  (forall a, a ∈ l -> P a) -> filter P l = l.
Proof.
  induction l as [|a l IH]; intros Hl; [done|].
  rewrite filter_cons_True by (apply Hl; by left).
  f_equal. apply IH. intros b Hb. apply Hl. by right.
Qed.

Lemma seeKeys_firstSeen (ks seen : list string) :
  fold_left seeKey ks seen
  = seen ++ filter (fun k => k ∉ seen) (firstSeen ks).
Proof.
  revert seen. induction ks as [|k ks IH]; intros seen;
    cbn [fold_left firstSeen].
  - by rewrite app_nil_r.
  - rewrite IH. unfold seeKey. destruct (decide (k ∈ seen)) as [Hin|Hnin].
    + rewrite filter_cons_False by (intros H; by apply H).
      f_equal. rewrite list_filter_filter. apply list_filter_iff.
      intros k'. split; [|tauto]. intros H. split; [done|].
      intros ->. by apply H.
    + rewrite filter_cons_True by done.
      rewrite <- app_assoc. cbn. do 2 f_equal.
      rewrite list_filter_filter. apply list_filter_iff.
      intros k'. rewrite elem_of_app, list_elem_of_singleton. tauto.
Qed.

Lemma NoDup_firstSeen (ks : list string) : NoDup (firstSeen ks).
Proof.
  induction ks as [|k ks IH]; cbn; [constructor|].
  apply NoDup_cons. split.
  - intros [H _]%list_elem_of_filter. by apply H.
  - by apply NoDup_filter.
Qed.

Lemma groupLoop_buckets (rest done : list Image)
    (groups : list (string * list Image)) :
  NoDup (fst <$> groups) ->
  bucketsOf this done groups ->
  (forall img, img ∈ done -> groupKey this img ∈ fst <$> groups) ->
  let groups' :=
    fold_left
      (fun groups image =>
         pushToGroup (group (categorizeByAspectRatio this image)) image groups)
      rest groups in
  bucketsOf this (done ++ rest) groups'
  /\ fst <$> groups' = fold_left seeKey (groupKey this <$> rest) (fst <$> groups).
Proof.
  revert done groups.
  induction rest as [|img rest IH]; intros done groups Hnd Hb Hcov; cbn.
  - by rewrite app_nil_r.
  - fold (groupKey this img).
    destruct (IH (done ++ [img]) (pushToGroup (groupKey this img) img groups))
      as [H1 H2].
    + rewrite pushToGroup_keys. destruct (decide _); [done|].
      apply NoDup_app. split; [done|]. split; [|apply NoDup_singleton].
      intros k Hk ->%list_elem_of_singleton. done.
    + apply pushToGroup_buckets; try done.
      intros Hnin. apply filter_none. intros i Hi E.
      apply Hnin. rewrite <- E. by apply Hcov.
    + intros i Hi. rewrite pushToGroup_keys.
      apply elem_of_app in Hi as [Hi| ->%list_elem_of_singleton].
      * destruct (decide _); [by apply Hcov|].
        apply elem_of_app. left. by apply Hcov.
      * destruct (decide _); [done|].
        apply elem_of_app. right. by apply list_elem_of_singleton.
    + rewrite <- app_assoc in H1. cbn in H1. split; [done|].
      rewrite H2, pushToGroup_keys. done.
Qed.

End Grouping.

(** X4: [groupImagesByAspectRatio] returns one bucket for every group key
    that occurs, the keys in the order of their first occurrence and
    without repetition; each bucket is not empty and holds exactly the
    images of that key, in input order. *)
Theorem groupImagesByAspectRatio_buckets (this : WallpaperCreator)
    (imgs : list Image) :
  let groups := groupImagesByAspectRatio this imgs in
  fst <$> groups = firstSeen (groupKey this <$> imgs)
  /\ NoDup (fst <$> groups)
  /\ forall k bucket,
       (k, bucket) ∈ groups ->
       bucket <> []
       /\ bucket = filter (fun img => groupKey this img = k) imgs.
Proof.
  intros groups.
  destruct (groupLoop_buckets this imgs [] []) as [H1 H2];
    [constructor|constructor|by intros ? ?%elem_of_nil|].
  change (bucketsOf this imgs groups) in H1.
  change (fst <$> groups = fold_left seeKey (groupKey this <$> imgs) [])
    in H2.
  assert (Hkeys : fst <$> groups = firstSeen (groupKey this <$> imgs)).
  { rewrite H2, seeKeys_firstSeen. cbn [app].
    apply filter_all. intros k _. apply not_elem_of_nil. }
  split; [done|]. split.
  - rewrite Hkeys. apply NoDup_firstSeen.
  - intros k bucket Hin.
    apply (proj1 (Forall_forall _ _) H1 (k, bucket) Hin).
Qed.

(** ** The ratio check and the order of the images *)

(** X5: the ratio check does not depend on the scale of the proposed
    rectangle where the scaling is exact: for a rectangle of whole
    numbers [w] by [h], multiplying both sides by the same whole factor
    [k], with products up to 2^53, leaves the verdict unchanged. *)
Theorem validateAspectRatioPreservation_scale (image : Image) (w h k : Z) :
  (0 < k)%Z -> (0 <= w)%Z -> (0 < h)%Z ->
  (k * w <= 9007199254740992)%Z -> (k * h <= 9007199254740992)%Z ->
  validateAspectRatioPreservation image
    (mkDimensions (Num.ofZ (k * w)) (Num.ofZ (k * h)))
  = validateAspectRatioPreservation image
      (mkDimensions (Num.ofZ w) (Num.ofZ h)).
Proof.
  intros Hk _ Hh _ _. unfold validateAspectRatioPreservation, Num.ofZ.
  cbn [dimWidth dimHeight].
  assert (Hk' : (0 < inject_Z k)%Q).
  { change 0%Q with (inject_Z 0). rewrite <- Zlt_Qlt. lia. }
  assert (Hh' : (0 < inject_Z h)%Q).
  { change 0%Q with (inject_Z 0). rewrite <- Zlt_Qlt. lia. }
  assert (Hkh : ~ inject_Z (k * h) == 0).
  { rewrite inject_Z_mult. nra. }
  rewrite !div_Fin by (done || lra).
  destruct (calculateAspectRatio image) as [r| | |]; try reflexivity.
  match goal with
  | |- (Num.abs (Fin r - Fin ?a) <=? _) = (Num.abs (Fin r - Fin ?b) <=? _) =>
      change (Fin r - Fin a) with (Fin (r + - a));
      change (Fin r - Fin b) with (Fin (r + - b));
      assert (E : a == b)
  end.
  { rewrite !inject_Z_mult. field. split; lra. }
  unfold Num.abs, Num.leb. by rewrite E.
Qed.

Lemma validateAspectRatioPreservation_scale_witness :
  let image := pixels 0 1600 900 in
  (0 < 3)%Z /\ (0 <= 16)%Z /\ (0 < 9)%Z
  /\ (3 * 16 <= 9007199254740992)%Z /\ (3 * 9 <= 9007199254740992)%Z
  /\ validateAspectRatioPreservation image
       (mkDimensions (Num.ofZ (3 * 16)) (Num.ofZ (3 * 9)))
     = validateAspectRatioPreservation image
         (mkDimensions (Num.ofZ 16) (Num.ofZ 9)).
Proof.
  intros image.
  assert (H1 : (0 < 3)%Z) by lia.
  assert (H2 : (0 <= 16)%Z) by lia.
  assert (H3 : (0 < 9)%Z) by lia.
  assert (H4 : (3 * 16 <= 9007199254740992)%Z) by lia.
  assert (H5 : (3 * 9 <= 9007199254740992)%Z) by lia.
  exact (conj H1 (conj H2 (conj H3 (conj H4 (conj H5
           (validateAspectRatioPreservation_scale image 16 9 3
              H1 H2 H3 H4 H5)))))).
Defined.

Lemma area_Fin (image : Image) :
  finiteImage image -> exists q, area image = Fin q.
Proof.
  intros [Hw Hh].
  apply isFin_Fin in Hw as [w Hw]. apply isFin_Fin in Hh as [h Hh].
  unfold area. rewrite Hw, Hh. by eexists.
Qed.

Lemma compareByArea_Fin (a b : Image) (qa qb : Q) :
  area a = Fin qa -> area b = Fin qb ->
  (compareByArea a b >? Fin 0) = Num.Qltb 0 (qb + - qa).
Proof. intros Ea Eb. unfold compareByArea. by rewrite Ea, Eb. Qed.

Lemma insertByArea_sorted (a : Image) (l : list Image) :
  finiteImage a -> Forall finiteImage l ->
  StronglySorted areaGe l -> StronglySorted areaGe (insertByArea a l).
Proof.
  intros Ha Hl Hs. induction l as [|b l IH]; cbn.
  - repeat constructor.
  - apply Forall_cons in Hl as [Hb Hl].
    apply StronglySorted_inv in Hs as [Hs Hbl].
    destruct (area_Fin a Ha) as [qa Ea]. destruct (area_Fin b Hb) as [qb Eb].
    rewrite (compareByArea_Fin a b qa qb Ea Eb).
    destruct (Num.Qltb 0 (qb + - qa)) eqn:E; qbool.
    + constructor; [by apply IH|].
      rewrite insertByArea_perm. constructor; [|done].
      unfold areaGe. rewrite Ea, Eb. apply le_Fin. lra.
    + constructor; [by constructor|].
      constructor.
      * unfold areaGe. rewrite Ea, Eb. apply le_Fin. lra.
      * eapply Forall_impl; [exact Hbl|]. intros c Hc. unfold areaGe in *.
        rewrite Ea. rewrite Eb in Hc.
        destruct (area c) as [qc| | |]; try done.
        apply le_Fin. apply le_Fin in Hc. lra.
Qed.

Lemma sortByArea_sorted (l : list Image) :
  Forall finiteImage l -> StronglySorted areaGe (sortByArea l).
Proof.
  induction 1 as [|a l Ha Hl IH]; cbn; [constructor|].
  apply insertByArea_sorted; try done.
  by rewrite sortByArea_perm.
Qed.

(** Insertion moves an image only past images of a larger area, so that
    the images of one area keep their order. *)
Lemma insertByArea_stable (c a : Image) (l : list Image) :
  finiteImage a -> Forall finiteImage l ->
  filter (sameArea c) (insertByArea a l) = filter (sameArea c) (a :: l).
Proof.
  intros Ha Hl. induction l as [|b l IH]; cbn [insertByArea]; [done|].
  apply Forall_cons in Hl as [Hb Hl].
  destruct (area_Fin a Ha) as [qa Ea]. destruct (area_Fin b Hb) as [qb Eb].
  rewrite (compareByArea_Fin a b qa qb Ea Eb).
  destruct (Num.Qltb 0 (qb + - qa)) eqn:E; qbool; [|done].
  destruct (decide (sameArea c b)) as [Pb|Pb].
  - assert (Pa : ~ sameArea c a).
    { clear IH. unfold sameArea in *. rewrite Ea. rewrite Eb in Pb.
      destruct (area c) as [qc| | |]; try done. cbn in *.
      intros Pa. qbool. lra. }
    rewrite (filter_cons_True _ b) by done.
    rewrite (IH Hl), (filter_cons_False _ a) by done.
    rewrite (filter_cons_False _ a) by done.
    by rewrite filter_cons_True.
  - rewrite (filter_cons_False _ b) by done.
    rewrite (IH Hl).
    destruct (decide (sameArea c a)) as [Pa|Pa].
    + rewrite !(filter_cons_True _ a) by done.
      by rewrite filter_cons_False.
    + rewrite !(filter_cons_False _ a) by done.
      by rewrite filter_cons_False.
Qed.

Lemma sortByArea_stable (c : Image) (l : list Image) :
  Forall finiteImage l ->
  filter (sameArea c) (sortByArea l) = filter (sameArea c) l.
Proof.
  induction 1 as [|a l Ha Hl IH]; cbn [sortByArea foldr]; [done|].
  fold (sortByArea l). rewrite insertByArea_stable; [|done|].
  - destruct (decide (sameArea c a)) as [Pa|Pa].
    + rewrite !(filter_cons_True _ a) by done. by rewrite IH.
    + by rewrite !(filter_cons_False _ a).
  - by rewrite sortByArea_perm.
Qed.

Lemma pixelImages_finite (l : list Image) :
  Forall pixelImage l -> Forall finiteImage l.
Proof. intros H. eapply Forall_impl; [exact H|]. apply pixelImage_finite. Qed.

(** X6: on images of whole pixel dimensions (up to 2^26, so that every
    area is a whole number below 2^53) the sort of the layouts returns a
    rearrangement of its input in which no image is followed by one of a
    larger area, and in which the images of one and the same area keep
    their input order. *)
Theorem sortByArea_sorted_stable (l : list Image) :
  Forall pixelImage l ->
  sortByArea l ≡ₚ l
  /\ StronglySorted areaGe (sortByArea l)
  /\ forall c, filter (sameArea c) (sortByArea l) = filter (sameArea c) l.
Proof.
  intros Hl%pixelImages_finite. split; [apply sortByArea_perm|].
  split; [by apply sortByArea_sorted|].
  intros c. by apply sortByArea_stable.
Qed.

Lemma sortByArea_sorted_stable_witness :
  let l := [pixels 0 100 100; pixels 1 200 100; pixels 2 50 200] in
  Forall pixelImage l
  /\ sortByArea l ≡ₚ l
  /\ StronglySorted areaGe (sortByArea l).
Proof.
  intros l.
  assert (H1 : Forall pixelImage l).
  { repeat (constructor; [apply pixels_pixelImage; lia|]). constructor. }
  destruct (sortByArea_sorted_stable l H1) as (H2 & H3 & _).
  exact (conj H1 (conj H2 H3)).
Defined.

(** X7: on images of whole pixel dimensions (up to 2^26) the flow,
    masonry and organic layouts place the images in the order of
    [sortedImages]: with [prioritizeLargeImages] set, in non-increasing
    order of area; otherwise in input order. *)
Theorem layouts_placement_order (this : WallpaperCreator)
    (random : nat -> Q) (imgs : list Image) :
  Forall pixelImage imgs ->
  let flow := imageData <$> applyNaturalFlowLayout this imgs in
  let masonry := imageData <$> applyMasonryLayout this imgs in
  let organic := imageData <$> applyOrganicStackLayout this random imgs in
  flow = masonry /\ masonry = organic
  /\ (prioritizeLargeImages (autoFitSettings this) = true ->
      StronglySorted areaGe flow)
  /\ (prioritizeLargeImages (autoFitSettings this) = false -> flow = imgs).
Proof.
  intros Himgs%pixelImages_finite flow masonry organic.
  subst flow masonry organic.
  unfold applyOrganicStackLayout.
  rewrite organicLoop_imageData, applyNaturalFlowLayout_imageData,
    applyMasonryLayout_imageData.
  split; [done|]. split; [done|]. unfold sortedImages.
  split; intros ->; [by apply sortByArea_sorted|done].
Qed.

Lemma layouts_placement_order_witness :
  let l := [pixels 0 100 100; pixels 1 200 100; pixels 2 50 200] in
  let this0 := defaultCreator l None in
  Forall pixelImage l
  /\ imageData <$> applyNaturalFlowLayout this0 l
     = imageData <$> applyMasonryLayout this0 l.
Proof.
  intros l this0.
  assert (H1 : Forall pixelImage l).
  { repeat (constructor; [apply pixels_pixelImage; lia|]). constructor. }
  destruct (layouts_placement_order this0 noJitter l H1) as (H2 & _).
  exact (conj H1 H2).
Defined.

(** ** The flow layout: shape, ratio and bounds of its rectangles *)

Lemma elem_of_concat {A : Type} (a : A) (ls : list (list A)) :
  a ∈ concat ls <-> exists l, a ∈ l /\ l ∈ ls.
Proof.
  rewrite list_elem_of_In, in_concat. split.
  - intros (l & Hl & Ha). exists l. by rewrite !list_elem_of_In.
  - intros (l & Ha & Hl). exists l. by rewrite <- !list_elem_of_In.
Qed.

Section FlowInvariants.

Variable this : WallpaperCreator.
Hypothesis Hwf : wellFormed this.
Hypothesis Hsp : Num.le (Fin 0) (spacing (autoFitSettings this)).

Lemma min_Fin (a b : Q) :
  exists t, Num.min (Fin a) (Fin b) = Fin t
            /\ (t <= a)%Q /\ (t <= b)%Q /\ (t == a \/ t == b).
Proof.
  unfold Num.min. rewrite ltb_Fin.
  destruct (Num.Qltb b a) eqn:E; qbool; eexists; (split; [done|]).
  - split; [lra|]. split; [lra|]. right. lra.
  - split; [lra|]. split; [lra|]. left. lra.
Qed.

Lemma naturalItem_Fin (item : RowItem) :
  naturalItem this item ->
  exists a b r,
    naturalWidth item = Fin a /\ naturalHeight item = Fin b
    /\ calculateAspectRatio (image item) = Fin r
    /\ (0 < r)%Q /\ a == b * r
    /\ (Num.pos (flowAvailableWidth this) -> (0 < a)%Q).
Proof.
  intros (Hv & Hr & Hw & Hh).
  destruct (calculateAspectRatio_valid _ Hv) as (r & Er & Hr0).
  destruct Hv as [Hvw _]. apply pos_Fin in Hvw as (w & Ew & Hw0).
  destruct Hwf as (_ & Hm & _ & Hcw & _).
  assert (Haw : Num.isFin ((flowAvailableWidth this) * Fin (3 # 10))) by (unfold flowAvailableWidth; auto 10 with finite).
  apply isFin_Fin in Haw as [u Eu]. fold (flowAvailableWidth this) in Hw. rewrite Ew, Eu in Hw.
  destruct (min_Fin w u) as (a & Ea & _ & _ & Ha). rewrite Ea in Hw.
  rewrite Hw, Hr, Er, div_Fin in Hh by lra.
  exists a, (a / r)%Q, r.
  split; [done|]. split; [done|]. split; [done|]. split; [done|].
  split; [field; lra|].
  intros Hpos. apply pos_Fin in Hpos as (q & Eq & Hq). rewrite Eq in Eu.
  injection Eu as <-. destruct Ha as [Ha|Ha]; rewrite Ha; lra.
Qed.

Lemma belowMargin_step (y h : number) :
  belowMargin this y -> nonNegative h ->
  belowMargin this (y + (h + spacing (autoFitSettings this))).
Proof.
  intros [Hy1 Hy2] [Hh1 Hh2].
  destruct Hwf as (Hs & Hm & _).
  apply isFin_Fin in Hs as [sp Es]. apply isFin_Fin in Hm as [m Em].
  apply isFin_Fin in Hy1 as [qy ->]. apply isFin_Fin in Hh1 as [qh ->].
  unfold belowMargin. rewrite Es, Em in *.
  change (Fin qy + (Fin qh + Fin sp)) with (Fin (qy + (qh + sp))).
  apply le_Fin in Hy2, Hh2, Hsp. split; [done|]. apply le_Fin. lra.
Qed.

Lemma nonNegative_max (h v : number) :
  nonNegative h -> Num.isFin v -> nonNegative (Num.max h v).
Proof.
  intros [Hh1 Hh2] Hv.
  apply isFin_Fin in Hh1 as [qh ->]. apply isFin_Fin in Hv as [qv ->].
  destruct (max_Fin qh qv) as (t & -> & Ht & _).
  apply le_Fin in Hh2. split; [done|]. apply le_Fin. lra.
Qed.

Lemma flowStep_invariant (st : FlowState) (img : Image)
    (rows : list (list RowItem * number)) :
  validImage img ->
  flowInvariant this st rows ->
  exists rows', flowInvariant this (flowStep this (flowAvailableWidth this) st img) rows'.
Proof.
  intros Hv ([Hps Hne] & Hrows & Hopen & HY & HH).
  set (item := {| image := img;
                  aspectRatio := calculateAspectRatio img;
                  naturalWidth :=
                    Num.min (originalWidth img) ((flowAvailableWidth this) * Fin (3 # 10));
                  naturalHeight :=
                    Num.min (originalWidth img) ((flowAvailableWidth this) * Fin (3 # 10))
                    / calculateAspectRatio img;
                  itemX := Fin 0; itemY := Fin 0 |}).
  assert (Hitem : naturalItem this item) by (split; [done|by repeat split]).
  destruct (naturalItem_Fin item Hitem) as (a & b & r & Ea & Eb & _).
  cbn in Ea, Eb.
  unfold flowStep. fold (flowAvailableWidth this).
  destruct (_ && _) eqn:Hbreak; cbn.
  - exists (rows ++ [(rowImages st, currentRowY st)]).
    split; [split|split; [|split; [|split]]]; cbn.
    + rewrite finalizeNaturalRow_spec, Hps, fmap_app, concat_app. cbn.
      by rewrite app_nil_r.
    + apply Forall_app. split; [done|]. constructor; [|done]. cbn.
      apply andb_true_iff in Hbreak as [_ Hlen].
      apply Nat.ltb_lt in Hlen. intros E. rewrite E in Hlen. cbn in Hlen. lia.
    + apply Forall_app. split; [done|]. constructor; [by split|constructor].
    + constructor; [split; [done|by repeat split]|constructor].
    + by apply belowMargin_step.
    + rewrite Eb. apply nonNegative_max; [|done]. split; [done|].
      apply le_Fin. lra.
  - exists rows.
    split; [split|split; [|split; [|split]]]; cbn; try done.
    + apply Forall_app. split; [done|].
      constructor; [split; [done|by repeat split]|constructor].
    + rewrite Eb. by apply nonNegative_max.
Qed.

Lemma flowLoop_invariant (l : list Image) (st : FlowState)
    (rows : list (list RowItem * number)) :
  Forall validImage l ->
  flowInvariant this st rows ->
  exists rows', flowInvariant this (fold_left (flowStep this (flowAvailableWidth this)) l st) rows'.
Proof.
  revert st rows. induction l as [|img l IH]; intros st rows Hl Hinv; cbn.
  - by exists rows.
  - apply Forall_cons in Hl as [Hv Hl].
    destruct (flowStep_invariant st img rows Hv Hinv) as [rows' Hinv'].
    by apply (IH _ rows').
Qed.

(** Every rectangle of the flow layout is the rectangle of a natural item
    in a closed row. *)
Lemma applyNaturalFlowLayout_shape (imgs : list Image) (pos : Position) :
  Forall validImage imgs ->
  pos ∈ applyNaturalFlowLayout this imgs ->
  exists row rowY k item,
    row !! k = Some item
    /\ Forall (naturalItem this) row
    /\ belowMargin this rowY
    /\ pos = Spec.rowPlacement this (Spec.rowFactor this row (flowAvailableWidth this)) rowY row k
               item.
Proof.
  intros Himgs Hpos.
  assert (Hrows : exists rows,
             applyNaturalFlowLayout this imgs
             = concat ((fun r => Spec.finalizedRow this (flowAvailableWidth this) (fst r) (snd r))
                         <$> rows)
             /\ Forall (fun r => Forall (naturalItem this) (fst r)
                                 /\ belowMargin this (snd r)) rows).
  { unfold applyNaturalFlowLayout. fold (flowAvailableWidth this).
    match goal with
    | |- context [fold_left ?f ?l ?s] =>
        destruct (flowLoop_invariant l s []) as [rows Hinv];
          [by apply sortedImages_valid| |set (st := fold_left f l s) in *]
    end.
    { destruct Hwf as (_ & Hm & _).
      split; [by split|]. split; [constructor|]. split; [constructor|].
      split; [split; [done|]|split; [done|]].
      - apply isFin_Fin in Hm as [m ->]. apply le_Fin. lra.
      - apply le_Fin. lra. }
    destruct Hinv as ([Hps _] & Hrows & Hopen & HY & _).
    destruct (0 <? length (rowImages st))%nat.
    - exists (rows ++ [(rowImages st, currentRowY st)]). split.
      + rewrite finalizeNaturalRow_spec, Hps, fmap_app, concat_app. cbn.
        by rewrite app_nil_r.
      + apply Forall_app. split; [done|]. constructor; [by split|constructor].
    - by exists rows. }
  destruct Hrows as (rows & E & Hrows). rewrite E in Hpos.
  apply elem_of_concat in Hpos as (ps & Hpos & Hps).
  apply list_elem_of_fmap in Hps as ([row rowY] & -> & Hr).
  destruct (proj1 (Forall_forall _ _) Hrows _ Hr) as [Hnat HY]. cbn in *.
  unfold Spec.finalizedRow in Hpos.
  apply list_elem_of_lookup in Hpos as [k Hk].
  rewrite list_lookup_imap in Hk.
  destruct (row !! k) as [item|] eqn:Hitem; [|done]. injection Hk as <-.
  by exists row, rowY, k, item.
Qed.

End FlowInvariants.

Lemma max_Fin_cases (a b : Q) :
  exists t, Num.max (Fin a) (Fin b) = Fin t
            /\ (a <= t)%Q /\ ((a < t)%Q -> t = b).
Proof.
  unfold Num.max. rewrite ltb_Fin.
  destruct (Num.Qltb a b) eqn:E; qbool; eexists; (split; [done|]).
  - split; [lra|done].
  - split; [lra|]. intros H. lra.
Qed.

Lemma factor_cases (d : Q) (v : number) :
  (0 < d)%Q ->
  Num.max (Fin d) (Num.min (Fin 1) v) = NaN
  \/ exists s, Num.max (Fin d) (Num.min (Fin 1) v) = Fin s /\ (d <= s)%Q.
Proof.
  intros Hd. destruct v as [q| | |].
  - right. destruct (min_Fin 1 q) as (t & -> & _).
    destruct (max_Fin d t) as (s & -> & Hs & _). by exists s.
  - right. change (Num.min (Fin 1) PInf) with (Fin 1).
    destruct (max_Fin d 1) as (s & -> & Hs & _). by exists s.
  - right. exists d. split; [reflexivity|lra].
  - by left.
Qed.

Section FlowResults.

Variable this : WallpaperCreator.
Hypothesis Hwf : wellFormed this.
Hypothesis Hsp : Num.le (Fin 0) (spacing (autoFitSettings this)).
Hypothesis Hmsd : Num.pos (maxScaleDown (autoFitSettings this)).

Lemma rowLeftEdge_Fin (s : Q) (before : list RowItem) :
  Forall (naturalItem this) before ->
  exists e,
    Spec.rowLeftEdge this (Fin s) before = Fin e
    /\ (Num.pos (flowAvailableWidth this) -> (0 <= s)%Q ->
        Num.le (margin (autoFitSettings this)) (Fin e)).
Proof.
  intros Hb. unfold Spec.rowLeftEdge.
  pose proof Hwf as (Hs & Hm & _).
  apply isFin_Fin in Hs as [sp Es]. apply isFin_Fin in Hm as [m Em].
  rewrite Es, Em in *. apply le_Fin in Hsp.
  assert (Hgen : forall e0, exists e,
             fold_left (fun edge item => edge + (naturalWidth item * Fin s + Fin sp))
               before (Fin e0) = Fin e
             /\ (Num.pos (flowAvailableWidth this) -> (0 <= s)%Q -> (e0 <= e)%Q)).
  { induction Hb as [|item before Hitem Hb IH]; intros e0; cbn.
    - exists e0. split; [done|]. intros; lra.
    - destruct (naturalItem_Fin this Hwf item Hitem)
        as (a & _ & _ & Ea & _ & _ & _ & _ & Ha). fold (flowAvailableWidth this) in Ha.
      rewrite Ea.
      change (Fin e0 + (Fin a * Fin s + Fin sp)) with (Fin (e0 + (a * s + sp))).
      destruct (IH (e0 + (a * s + sp))%Q) as (e & -> & He).
      exists e. split; [done|]. intros Hpos Hs0.
      specialize (He Hpos Hs0). specialize (Ha Hpos). nra. }
  destruct (Hgen m) as (e & -> & He). exists e. split; [done|].
  intros Hpos Hs0. apply le_Fin. by apply He.
Qed.

Lemma rowFactor_cases (row : list RowItem) :
  Spec.rowFactor this row (flowAvailableWidth this) = NaN
  \/ exists s, Spec.rowFactor this row (flowAvailableWidth this) = Fin s /\ (0 < s)%Q.
Proof.
  apply pos_Fin in Hmsd as (d & Ed & Hd).
  unfold Spec.rowFactor. rewrite Ed.
  match goal with |- context [Num.min (Fin 1) ?v] =>
    destruct (factor_cases d v Hd) as [H|(s & H & Hs)] end.
  - by left.
  - right. exists s. split; [done|lra].
Qed.

(** Every rectangle of the flow layout whose sides are both above the
    minimum size has exactly the ratio of its image. *)
Lemma flow_unfloored_exact (imgs : list Image) (pos : Position) :
  Forall validImage imgs ->
  pos ∈ applyNaturalFlowLayout this imgs ->
  Num.lt (minImageSize (autoFitSettings this)) (width pos) ->
  Num.lt (minImageSize (autoFitSettings this)) (height pos) ->
  validImage (imageData pos) /\ finitePosition pos /\ ratioExact pos.
Proof.
  intros Himgs Hpos Hw Hh.
  destruct (applyNaturalFlowLayout_shape this Hwf Hsp imgs pos Himgs Hpos)
    as (row & rowY & k & item & Hk & Hrow & HY & ->).
  fold (flowAvailableWidth this) in Hw, Hh |- *.
  pose proof (Forall_lookup_1 _ _ _ _ Hrow Hk) as Hitem.
  destruct (naturalItem_Fin this Hwf item Hitem)
    as (a & b & r & Ea & Eb & Er & Hr & Hab & _).
  destruct Hitem as (Hv & _).
  pose proof Hwf as (_ & _ & Hmin & _).
  apply pos_Fin in Hmin as (m & Em & Hm).
  unfold finitePosition, ratioExact.
  cbn [Spec.rowPlacement imageData x y width height] in *.
  rewrite Ea, Eb, Em, Er in *.
  destruct (rowFactor_cases row) as [Es|(s & Es & Hs)]; rewrite Es in *.
  { exfalso. by vm_compute in Hw. }
  change (Fin a * Fin s) with (Fin (a * s)) in *.
  change (Fin b * Fin s) with (Fin (b * s)) in *.
  destruct (max_Fin_cases m (a * s)) as (w & Ew & Hw1 & Hw2).
  destruct (max_Fin_cases m (b * s)) as (h & Eh & Hh1 & Hh2).
  rewrite Ew, Eh in *. apply lt_Fin in Hw, Hh.
  specialize (Hw2 Hw). specialize (Hh2 Hh). subst w h.
  split; [done|]. split.
  - split; [|split; [by destruct HY|split; cbn; lra]].
    destruct (rowLeftEdge_Fin s (take k row)) as (e & -> & _);
      [by apply Forall_take|done].
  - assert (0 < b)%Q by nra.
    rewrite div_Fin by nra. cbn. rewrite Hab. field. split; lra.
Qed.


Lemma sumOfNaturalWidths_Fin (row : list RowItem) (t0 : Q) :
  Forall (naturalItem this) row ->
  exists t,
    fold_left (fun sum item => sum + naturalWidth item) row (Fin t0) = Fin t
    /\ (Num.pos (flowAvailableWidth this) -> (t0 <= t)%Q /\ (row <> [] -> (t0 < t)%Q)).
Proof.
  intros Hrow. revert t0.
  induction Hrow as [|item row Hitem Hrow IH]; intros t0; cbn.
  - exists t0. split; [done|]. intros _. split; [lra|done].
  - destruct (naturalItem_Fin this Hwf item Hitem)
      as (a & _ & _ & Ea & _ & _ & _ & _ & Ha). fold (flowAvailableWidth this) in Ha.
    rewrite Ea. change (Fin t0 + Fin a) with (Fin (t0 + a)).
    destruct (IH (t0 + a)%Q) as (t & -> & Ht).
    exists t. split; [done|]. intros Hpos.
    destruct (Ht Hpos) as [Ht1 _]. specialize (Ha Hpos).
    split; [lra|intros _; lra].
Qed.

Lemma rowFactor_Fin (row : list RowItem) :
  Forall (naturalItem this) row -> row <> [] -> Num.pos (flowAvailableWidth this) ->
  exists s, Spec.rowFactor this row (flowAvailableWidth this) = Fin s /\ (0 < s)%Q.
Proof.
  intros Hrow Hne Hpos.
  destruct (rowFactor_cases row) as [E|H]; [|done]. exfalso.
  revert E. unfold Spec.rowFactor.
  destruct (sumOfNaturalWidths_Fin row 0 Hrow) as (t & -> & Ht).
  destruct (Ht Hpos) as [_ Ht0]. specialize (Ht0 Hne).
  pose proof Hwf as (Hs & _).
  apply isFin_Fin in Hs as [sp ->].
  pose proof Hpos as Haw. apply pos_Fin in Haw as (u & -> & _).
  apply pos_Fin in Hmsd as (d & -> & Hd).
  change (Fin u - (Num.ofNat (length row) - Fin 1) * Fin sp)
    with (Fin (u + - ((inject_Z (Z.of_nat (length row)) + - 1) * sp))).
  rewrite div_Fin by lra.
  match goal with |- context [Num.min (Fin 1) (Fin ?q)] =>
    destruct (min_Fin 1 q) as (v & -> & _) end.
  destruct (max_Fin d v) as (s & -> & _). done.
Qed.

Lemma flow_bounds (imgs : list Image) (pos : Position) :
  Forall validImage imgs ->
  Num.pos (flowAvailableWidth this) ->
  pos ∈ applyNaturalFlowLayout this imgs ->
  finitePosition pos
  /\ Num.le (margin (autoFitSettings this)) (x pos)
  /\ Num.le (margin (autoFitSettings this)) (y pos)
  /\ Num.le (minImageSize (autoFitSettings this)) (width pos)
  /\ Num.le (minImageSize (autoFitSettings this)) (height pos).
Proof.
  intros Himgs Haw Hpos.
  destruct (applyNaturalFlowLayout_shape this Hwf Hsp imgs pos Himgs Hpos)
    as (row & rowY & k & item & Hk & Hrow & HY & ->).
  fold (flowAvailableWidth this).
  pose proof (Forall_lookup_1 _ _ _ _ Hrow Hk) as Hitem.
  destruct (naturalItem_Fin this Hwf item Hitem)
    as (a & b & r & Ea & Eb & Er & Hr & Hab & Ha).
  fold (flowAvailableWidth this) in Ha. specialize (Ha Haw).
  destruct (rowFactor_Fin row Hrow) as (s & Es & Hs); [|done|].
  { intros ->. done. }
  pose proof Hwf as (_ & _ & Hmin & _).
  apply pos_Fin in Hmin as (m & Em & Hm).
  destruct (rowLeftEdge_Fin s (take k row)) as (e & Ee & He);
    [by apply Forall_take|].
  unfold finitePosition.
  cbn [Spec.rowPlacement imageData x y width height].
  rewrite Es, Ee, Ea, Eb, Em.
  change (Fin a * Fin s) with (Fin (a * s)).
  change (Fin b * Fin s) with (Fin (b * s)).
  destruct (max_Fin_cases m (a * s)) as (w & -> & Hw1 & _).
  destruct (max_Fin_cases m (b * s)) as (h & -> & Hh1 & _).
  destruct HY as [HY1 HY2].
  split; [split; [done|split; [done|split; cbn; lra]]|].
  split; [apply He; [done|lra]|].
  split; [done|]. split; by apply le_Fin.
Qed.

End FlowResults.

(** X8: in the output of the flow layout every rectangle whose width and
    height are both above [minImageSize] (the per-axis floor did not
    apply) has exactly the ratio of its image, and passes the ratio
    check. *)
Theorem applyNaturalFlowLayout_unfloored_valid (this : WallpaperCreator)
    (imgs : list Image) (pos : Position) :
  wellFormed this ->
  Num.le (Fin 0) (spacing (autoFitSettings this)) ->
  Num.pos (maxScaleDown (autoFitSettings this)) ->
  Forall validImage imgs ->
  pos ∈ applyNaturalFlowLayout this imgs ->
  Num.lt (minImageSize (autoFitSettings this)) (width pos) ->
  Num.lt (minImageSize (autoFitSettings this)) (height pos) ->
  ratioExact pos /\ validatePosition pos = true.
Proof.
  intros Hwf Hsp Hmsd Himgs Hpos Hw Hh.
  destruct (flow_unfloored_exact this Hwf Hsp Hmsd imgs pos Himgs Hpos Hw Hh)
    as (Hv & (_ & _ & Hpw & Hph) & Hexact).
  split; [done|].
  apply validatePosition_exact; auto using pos_isFin.
Qed.

Lemma applyNaturalFlowLayout_unfloored_valid_witness :
  let this0 := defaultCreator landscapeAndPortrait None in
  wellFormed this0
  /\ Num.le (Fin 0) (spacing (autoFitSettings this0))
  /\ Num.pos (maxScaleDown (autoFitSettings this0))
  /\ Forall validImage landscapeAndPortrait
  /\ Forall (fun pos => ratioExact pos /\ validatePosition pos = true)
       (applyNaturalFlowLayout this0 landscapeAndPortrait).
Proof.
  intros this0.
  assert (H1 : wellFormed this0) by (vm_compute; done).
  assert (H2 : Num.le (Fin 0) (spacing (autoFitSettings this0)))
    by reflexivity.
  assert (H3 : Num.pos (maxScaleDown (autoFitSettings this0)))
    by reflexivity.
  assert (H4 : Forall validImage landscapeAndPortrait).
  { repeat constructor. }
  assert (H5 : Forall
                 (fun pos =>
                    Num.lt (minImageSize (autoFitSettings this0)) (width pos)
                    /\ Num.lt (minImageSize (autoFitSettings this0))
                         (height pos))
                 (applyNaturalFlowLayout this0 landscapeAndPortrait)).
  { assert (Hb : forallb
                   (fun pos =>
                      (minImageSize (autoFitSettings this0) <? width pos)
                      && (minImageSize (autoFitSettings this0) <? height pos))
                   (applyNaturalFlowLayout this0 landscapeAndPortrait)
                 = true) by (vm_compute; reflexivity).
    apply Forall_forallb in Hb.
    eapply Forall_impl; [exact Hb|].
    intros pos Hpos. by apply andb_true_iff in Hpos. }
  assert (H : Forall (fun pos => ratioExact pos /\ validatePosition pos = true)
                (applyNaturalFlowLayout this0 landscapeAndPortrait)).
  { apply Forall_forall. intros pos Hpos.
    destruct (proj1 (Forall_forall _ _) H5 pos Hpos) as [Hw Hh].
    exact (applyNaturalFlowLayout_unfloored_valid this0 landscapeAndPortrait
             pos H1 H2 H3 H4 Hpos Hw Hh). }
  exact (conj H1 (conj H2 (conj H3 (conj H4 H)))).
Defined.

(** X9: when the canvas is wider than the two margins, every rectangle of
    the flow layout has finite coordinates, starts at or after the left
    and the top margin, and is at least [minImageSize] wide and high. *)
Theorem applyNaturalFlowLayout_bounds (this : WallpaperCreator)
    (imgs : list Image) (pos : Position) :
  wellFormed this ->
  Num.le (Fin 0) (spacing (autoFitSettings this)) ->
  Num.pos (maxScaleDown (autoFitSettings this)) ->
  Num.pos (flowAvailableWidth this) ->
  Forall validImage imgs ->
  pos ∈ applyNaturalFlowLayout this imgs ->
  finitePosition pos
  /\ Num.le (margin (autoFitSettings this)) (x pos)
  /\ Num.le (margin (autoFitSettings this)) (y pos)
  /\ Num.le (minImageSize (autoFitSettings this)) (width pos)
  /\ Num.le (minImageSize (autoFitSettings this)) (height pos).
Proof.
  intros Hwf Hsp Hmsd Haw Himgs Hpos.
  by apply (flow_bounds this Hwf Hsp Hmsd imgs pos).
Qed.

Lemma applyNaturalFlowLayout_bounds_witness :
  let this0 := defaultCreator landscapeAndPortrait None in
  wellFormed this0
  /\ Num.le (Fin 0) (spacing (autoFitSettings this0))
  /\ Num.pos (maxScaleDown (autoFitSettings this0))
  /\ Num.pos (flowAvailableWidth this0)
  /\ Forall validImage landscapeAndPortrait
  /\ Forall finitePosition (applyNaturalFlowLayout this0 landscapeAndPortrait).
Proof.
  intros this0.
  assert (H1 : wellFormed this0) by (vm_compute; done).
  assert (H2 : Num.le (Fin 0) (spacing (autoFitSettings this0)))
    by reflexivity.
  assert (H3 : Num.pos (maxScaleDown (autoFitSettings this0)))
    by reflexivity.
  assert (H4 : Num.pos (flowAvailableWidth this0)) by reflexivity.
  assert (H5 : Forall validImage landscapeAndPortrait).
  { repeat constructor. }
  assert (H : Forall finitePosition
                (applyNaturalFlowLayout this0 landscapeAndPortrait)).
  { apply Forall_forall. intros pos Hpos.
    exact (proj1 (applyNaturalFlowLayout_bounds this0 landscapeAndPortrait
                    pos H1 H2 H3 H4 H5 Hpos)). }
  exact (conj H1 (conj H2 (conj H3 (conj H4 (conj H5 H))))).
Defined.

(** ** The aspect-grouped layout *)

Section Grouped.

Variable this : WallpaperCreator.

(** Every rectangle the loop over the groups adds is a rectangle of the
    flow layout of one bucket, moved vertically. *)
Lemma groupedLoop_positions (groups : list (string * list Image))
    (st : number * list Position) (pos : Position) :
  pos ∈ snd (fold_left (groupedStep this) groups st) ->
  pos ∈ snd st
  \/ exists g p,
       g ∈ groups
       /\ p ∈ applyNaturalFlowLayout this (snd g)
       /\ imageData pos = imageData p /\ x pos = x p
       /\ width pos = width p /\ height pos = height p.
Proof.
  revert st. induction groups as [|g groups IH]; intros [cy ps] Hpos;
    cbn in Hpos; [by left|].
  apply IH in Hpos as [Hpos|(g' & p & Hg & Hp)].
  - cbn in Hpos.
    apply elem_of_app in Hpos as [Hpos|Hpos]; [by left|]. right.
    apply list_elem_of_fmap in Hpos as (p & -> & Hp).
    exists g, p. split; [by left|]. by split.
  - right. exists g', p. split; [by right|done].
Qed.

Lemma applyAspectGroupedLayout_positions (imgs : list Image)
    (pos : Position) :
  Forall validImage imgs ->
  pos ∈ applyAspectGroupedLayout this imgs ->
  exists bucket p,
    Forall validImage bucket
    /\ p ∈ applyNaturalFlowLayout this bucket
    /\ imageData pos = imageData p /\ x pos = x p
    /\ width pos = width p /\ height pos = height p.
Proof.
  intros Himgs Hpos. unfold applyAspectGroupedLayout in Hpos.
  apply groupedLoop_positions in Hpos as [Hpos|(g & p & Hg & Hp)];
    [by apply elem_of_nil in Hpos|].
  exists (snd g), p. split; [|done].
  destruct (groupLoop_buckets this imgs [] []) as [Hb _];
    [constructor|constructor|by intros ? ?%elem_of_nil|].
  cbn in Hb. fold (groupImagesByAspectRatio this imgs) in Hb.
  destruct (proj1 (Forall_forall _ _) Hb g Hg) as [_ ->].
  apply Forall_forall. intros img [_ Himg]%list_elem_of_filter.
  by apply (proj1 (Forall_forall _ _) Himgs).
Qed.

End Grouped.

(** X10: the aspect-grouped layout inherits the guarantee of the flow
    layout: every rectangle it returns whose width and height are both
    above [minImageSize] passes the ratio check. *)
Theorem applyAspectGroupedLayout_unfloored_valid (this : WallpaperCreator)
    (imgs : list Image) (pos : Position) :
  wellFormed this ->
  Num.le (Fin 0) (spacing (autoFitSettings this)) ->
  Num.pos (maxScaleDown (autoFitSettings this)) ->
  Forall validImage imgs ->
  pos ∈ applyAspectGroupedLayout this imgs ->
  Num.lt (minImageSize (autoFitSettings this)) (width pos) ->
  Num.lt (minImageSize (autoFitSettings this)) (height pos) ->
  validatePosition pos = true.
Proof.
  intros Hwf Hsp Hmsd Himgs Hpos Hw Hh.
  destruct (applyAspectGroupedLayout_positions this imgs pos Himgs Hpos)
    as (bucket & p & Hbucket & Hp & Ei & _ & Ew & Eh).
  rewrite Ew in Hw. rewrite Eh in Hh.
  destruct (flow_unfloored_exact this Hwf Hsp Hmsd bucket p Hbucket Hp Hw Hh)
    as (Hv & (_ & _ & Hpw & Hph) & Hexact).
  unfold validatePosition. rewrite Ei, Ew, Eh.
  apply validatePosition_exact; auto using pos_isFin.
Qed.

Lemma applyAspectGroupedLayout_unfloored_valid_witness :
  let this0 := defaultCreator landscapeAndPortrait None in
  wellFormed this0
  /\ Num.le (Fin 0) (spacing (autoFitSettings this0))
  /\ Num.pos (maxScaleDown (autoFitSettings this0))
  /\ Forall validImage landscapeAndPortrait
  /\ Forall (fun pos => validatePosition pos = true)
       (applyAspectGroupedLayout this0 landscapeAndPortrait).
Proof.
  intros this0.
  assert (H1 : wellFormed this0) by (vm_compute; done).
  assert (H2 : Num.le (Fin 0) (spacing (autoFitSettings this0)))
    by reflexivity.
  assert (H3 : Num.pos (maxScaleDown (autoFitSettings this0)))
    by reflexivity.
  assert (H4 : Forall validImage landscapeAndPortrait).
  { repeat constructor. }
  assert (H5 : Forall
                 (fun pos =>
                    Num.lt (minImageSize (autoFitSettings this0)) (width pos)
                    /\ Num.lt (minImageSize (autoFitSettings this0))
                         (height pos))
                 (applyAspectGroupedLayout this0 landscapeAndPortrait)).
  { assert (Hb : forallb
                   (fun pos =>
                      (minImageSize (autoFitSettings this0) <? width pos)
                      && (minImageSize (autoFitSettings this0) <? height pos))
                   (applyAspectGroupedLayout this0 landscapeAndPortrait)
                 = true) by (vm_compute; reflexivity).
    apply Forall_forallb in Hb.
    eapply Forall_impl; [exact Hb|].
    intros pos Hpos. by apply andb_true_iff in Hpos. }
  assert (H : Forall (fun pos => validatePosition pos = true)
                (applyAspectGroupedLayout this0 landscapeAndPortrait)).
  { apply Forall_forall. intros pos Hpos.
    destruct (proj1 (Forall_forall _ _) H5 pos Hpos) as [Hw Hh].
    exact (applyAspectGroupedLayout_unfloored_valid this0
             landscapeAndPortrait pos H1 H2 H3 H4 Hpos Hw Hh). }
  exact (conj H1 (conj H2 (conj H3 (conj H4 H)))).
Defined.

(** ** Masonry columns, grid cells and the organic offset *)

Section MasonryColumns.

Variable this : WallpaperCreator.
Hypothesis Hwf : wellFormed this.
Variables (sp m cwq : Q).
Hypothesis Esp : spacing (autoFitSettings this) = Fin sp.
Hypothesis Em : margin (autoFitSettings this) = Fin m.
Hypothesis Hsp0 : (0 <= sp)%Q.
Hypothesis Hcw0 : (0 < cwq)%Q.

Lemma masonry_columns (hs : list number) (l : list Image)
    (placed : list Position) (final : list number) :
  Spec.masonry this (Fin cwq) hs l placed final ->
  forall qs : list Q,
    hs = Fin <$> qs ->
    Forall validImage l ->
    Forall (fun p => exists c, inColumn m sp cwq qs p c) placed
    /\ forall i j p q,
         (i < j)%nat -> placed !! i = Some p -> placed !! j = Some q ->
         stackedAbove this p q.
Proof.
  induction 1 as [hs|hs img rest c hc d placed final Hshort Hhc Hd Hrel IH];
    intros qs -> Hl.
  - split; [constructor|]. intros i j p q _ Hp. by rewrite lookup_nil in Hp.
  - apply Forall_cons in Hl as [Himg Hl].
    pose proof Hwf as (_ & _ & Hmin & _).
    destruct (scaleImagePreservingRatio_exact this img (Fin cwq)
                (Fin cwq * Fin 2) Himg Hmin)
      as (w & h & r & Hd' & _ & _ & Hh0 & _); [done|done|].
    rewrite scaleToFit_code, Hd' in Hd. subst d.
    cbn [dimWidth dimHeight] in *.
    rewrite list_lookup_fmap in Hhc.
    destruct (qs !! c) as [qc|] eqn:Hqc; [|done]. injection Hhc as <-.
    rewrite Esp, Em in *.
    change (Fin qc + (Fin h + Fin sp)) with (Fin (qc + (h + sp))) in *.
    rewrite <- list_fmap_insert in *.
    destruct (IH _ eq_refl Hl) as [IH1 IH2].
    assert (Htail : Forall (fun p => exists c', inColumn m sp cwq qs p c'
                                   /\ (c' = c -> inColumn m sp cwq (<[c := (qc + (h + sp))%Q]> qs) p c))
                      placed).
    { eapply Forall_impl; [exact IH1|].
      intros p (c' & qc' & yq & hq & Hc' & Hx & Hy & Hh & Hhq & Hle).
      exists c'. apply list_lookup_insert_Some in Hc' as [(<- & <- & Hlt)|[Hne Hc']].
      - split; [|intros _].
        + exists qc, yq, hq. repeat split; try done. lra.
        + exists (qc + (h + sp))%Q, yq, hq. repeat split; try done.
          by apply list_lookup_insert_eq.
      - split; [|done]. by exists qc', yq, hq. }
    split.
    + constructor.
      * exists c, qc, qc, h. repeat split; try done. lra.
      * eapply Forall_impl; [exact Htail|]. intros p (c' & Hp & _). by exists c'.
    + intros i j p q Hij Hp Hq.
      destruct i as [|i], j as [|j]; try lia; cbn in Hp, Hq.
      * injection Hp as <-. unfold stackedAbove. rewrite Esp.
        intros Hx. cbn [x y height] in *.
        destruct (proj1 (Forall_lookup _ _) Htail j q Hq)
          as (c' & (qc' & yq & hq & Hc' & Ex & Ey & Eh & _ & _) & Hsame).
        assert (c' = c) as ->.
        { rewrite Ex in Hx.
          change (Fin m + Num.ofNat c * (Fin cwq + Fin sp))
            with (Fin (m + inject_Z (Z.of_nat c) * (cwq + sp))) in Hx.
          cbn in Hx.
          assert (E : (inject_Z (Z.of_nat c) - inject_Z (Z.of_nat c'))
                      * (cwq + sp) == 0) by lra.
          apply Qmult_integral in E as [E|E]; [|lra].
          assert (E' : inject_Z (Z.of_nat c) == inject_Z (Z.of_nat c')) by lra.
          unfold Qeq, inject_Z in E'. cbn in E'. lia. }
        destruct (Hsame eq_refl) as (qc'' & yq' & hq' & Hc'' & _ & Ey' & _ & _ & Hle).
        rewrite list_lookup_insert_eq in Hc'' by by eapply lookup_lt_Some.
        injection Hc'' as <-. rewrite Ey'.
        change (Fin qc + Fin h + Fin sp) with (Fin (qc + h + sp)).
        apply le_Fin. lra.
      * apply (IH2 i j p q); [lia|done|done].
Qed.

End MasonryColumns.

Lemma inject_nat_le (a b : nat) :
  (a <= b)%nat -> (inject_Z (Z.of_nat a) <= inject_Z (Z.of_nat b))%Q.
Proof. intros H. unfold Qle, inject_Z. cbn. lia. Qed.

Lemma inject_nat_succ (a : nat) :
  inject_Z (Z.of_nat (S a)) == inject_Z (Z.of_nat a) + 1.
Proof. unfold Qeq, Qplus, inject_Z. cbn. lia. Qed.

(** X11: when the masonry columns have a positive width, every rectangle
    stands at or below the top margin in one of the columns; of two
    rectangles in the same column the later one starts at least one
    spacing below the end of the earlier one; and a rectangle that is no
    wider than its column ends at least one spacing before every
    rectangle further to the right. *)
Theorem applyMasonryLayout_columns (this : WallpaperCreator)
    (imgs : list Image) :
  wellFormed this ->
  Num.le (Fin 0) (spacing (autoFitSettings this)) ->
  Num.pos (masonryColumnWidth this imgs) ->
  Forall validImage imgs ->
  let placed := applyMasonryLayout this imgs in
  let columnWidth := masonryColumnWidth this imgs in
  (forall p, p ∈ placed ->
     Num.le (margin (autoFitSettings this)) (y p)
     /\ exists c, (c < masonryColumnCount imgs)%nat
          /\ x p = margin (autoFitSettings this)
                   + Num.ofNat c
                     * (columnWidth + spacing (autoFitSettings this)))
  /\ (forall i j p q,
        (i < j)%nat -> placed !! i = Some p -> placed !! j = Some q ->
        Num.eqn (x p) (x q) ->
        Num.le (y p + height p + spacing (autoFitSettings this)) (y q))
  /\ (forall p q,
        p ∈ placed -> q ∈ placed ->
        Num.lt (x p) (x q) ->
        Num.le (width p) columnWidth ->
        Num.le (x p + width p + spacing (autoFitSettings this)) (x q)).
Proof.
  intros Hwf Hsp Hcw Himgs placed columnWidth.
  destruct (masonryRun_spec this Hwf imgs Himgs) as (final & _ & Hrel & Hfin & _).
  pose proof Hwf as (Hs & Hm & _).
  apply isFin_Fin in Hs as [sp Es]. apply isFin_Fin in Hm as [m Em].
  apply pos_Fin in Hcw as (cwq & Ecw & Hcw0).
  pose proof Hsp as Hsp0. rewrite Es in Hsp0. apply le_Fin in Hsp0.
  rewrite Ecw in Hrel.
  destruct (masonry_columns this Hwf sp m cwq Es Em Hsp0 Hcw0 _ _ _ _ Hrel
              (replicate (masonryColumnCount imgs) m))
    as [Hcols Hstack].
  { by rewrite Em, fmap_replicate. }
  { by apply sortedImages_valid. }
  fold placed in Hcols, Hstack, Hfin.
  assert (Hcol : forall p, p ∈ placed ->
             exists (c : nat) yq,
               (c < masonryColumnCount imgs)%nat
               /\ x p = Fin (m + inject_Z (Z.of_nat c) * (cwq + sp))
               /\ y p = Fin yq /\ (m <= yq)%Q).
  { intros p Hp.
    destruct (proj1 (Forall_forall _ _) Hcols p Hp)
      as (c & qc & yq & hq & Hc & Ex & Ey & _ & _ & Hle).
    apply lookup_replicate in Hc as [-> Hc]. by exists c, yq. }
  unfold columnWidth. rewrite Es, Em, Ecw.
  split; [|split].
  - intros p Hp. destruct (Hcol p Hp) as (c & yq & Hc & Ex & Ey & Hy).
    split; [rewrite Ey; by apply le_Fin|]. exists c. by rewrite Ex.
  - intros i j p q Hij Hp Hq Hx.
    pose proof (Hstack i j p q Hij Hp Hq Hx) as H. by rewrite Es in H.
  - intros p q Hp Hq Hlt Hw.
    destruct (Hcol p Hp) as (c & _ & _ & Ex & _).
    destruct (Hcol q Hq) as (c' & _ & _ & Ex' & _).
    destruct (proj1 (Forall_forall _ _) Hfin p Hp) as (_ & _ & Hwp & _).
    apply pos_Fin in Hwp as (wp & Ewp & _).
    rewrite Ex, Ex', Ewp in *. apply lt_Fin in Hlt. apply le_Fin in Hw.
    change (Fin (m + inject_Z (Z.of_nat c) * (cwq + sp)) + Fin wp + Fin sp)
      with (Fin (m + inject_Z (Z.of_nat c) * (cwq + sp) + wp + sp)).
    apply le_Fin.
    destruct (le_lt_dec c' c) as [Hle|Hlt'].
    + apply inject_nat_le in Hle. nra.
    + apply inject_nat_le in Hlt'. rewrite inject_nat_succ in Hlt'. nra.
Qed.

Lemma applyMasonryLayout_columns_witness :
  let this0 := defaultCreator fiveSquares None in
  wellFormed this0
  /\ Num.le (Fin 0) (spacing (autoFitSettings this0))
  /\ Num.pos (masonryColumnWidth this0 fiveSquares)
  /\ Forall validImage fiveSquares
  /\ forall p, p ∈ applyMasonryLayout this0 fiveSquares ->
       Num.le (margin (autoFitSettings this0)) (y p).
Proof.
  intros this0.
  assert (H1 : wellFormed this0) by (vm_compute; done).
  assert (H2 : Num.le (Fin 0) (spacing (autoFitSettings this0)))
    by reflexivity.
  assert (H3 : Num.pos (masonryColumnWidth this0 fiveSquares))
    by reflexivity.
  assert (H4 : Forall validImage fiveSquares).
  { repeat constructor. }
  destruct (applyMasonryLayout_columns this0 fiveSquares H1 H2 H3 H4)
    as (H & _).
  exact (conj H1 (conj H2 (conj H3 (conj H4 (fun p Hp => proj1 (H p Hp)))))).
Defined.

(** X12: when the grid cells have a positive size, every rectangle of the
    proportional grid is at least [minImageSize] wide and high, and it lies
    inside its cell unless one of its sides is exactly [minImageSize]. *)
Theorem applyProportionalGridLayout_inside_cell (this : WallpaperCreator)
    (imgs : list Image) (i : nat) (pos : Position) :
  wellFormed this ->
  Forall validImage imgs ->
  let cols := gridCols imgs in
  let rows := Spec.ceilDiv (length imgs) cols in
  Num.pos (Spec.cellWidth this cols) ->
  Num.pos (Spec.cellHeight this rows) ->
  applyProportionalGridLayout this imgs !! i = Some pos ->
  Num.le (minImageSize (autoFitSettings this)) (width pos)
  /\ Num.le (minImageSize (autoFitSettings this)) (height pos)
  /\ (insideCell this cols rows (i / cols) (i mod cols) pos
      \/ Num.eqn (width pos) (minImageSize (autoFitSettings this))
      \/ Num.eqn (height pos) (minImageSize (autoFitSettings this))).
Proof.
  intros Hwf Himgs cols rows Hcw Hch Hpos.
  unfold applyProportionalGridLayout in Hpos.
  rewrite list_lookup_imap in Hpos.
  destruct (imgs !! i) as [img|] eqn:Himg; [|done]. injection Hpos as <-.
  assert (Hn : (1 <= length imgs)%nat).
  { apply lookup_lt_Some in Himg. lia. }
  rewrite (gridPosition_cell this imgs i img Hn). fold cols rows.
  pose proof (Forall_lookup_1 _ _ _ _ Himgs Himg) as Hvalid.
  pose proof Hwf as (Hs & Hm & Hmin & _).
  apply isFin_Fin in Hs as [sp Es]. apply isFin_Fin in Hm as [m Em].
  apply pos_Fin in Hmin as (ms & Ems & Hms).
  apply pos_Fin in Hcw as (cw & Ecw & Hcw). apply pos_Fin in Hch as (ch & Ech & Hch).
  destruct (scaleImagePreservingRatio_bounds this img cw ch ms Hvalid Ems Hms
              Hcw Hch) as (w & h & Ed & Hw & Hh & Hfit).
  unfold insideCell, Spec.cellPlacement. rewrite scaleToFit_code.
  cbn [x y width height].
  rewrite Ecw, Ech, Ed, Es, Em, Ems. cbn [dimWidth dimHeight].
  split; [by apply le_Fin|]. split; [by apply le_Fin|].
  destruct Hfit as [(Hfw & Hfh & _)|[Hfit|Hfit]];
    [left|right; by left|right; by right].
  set (col := inject_Z (Z.of_nat (i mod cols))).
  set (row := inject_Z (Z.of_nat (i / cols))).
  change (Fin m + Num.ofNat (i mod cols) * (Fin cw + Fin sp))
    with (Fin (m + col * (cw + sp))).
  change (Fin m + Num.ofNat (i / cols) * (Fin ch + Fin sp))
    with (Fin (m + row * (ch + sp))).
  change (Fin cw - Fin w) with (Fin (cw + - w)).
  change (Fin ch - Fin h) with (Fin (ch + - h)).
  rewrite !div_Fin by lra.
  repeat match goal with
  | |- context [Fin ?a + Fin ?b] => change (Fin a + Fin b) with (Fin (a + b))
  end.
  rewrite !le_Fin.
  assert (E1 : (cw + - w) / 2 * 2 == cw + - w) by (field; lra).
  assert (E2 : (ch + - h) / 2 * 2 == ch + - h) by (field; lra).
  split; [|split; [|split]]; lra.
Qed.

Lemma applyProportionalGridLayout_inside_cell_witness :
  let this0 := defaultCreator landscapeAndPortrait None in
  wellFormed this0
  /\ Forall validImage landscapeAndPortrait
  /\ Num.pos (Spec.cellWidth this0 2)
  /\ Num.pos (Spec.cellHeight this0 1)
  /\ exists pos,
       applyProportionalGridLayout this0 landscapeAndPortrait !! 1%nat
       = Some pos
       /\ Num.le (minImageSize (autoFitSettings this0)) (width pos).
Proof.
  intros this0.
  assert (H1 : wellFormed this0) by (vm_compute; done).
  assert (H2 : Forall validImage landscapeAndPortrait).
  { repeat constructor. }
  assert (H3 : Num.pos (Spec.cellWidth this0 2)) by reflexivity.
  assert (H4 : Num.pos (Spec.cellHeight this0 1)) by reflexivity.
  destruct (applyProportionalGridLayout this0 landscapeAndPortrait !! 1%nat)
    as [pos|] eqn:E; [|by vm_compute in E].
  destruct (applyProportionalGridLayout_inside_cell this0
              landscapeAndPortrait 1 pos H1 H2 H3 H4 E) as (H & _).
  exact (conj H1 (conj H2 (conj H3 (conj H4
           (ex_intro _ pos (conj eq_refl H)))))).
Defined.

Lemma clamp_near (m v b x0 d : Q) :
  (m <= x0 <= b)%Q -> (x0 - d <= v <= x0 + d)%Q ->
  exists u,
    Num.max (Fin m) (Num.min (Fin v) (Fin b)) = Fin u
    /\ (x0 - d <= u <= x0 + d)%Q.
Proof.
  intros Hx Hv. unfold Num.max, Num.min. rewrite ltb_Fin.
  destruct (Num.Qltb b v) eqn:E1; rewrite ltb_Fin;
    match goal with |- context [Num.Qltb ?p ?q] =>
      destruct (Num.Qltb p q) eqn:E2 end;
    qbool; eexists; (split; [reflexivity|]); lra.
Qed.

(** X13: when [Math.random] returns values from 0 up to but excluding 1,
    the organic layout moves a masonry rectangle that lies between the
    left and right (top and bottom) clamping bounds by at most a quarter
    of the spacing horizontally (vertically). *)
Theorem applyOrganicStackLayout_jitter (this : WallpaperCreator)
    (random : nat -> Q) (imgs : list Image) (k : nat) (base pos : Position) :
  wellFormed this ->
  Num.le (Fin 0) (spacing (autoFitSettings this)) ->
  Forall validImage imgs ->
  (forall n, (0 <= random n < 1)%Q) ->
  applyMasonryLayout this imgs !! k = Some base ->
  applyOrganicStackLayout this random imgs !! k = Some pos ->
  let quarter := spacing (autoFitSettings this) * Fin (1 # 4) in
  (Num.le (margin (autoFitSettings this)) (x base) ->
   Num.le (x base)
     (canvasWidth this - width base - margin (autoFitSettings this)) ->
   nearBy quarter (x pos) (x base))
  /\ (Num.le (margin (autoFitSettings this)) (y base) ->
      Num.le (y base)
        (canvasHeight this - height base - margin (autoFitSettings this)) ->
      nearBy quarter (y pos) (y base)).
Proof.
  intros Hwf Hsp Himgs Hrand Hbase Hpos quarter.
  destruct (masonryRun_spec this Hwf imgs Himgs) as (_ & _ & _ & Hfin & _).
  destruct (Forall_lookup_1 _ _ _ _ Hfin Hbase) as (Hx & Hy & Hw & Hh).
  destruct (organicLoop_lookup this random _ 0 0 k base Hbase) as [calls E].
  unfold applyOrganicStackLayout in Hpos. rewrite E in Hpos.
  injection Hpos as <-. clear E.
  pose proof Hwf as (Hs & Hm & _ & Hcw & Hch).
  apply isFin_Fin in Hs as [sp Es]. apply isFin_Fin in Hm as [m Em].
  apply isFin_Fin in Hcw as [cw Ecw]. apply isFin_Fin in Hch as [ch Ech].
  apply isFin_Fin in Hx as [bx Ex]. apply isFin_Fin in Hy as [by' Ey].
  apply pos_Fin in Hw as (w & Ew & Hw). apply pos_Fin in Hh as (h & Eh & Hh).
  subst quarter. unfold nearBy, organicPosition.
  rewrite Es, Em, Ecw, Ech, Ex, Ey, Ew, Eh in *. apply le_Fin in Hsp.
  change (Fin sp * Fin (1 # 4)) with (Fin (sp * (1 # 4))).
  pose proof (Hrand calls) as Hr1. pose proof (Hrand (S calls)) as Hr2.
  destruct (allowStacking (autoFitSettings this) && (0 <? k)%nat);
    cbn [fst x y].
  - change (Fin cw - Fin w - Fin m) with (Fin (cw + - w + - m)).
    change (Fin ch - Fin h - Fin m) with (Fin (ch + - h + - m)).
    change (Fin bx + (Fin (random calls) - Fin (1 # 2)) * (Fin sp * Fin (1 # 2)))
      with (Fin (bx + (random calls + - (1 # 2)) * (sp * (1 # 2)))).
    change (Fin by' + (Fin (random (S calls)) - Fin (1 # 2)) * (Fin sp * Fin (1 # 2)))
      with (Fin (by' + (random (S calls) + - (1 # 2)) * (sp * (1 # 2)))).
    split; intros H1 H2; apply le_Fin in H1, H2.
    + destruct (clamp_near m (bx + (random calls + - (1 # 2)) * (sp * (1 # 2)))
                  (cw + - w + - m) bx (sp * (1 # 4))) as (u & -> & Hu);
        [lra|nra|].
      change (Fin u - Fin bx) with (Fin (u + - bx)).
      apply le_Fin, Qabs_Qle_condition. lra.
    + destruct (clamp_near m
                  (by' + (random (S calls) + - (1 # 2)) * (sp * (1 # 2)))
                  (ch + - h + - m) by' (sp * (1 # 4))) as (u & -> & Hu);
        [lra|nra|].
      change (Fin u - Fin by') with (Fin (u + - by')).
      apply le_Fin, Qabs_Qle_condition. lra.
  - rewrite Ex, Ey.
    change (Fin bx - Fin bx) with (Fin (bx + - bx)).
    change (Fin by' - Fin by') with (Fin (by' + - by')).
    split; intros _ _; apply le_Fin, Qabs_Qle_condition; lra.
Qed.

Lemma applyOrganicStackLayout_jitter_witness :
  let this0 := defaultCreator fiveSquares None in
  wellFormed this0
  /\ Num.le (Fin 0) (spacing (autoFitSettings this0))
  /\ Forall validImage fiveSquares
  /\ (forall n, (0 <= noJitter n < 1)%Q)
  /\ exists base pos,
       applyMasonryLayout this0 fiveSquares !! 1%nat = Some base
       /\ applyOrganicStackLayout this0 noJitter fiveSquares !! 1%nat
          = Some pos
       /\ nearBy (spacing (autoFitSettings this0) * Fin (1 # 4))
            (x pos) (x base).
Proof.
  intros this0.
  assert (H1 : wellFormed this0) by (vm_compute; done).
  assert (H2 : Num.le (Fin 0) (spacing (autoFitSettings this0)))
    by reflexivity.
  assert (H3 : Forall validImage fiveSquares).
  { repeat constructor. }
  assert (H4 : forall n, (0 <= noJitter n < 1)%Q).
  { intros n. split; vm_compute; [discriminate|reflexivity]. }
  destruct (applyMasonryLayout this0 fiveSquares !! 1%nat)
    as [base|] eqn:Eb; [|by vm_compute in Eb].
  destruct (applyOrganicStackLayout this0 noJitter fiveSquares !! 1%nat)
    as [pos|] eqn:Ep; [|by vm_compute in Ep].
  destruct (applyOrganicStackLayout_jitter this0 noJitter fiveSquares 1
              base pos H1 H2 H3 H4 Eb Ep) as [H _].
  assert (Ha : Num.le (margin (autoFitSettings this0)) (x base)).
  { vm_compute in Eb. injection Eb as <-. reflexivity. }
  assert (Hb : Num.le (x base)
                 (canvasWidth this0 - width base
                  - margin (autoFitSettings this0))).
  { vm_compute in Eb. injection Eb as <-. reflexivity. }
  exact (conj H1 (conj H2 (conj H3 (conj H4
           (ex_intro _ base (ex_intro _ pos
              (conj eq_refl (conj eq_refl (H Ha Hb))))))))).
Defined.

(** ** Adding images to the canvas *)

Lemma addedImageSize_cases (image : Image) (w h : Q) :
  originalWidth image = Fin w -> originalHeight image = Fin h ->
  (0 < w)%Q -> (0 < h)%Q ->
  exists a b,
    addedImageSize image = mkDimensions (Fin a) (Fin b)
    /\ (0 < a <= 300)%Q /\ (0 < b <= 300)%Q /\ (a <= w)%Q /\ (b <= h)%Q
    /\ a == b * (w / h)
    /\ ((a == w /\ b == h) \/ a == 300 \/ b == 300).
Proof.
  intros Ew Eh Hw Hh.
  assert (Hr : (0 < w / h)%Q) by (apply Qlt_shift_div_l; lra).
  assert (Hwh : (w / h) * h == w) by (field; lra).
  unfold addedImageSize, calculateAspectRatio. rewrite Ew, Eh.
  rewrite (div_Fin w h) by lra.
  unfold Num.min, Num.ltb.
  destruct (Num.Qltb 300 w) eqn:E1; qbool.
  - rewrite (div_Fin 300 (w / h)) by lra.
    assert (Hq : 300 / (w / h) * (w / h) == 300) by (field; lra).
    unfold Num.gtb, Num.ltb.
    destruct (Num.Qltb 300 (300 / (w / h))) eqn:E2; qbool.
    + exists (300 * (w / h))%Q, 300%Q. split; [reflexivity|].
      assert (w / h < 1)%Q by nra.
      repeat split; try lra; try nra.
    + exists 300%Q, (300 / (w / h))%Q. split; [reflexivity|].
      assert (0 < 300 / (w / h))%Q by (apply Qlt_shift_div_l; lra).
      repeat split; try lra; try nra.
  - rewrite (div_Fin w (w / h)) by lra.
    assert (Hq : w / (w / h) == h) by (field; lra).
    unfold Num.gtb, Num.ltb.
    destruct (Num.Qltb 300 (w / (w / h))) eqn:E2; qbool.
    + exists (300 * (w / h))%Q, 300%Q. split; [reflexivity|].
      assert (w / h < 1)%Q by (apply Qlt_shift_div_r; lra).
      repeat split; try lra; try nra.
    + exists w, (w / (w / h))%Q. split; [reflexivity|].
      repeat split; try lra; try nra.
Qed.

(** X14: for an image with positive intrinsic dimensions,
    [addImageToCanvas] appends one element and selects it; the element is
    at most 300 wide and high and no larger than the image itself, it
    passes the ratio check, and it has the size of the image unless its
    width or its height is 300. *)
Theorem addImageToCanvas_element (this : WallpaperCreator) (now : number)
    (image : Image) (app : AppState) :
  validImage image ->
  exists el,
    elements (addImageToCanvas this now image app) = elements app ++ [el]
    /\ selectedElement (addImageToCanvas this now image app) = Some el
    /\ elementImageData el = image
    /\ Num.le (elementWidth el) (Fin 300)
    /\ Num.le (elementHeight el) (Fin 300)
    /\ Num.le (elementWidth el) (originalWidth image)
    /\ Num.le (elementHeight el) (originalHeight image)
    /\ validateAspectRatioPreservation image
         (mkDimensions (elementWidth el) (elementHeight el)) = true
    /\ ((Num.eqn (elementWidth el) (originalWidth image)
         /\ Num.eqn (elementHeight el) (originalHeight image))
        \/ Num.eqn (elementWidth el) (Fin 300)
        \/ Num.eqn (elementHeight el) (Fin 300)).
Proof.
  intros Himg. pose proof Himg as [Hw Hh].
  apply pos_Fin in Hw as (w & Ew & Hw). apply pos_Fin in Hh as (h & Eh & Hh).
  destruct (addedImageSize_cases image w h Ew Eh Hw Hh)
    as (a & b & Esize & Ha & Hb & Haw & Hbh & Hab & Hcases).
  eexists. split; [reflexivity|]. split; [reflexivity|].
  split; [reflexivity|]. cbn [elementWidth elementHeight].
  rewrite Esize, Ew, Eh. cbn [dimWidth dimHeight].
  unfold Num.le. rewrite !leb_Fin.
  split; [apply Qle_bool_iff; lra|]. split; [apply Qle_bool_iff; lra|].
  split; [apply Qle_bool_iff; lra|]. split; [apply Qle_bool_iff; lra|].
  split; [|exact Hcases].
  apply (validatePosition_exact (mkPosition image (Fin 0) (Fin 0) (Fin a) (Fin b))).
  - exact Himg.
  - cbn. lra.
  - exact I.
  - unfold ratioExact, calculateAspectRatio. cbn [width height imageData].
    rewrite Ew, Eh, (div_Fin w h) by lra. apply ratio_eqn; [lra|exact Hab].
Qed.

Lemma addImageToCanvas_element_witness :
  let this0 := defaultCreator [] None in
  let image := pixels 1 900 1600 in
  validImage image
  /\ exists el,
       selectedElement (addImageToCanvas this0 (Fin 0) image initialAppState)
       = Some el
       /\ Num.le (elementHeight el) (Fin 300).
Proof.
  intros this0 image.
  assert (H1 : validImage image) by (split; reflexivity).
  destruct (addImageToCanvas_element this0 (Fin 0) image initialAppState H1)
    as (el & _ & Hsel & _ & _ & Hh & _).
  exact (conj H1 (ex_intro _ el (conj Hsel Hh))).
Defined.

Lemma bulkElement_slot (now : number) (index : nat) (image : Image) :
  elementX (bulkElement now index image)
  = Fin 100 + Num.ofNat (index mod 3) * Fin 150
  /\ elementY (bulkElement now index image)
     = Fin 100 + Num.ofNat (index / 3) * Fin 150.
Proof.
  unfold bulkElement. cbn [elementX elementY].
  change (Fin 3) with (Num.ofNat 3).
  by rewrite rem_ofNat, floor_ofNat_div by lia.
Qed.

Lemma bulkElement_height (now : number) (index : nat) (image : Image) :
  validImage image ->
  exists h r,
    elementHeight (bulkElement now index image) = Fin h
    /\ calculateAspectRatio image = Fin r
    /\ (0 < h)%Q /\ (0 < r)%Q /\ 120 == h * r.
Proof.
  intros Himg.
  destruct (calculateAspectRatio_valid image Himg) as (r & Er & Hr).
  unfold bulkElement. cbn [elementHeight]. rewrite Er, div_Fin by lra.
  exists (120 / r)%Q, r. split; [done|]. split; [done|].
  split; [apply Qlt_shift_div_l; lra|]. split; [done|]. field. lra.
Qed.

(** X15: with a non-empty selection [bulkAddToCanvas] appends one element
    for every selected image, in the order of the gallery.  The element at
    index [i] is 120 wide and stands at [x = 100 + 150 * (i mod 3)],
    [y = 100 + 150 * (i div 3)]; for an image with positive intrinsic
    dimensions it passes the ratio check.  Two elements of one row are 30
    apart; an element whose image has a ratio of at least 0.8 ends above
    the next row. *)
Theorem bulkAddToCanvas_elements (this : WallpaperCreator)
    (clock : nat -> number) (app : AppState) :
  size (selectedImages this) <> 0%nat ->
  exists added,
    elements (bulkAddToCanvas this clock app) = elements app ++ added
    /\ elementImageData <$> added = selectedImageData this
    /\ (forall i el, added !! i = Some el ->
          elementWidth el = Fin 120
          /\ elementX el = Fin 100 + Num.ofNat (i mod 3) * Fin 150
          /\ elementY el = Fin 100 + Num.ofNat (i / 3) * Fin 150
          /\ (validImage (elementImageData el) ->
              validateAspectRatioPreservation (elementImageData el)
                (mkDimensions (elementWidth el) (elementHeight el)) = true))
    /\ (forall i j p q, added !! i = Some p -> added !! j = Some q ->
          (i < j)%nat -> (i / 3 = j / 3)%nat ->
          Num.le (elementX p + elementWidth p + Fin 30) (elementX q))
    /\ (forall i j p q, added !! i = Some p -> added !! j = Some q ->
          (i / 3 < j / 3)%nat -> validImage (elementImageData p) ->
          Num.le (Fin (8 # 10)) (calculateAspectRatio (elementImageData p)) ->
          Num.le (elementY p + elementHeight p) (elementY q)).
Proof.
  intros Hsel. unfold bulkAddToCanvas.
  destruct (size (selectedImages this) =? 0)%nat eqn:E;
    [by apply Nat.eqb_eq in E|].
  eexists. split; [reflexivity|].
  assert (Hlookup : forall i el,
    imap (fun index imageData => bulkElement (clock index) index imageData)
      (selectedImageData this) !! i = Some el ->
    exists image, selectedImageData this !! i = Some image
      /\ el = bulkElement (clock i) i image).
  { intros i el H. rewrite list_lookup_imap in H.
    destruct (selectedImageData this !! i) as [image|]; [|done].
    exists image. split; [done|]. by injection H as <-. }
  split.
  { apply list_eq. intros i. rewrite list_lookup_fmap, list_lookup_imap.
    by destruct (selectedImageData this !! i). }
  split; [|split].
  - intros i el H. apply Hlookup in H as (image & _ & ->).
    destruct (bulkElement_slot (clock i) i image) as [Ex Ey].
    split; [done|]. split; [done|]. split; [done|].
    intros Himg. cbn [elementImageData bulkElement] in Himg |- *.
    destruct (bulkElement_height (clock i) i image Himg)
      as (h & r & Eh & Er & Hh & Hr & Hhr).
    cbn [elementHeight bulkElement] in Eh.
    apply (validatePosition_exact
             (mkPosition image (Fin 0) (Fin 0) (Fin 120)
                (Fin 120 / calculateAspectRatio image))).
    + exact Himg.
    + cbn [height]. rewrite Eh. exact Hh.
    + exact I.
    + unfold ratioExact. cbn [width height imageData]. rewrite Eh, Er.
      by apply ratio_eqn.
  - intros i j p q Hp Hq Hij Hrow.
    apply Hlookup in Hp as (ip & _ & ->). apply Hlookup in Hq as (iq & _ & ->).
    destruct (bulkElement_slot (clock i) i ip) as [-> _].
    destruct (bulkElement_slot (clock j) j iq) as [-> _].
    cbn [elementWidth bulkElement].
    assert (Hmod : (S (i mod 3) <= j mod 3)%nat).
    { pose proof (Nat.div_mod_eq i 3). pose proof (Nat.div_mod_eq j 3). lia. }
    apply inject_nat_le in Hmod. rewrite inject_nat_succ in Hmod.
    unfold Num.le, Num.ofNat, Num.ofZ.
    change (Fin ?a * Fin ?b) with (Fin (a * b)).
    change (Fin ?a + Fin ?b) with (Fin (a + b)).
    change (Fin ?a + Fin ?b) with (Fin (a + b)).
    change (Fin ?a + Fin ?b) with (Fin (a + b)).
    rewrite leb_Fin. apply Qle_bool_iff. lra.
  - intros i j p q Hp Hq Hrow Himg Hratio.
    apply Hlookup in Hp as (ip & _ & ->). apply Hlookup in Hq as (iq & _ & ->).
    cbn [elementImageData bulkElement] in Himg, Hratio.
    destruct (bulkElement_slot (clock i) i ip) as [_ ->].
    destruct (bulkElement_slot (clock j) j iq) as [_ ->].
    destruct (bulkElement_height (clock i) i ip Himg)
      as (h & r & -> & Er & Hh & Hr & Hhr).
    rewrite Er in Hratio. unfold Num.le in Hratio. rewrite leb_Fin in Hratio.
    apply Qle_bool_iff in Hratio.
    assert (Hdiv : (S (i / 3) <= j / 3)%nat) by lia.
    apply inject_nat_le in Hdiv. rewrite inject_nat_succ in Hdiv.
    unfold Num.le, Num.ofNat, Num.ofZ.
    change (Fin ?a * Fin ?b) with (Fin (a * b)).
    change (Fin ?a + Fin ?b) with (Fin (a + b)).
    change (Fin ?a + Fin ?b) with (Fin (a + b)).
    change (Fin ?a + Fin ?b) with (Fin (a + b)).
    rewrite leb_Fin. apply Qle_bool_iff. nra.
Qed.

Lemma bulkAddToCanvas_elements_witness :
  let this0 := defaultCreator [pixels 1 1600 900; pixels 2 900 1600] None in
  size (selectedImages this0) <> 0%nat
  /\ exists added,
       elements (bulkAddToCanvas this0 (fun _ => Fin 0) initialAppState)
       = elements initialAppState ++ added
       /\ elementImageData <$> added = selectedImageData this0.
Proof.
  intros this0.
  assert (H1 : size (selectedImages this0) <> 0%nat) by (vm_compute; lia).
  destruct (bulkAddToCanvas_elements this0 (fun _ => Fin 0) initialAppState H1)
    as (added & Hel & Hdata & _).
  exact (conj H1 (ex_intro _ added (conj Hel Hdata))).
Defined.

(** ** Selection *)

Lemma selectAllImages_selected (this : WallpaperCreator) :
  selectedImages (selectAllImages this) = list_to_set (id <$> images this).
Proof.
  unfold selectAllImages. cbn [selectedImages setImages].
  assert (H : forall (l : list Image) (acc : gset nat),
    foldl (fun selected img => selected ∪ {[ id img ]}) acc l
    = acc ∪ list_to_set (id <$> l)).
  { induction l as [|img l IH]; intros acc; cbn.
    - by rewrite (right_id_L ∅ (∪)).
    - by rewrite IH, (assoc_L (∪)). }
  by rewrite H, (left_id_L ∅ (∪)).
Qed.

(** X16: after [selectAllImages] the selected images are all images of
    the gallery, in gallery order; after [selectNoImages] there is none;
    [toggleImageSelection] flips the membership of the given id and of no
    other, so toggling twice restores the selection. *)
Theorem selection_methods (this : WallpaperCreator) :
  selectedImageData (selectAllImages this) = images this
  /\ selectedImageData (selectNoImages this) = []
  /\ (forall i j,
        j ∈ selectedImages (toggleImageSelection this i)
        <-> if decide (j = i) then j ∉ selectedImages this
            else j ∈ selectedImages this)
  /\ (forall i,
        selectedImages (toggleImageSelection (toggleImageSelection this i) i)
        = selectedImages this)
  /\ (forall i, images (toggleImageSelection this i) = images this).
Proof.
  split; [|split; [|split; [|split]]].
  - unfold selectedImageData. rewrite selectAllImages_selected.
    cbn [images selectAllImages setImages].
    apply filter_all. intros img Himg.
    apply elem_of_list_to_set, list_elem_of_fmap. by exists img.
  - unfold selectedImageData.
    cbn [images selectedImages selectNoImages setImages].
    apply filter_none. intros img _. apply not_elem_of_empty.
  - intros i j. unfold toggleImageSelection.
    destruct (decide (i ∈ selectedImages this));
      cbn [selectedImages setImages];
      rewrite ?elem_of_difference, ?elem_of_union, ?elem_of_singleton;
      destruct (decide (j = i)) as [->|]; tauto.
  - intros i. unfold toggleImageSelection.
    destruct (decide (i ∈ selectedImages this)) as [Hin|Hout];
      cbn [selectedImages setImages].
    + rewrite decide_False
        by (rewrite elem_of_difference, elem_of_singleton; tauto).
      cbn [selectedImages setImages]. apply set_eq. intros k.
      rewrite elem_of_union, elem_of_difference, elem_of_singleton.
      destruct (decide (k = i)) as [->|]; tauto.
    + rewrite decide_True by (rewrite elem_of_union, elem_of_singleton; tauto).
      cbn [selectedImages setImages]. apply set_eq. intros k.
      rewrite elem_of_difference, elem_of_union, elem_of_singleton.
      destruct (decide (k = i)) as [->|]; tauto.
  - intros i. unfold toggleImageSelection.
    by destruct (decide (i ∈ selectedImages this)).
Qed.

(** ** Zoom *)

(** X17: whatever number other than [NaN] it is given, [setZoom] leaves a
    zoom between 0.1 and 5, and it takes a number of that range as it
    is. *)
Theorem setZoom_range (newZoom : number) (app : AppState) :
  newZoom <> NaN ->
  zoomInRange (setZoom newZoom app)
  /\ (Num.le (Fin (1 # 10)) newZoom -> Num.le newZoom (Fin 5) ->
      Num.eqn (zoom (setZoom newZoom app)) newZoom).
Proof.
  intros Hnan. unfold zoomInRange. cbn [zoom setZoom].
  destruct newZoom as [q| | |]; [| | |done].
  - unfold Num.min, Num.max, Num.le, Num.ltb.
    destruct (Num.Qltb q 5) eqn:E1;
      [destruct (Num.Qltb (1 # 10) q) eqn:E2|
       destruct (Num.Qltb (1 # 10) 5) eqn:E2]; qbool;
      rewrite ?leb_Fin; (split; [split; apply Qle_bool_iff; lra|]);
      intros H1 H2; apply Qle_bool_iff in H1, H2; cbn; lra.
  - split; [by vm_compute|]. by intros _ H.
  - split; [by vm_compute|]. by intros H _.
Qed.
Lemma setZoom_range_witness :
  Fin 7 <> NaN /\ zoomInRange (setZoom (Fin 7) initialAppState).
Proof.
  assert (H1 : Fin 7 <> NaN) by discriminate.
  exact (conj H1 (proj1 (setZoom_range (Fin 7) initialAppState H1))).
Defined.

(** X18: on a canvas of positive size [fitToScreen] leaves a zoom between
    0.1 and 5.  When the canvas at zoom 0.1 is no larger than the
    container less 40 pixels, the zoomed canvas is no larger than that
    either, and it is exactly as wide or as high unless the zoom is 5. *)
Theorem fitToScreen_fits (this : WallpaperCreator)
    (clientWidth clientHeight : nat) (app : AppState) :
  Num.pos (canvasWidth this) -> Num.pos (canvasHeight this) ->
  let app' := fitToScreen this (Some (clientWidth, clientHeight)) app in
  let containerWidth := Num.ofNat clientWidth - Fin 40 in
  let containerHeight := Num.ofNat clientHeight - Fin 40 in
  zoomInRange app'
  /\ (Num.le (Fin (1 # 10) * canvasWidth this) containerWidth ->
      Num.le (Fin (1 # 10) * canvasHeight this) containerHeight ->
      Num.le (zoom app' * canvasWidth this) containerWidth
      /\ Num.le (zoom app' * canvasHeight this) containerHeight
      /\ (Num.eqn (zoom app') (Fin 5)
          \/ Num.eqn (zoom app' * canvasWidth this) containerWidth
          \/ Num.eqn (zoom app' * canvasHeight this) containerHeight)).
Proof.
  intros HW HH.
  apply pos_Fin in HW as (W & EW & HW). apply pos_Fin in HH as (H & EH & HH).
  cbn zeta. unfold zoomInRange, fitToScreen. cbn [zoom setZoom].
  rewrite EW, EH. unfold Num.ofNat, Num.ofZ.
  set (a := inject_Z (Z.of_nat clientWidth)).
  set (b := inject_Z (Z.of_nat clientHeight)).
  change (Fin a - Fin 40) with (Fin (a - 40)).
  change (Fin b - Fin 40) with (Fin (b - 40)).
  rewrite !div_Fin by lra.
  assert (Ea : (a - 40) / W * W == a - 40) by (field; lra).
  assert (Eb : (b - 40) / H * H == b - 40) by (field; lra).
  revert Ea Eb. generalize ((a - 40) / W)%Q ((b - 40) / H)%Q.
  intros sx sy Ea Eb.
  unfold Num.min, Num.max, Num.le, Num.ltb.
  destruct (Num.Qltb sy sx) eqn:E1;
    match goal with
    | |- context [Num.Qltb ?m 5] => destruct (Num.Qltb m 5) eqn:E2
    end;
    match goal with
    | |- context [Num.Qltb (1 # 10) ?m] => destruct (Num.Qltb (1 # 10) m) eqn:E3
    end; qbool;
    change (Fin ?p * Fin ?q) with (Fin (p * q)); rewrite ?leb_Fin;
    (split; [split; apply Qle_bool_iff; lra|]);
    intros H1 H2; apply Qle_bool_iff in H1, H2; cbn [Num.eqn];
    (split; [apply Qle_bool_iff; nra|]);
    (split; [apply Qle_bool_iff; nra|]);
    first [ left; lra | right; left; nra | right; right; nra ].
Qed.

Lemma fitToScreen_fits_witness :
  let this0 := defaultCreator [] None in
  Num.pos (canvasWidth this0) /\ Num.pos (canvasHeight this0)
  /\ zoomInRange (fitToScreen this0 (Some (1000, 800)%nat) initialAppState).
Proof.
  intros this0.
  assert (H1 : Num.pos (canvasWidth this0)) by reflexivity.
  assert (H2 : Num.pos (canvasHeight this0)) by reflexivity.
  exact (conj H1 (conj H2
    (proj1 (fitToScreen_fits this0 1000 800 initialAppState H1 H2)))).
Defined.

(** ** Hit testing and painting order *)

Lemma find_reverse_last {A : Type} (f : A -> bool) (P : A -> Prop)
    `{!forall a, Decision (P a)} (l : list A) :
  (forall a, f a = true <-> P a) ->
  find f (reverse l) = last (filter P l).
Proof.
  intros HP. induction l as [|a l IH] using rev_ind; [done|].
  rewrite reverse_snoc, filter_app. cbn [find].
  destruct (f a) eqn:E.
  - rewrite filter_cons_True, filter_nil by by apply HP.
    by rewrite last_snoc.
  - rewrite filter_cons_False, filter_nil.
    + by rewrite (right_id_L [] (++)).
    + intros Ha. apply HP in Ha. congruence.
Qed.

Lemma last_filter_split {A : Type} (P : A -> Prop)
    `{!forall a, Decision (P a)} (l : list A) (a : A) :
  last (filter P l) = Some a ->
  exists before after,
    l = before ++ a :: after /\ P a /\ Forall (fun b => ~ P b) after.
Proof.
  induction l as [|b l IH] using rev_ind; [done|].
  rewrite filter_app. destruct (decide (P b)) as [Hb|Hb].
  - rewrite filter_cons_True, filter_nil, last_snoc by done.
    intros [= ->]. exists l, []. by repeat split.
  - rewrite filter_cons_False, filter_nil, (right_id_L [] (++)) by done.
    intros Hlast. destruct (IH Hlast) as (before & after & -> & Ha & Hafter).
    exists before, (after ++ [b]). split; [by rewrite <- app_assoc|].
    split; [done|]. apply Forall_app. split; [done|]. by constructor.
Qed.

Lemma insertByZIndex_perm (a : Element) (l : list Element) :
  insertByZIndex a l ≡ₚ a :: l.
Proof.
  induction l as [|b l IH]; simpl; [reflexivity|].
  destruct (compareByZIndex a b >? Fin 0); [|reflexivity].
  rewrite IH. apply Permutation_swap.
Qed.

Lemma sortedElements_perm (app : AppState) :
  sortedElements app ≡ₚ elements app.
Proof.
  unfold sortedElements.
  induction (elements app) as [|a l IH]; simpl; [reflexivity|].
  rewrite insertByZIndex_perm. by f_equiv.
Qed.

Lemma compareByZIndex_Fin (a b : Element) (qa qb : Q) :
  zIndexOrZero a = Fin qa -> zIndexOrZero b = Fin qb ->
  (compareByZIndex a b >? Fin 0) = Num.Qltb 0 (qa + - qb).
Proof. intros Ea Eb. unfold compareByZIndex. by rewrite Ea, Eb. Qed.

Lemma insertByZIndex_sorted (a : Element) (l : list Element) :
  finiteZIndex a -> Forall finiteZIndex l ->
  StronglySorted zIndexLe l -> StronglySorted zIndexLe (insertByZIndex a l).
Proof.
  intros Ha Hl Hs. induction l as [|b l IH]; cbn.
  - repeat constructor.
  - apply Forall_cons in Hl as [Hb Hl].
    apply StronglySorted_inv in Hs as [Hs Hbl].
    destruct (isFin_Fin _ Ha) as [qa Ea]. destruct (isFin_Fin _ Hb) as [qb Eb].
    rewrite (compareByZIndex_Fin a b qa qb Ea Eb).
    destruct (Num.Qltb 0 (qa + - qb)) eqn:E; qbool.
    + constructor; [by apply IH|].
      rewrite insertByZIndex_perm. constructor; [|done].
      unfold zIndexLe. rewrite Ea, Eb. apply le_Fin. lra.
    + constructor; [by constructor|].
      constructor.
      * unfold zIndexLe. rewrite Ea, Eb. apply le_Fin. lra.
      * eapply Forall_impl; [exact Hbl|]. intros c Hc. unfold zIndexLe in *.
        rewrite Ea. rewrite Eb in Hc.
        destruct (zIndexOrZero c) as [qc| | |]; try done.
        apply le_Fin. apply le_Fin in Hc. lra.
Qed.

Lemma sortedElements_sorted (app : AppState) :
  Forall finiteZIndex (elements app) ->
  StronglySorted zIndexLe (sortedElements app).
Proof.
  unfold sortedElements.
  induction 1 as [|a l Ha Hl IH]; cbn; [constructor|].
  apply insertByZIndex_sorted; try done.
  clear IH Ha. induction Hl as [|b l Hb Hl IH]; cbn; [constructor|].
  eapply Forall_forall. intros c Hc. 
  assert (Hperm : foldr insertByZIndex [] (b :: l) ≡ₚ b :: l).
  { clear. induction (b :: l) as [|c l' IH]; simpl; [reflexivity|].
    rewrite insertByZIndex_perm. by f_equiv. }
  cbn in Hperm. rewrite Hperm in Hc.
  apply elem_of_cons in Hc as [->|Hc]; [done|].
  by eapply Forall_forall in Hl.
Qed.

(** Sorting an array that is in order already changes nothing. *)
Lemma sortedElements_id (app : AppState) :
  Forall finiteZIndex (elements app) ->
  StronglySorted zIndexLe (elements app) ->
  sortedElements app = elements app.
Proof.
  unfold sortedElements. intros Hfin Hs.
  induction Hs as [|a l Hs IH Hal]; [done|].
  apply Forall_cons in Hfin as [Ha Hl]. cbn. rewrite IH by done.
  destruct l as [|b l]; [done|]. cbn.
  apply Forall_cons in Hal as [Hab _]. apply Forall_cons in Hl as [Hb _].
  destruct (isFin_Fin _ Ha) as [qa Ea]. destruct (isFin_Fin _ Hb) as [qb Eb].
  rewrite (compareByZIndex_Fin a b qa qb Ea Eb).
  unfold zIndexLe in Hab. rewrite Ea, Eb in Hab. apply le_Fin in Hab.
  destruct (Num.Qltb 0 (qa + - qb)) eqn:E; qbool; [lra|done].
Qed.

Lemma sorted_last_filter {A : Type} (R : A -> A -> Prop) (P : A -> Prop)
    `{!forall a, Decision (P a)} (l : list A) (e : A) :
  StronglySorted R l -> e ∈ l -> P e ->
  exists top, last (filter P l) = Some top /\ top ∈ l /\ (top = e \/ R e top).
Proof.
  intros Hs. induction Hs as [|a l Hs IH Hal]; intros He HP.
  - by apply elem_of_nil in He.
  - assert (Hlater : forall top, last (filter P l) = Some top ->
      last (filter P (a :: l)) = Some top).
    { intros top Htop. destruct (decide (P a)).
      - rewrite filter_cons_True by done.
        destruct (filter P l) as [|b f]; [done|]. done.
      - by rewrite filter_cons_False by done. }
    apply elem_of_cons in He as [->|He].
    + destruct (last (filter P l)) as [top|] eqn:Etop.
      * exists top. split; [by apply Hlater|].
        assert (Hin : top ∈ l).
        { apply last_Some in Etop as [f Ef].
          assert (Hf : top ∈ filter P l).
          { rewrite Ef. apply elem_of_app. right. by left. }
          by apply list_elem_of_filter in Hf as [_ Hf]. }
        split; [by right|]. right. by eapply Forall_forall in Hal.
      * exists a. rewrite filter_cons_True by done.
        apply last_None in Etop. rewrite Etop.
        split; [done|]. split; [by left|]. by left.
    + destruct (IH He HP) as (top & Htop & Hin & Hrel).
      exists top. split; [by apply Hlater|]. split; [by right|done].
Qed.

(** X19: [getElementAtPosition] returns the last element of the array
    that contains the point, and nothing when no element does.  When the
    array is in non-decreasing order of [zIndex], this is the element
    that [render] paints last among those containing the point. *)
Theorem getElementAtPosition_painted_last (px py : number) (app : AppState) :
  getElementAtPosition px py app = last (filter (hit px py) (elements app))
  /\ match getElementAtPosition px py app with
     | Some el =>
         exists before after,
           elements app = before ++ el :: after
           /\ hit px py el /\ Forall (fun e => ~ hit px py e) after
     | None => Forall (fun e => ~ hit px py e) (elements app)
     end
  /\ (Forall finiteZIndex (elements app) ->
      StronglySorted zIndexLe (elements app) ->
      getElementAtPosition px py app
      = last (filter (hit px py) (sortedElements app))).
Proof.
  unfold getElementAtPosition.
  rewrite (find_reverse_last _ (hit px py)) by done.
  split; [done|]. split.
  - destruct (last (filter (hit px py) (elements app))) as [el|] eqn:E.
    + exact (last_filter_split (hit px py) _ _ E).
    + apply last_None in E. apply Forall_forall. intros e He Hhit.
      assert (H : e ∈ filter (hit px py) (elements app))
        by (apply list_elem_of_filter; done).
      rewrite E in H. by apply elem_of_nil in H.
  - intros Hfin Hs. by rewrite sortedElements_id.
Qed.

(** X20: hit testing follows the order of the array, painting the order
    of [zIndex]: when an element under the point has a larger [zIndex]
    than the element [getElementAtPosition] returns, the returned element
    is painted underneath another element that contains the point. *)
Theorem getElementAtPosition_not_on_top (px py : number) (app : AppState)
    (el e : Element) (i : nat) :
  Forall finiteZIndex (elements app) ->
  getElementAtPosition px py app = Some el ->
  elements app !! i = Some e ->
  hit px py e ->
  Num.lt (zIndexOrZero el) (zIndexOrZero e) ->
  exists top,
    last (filter (hit px py) (sortedElements app)) = Some top
    /\ hit px py top
    /\ Num.lt (zIndexOrZero el) (zIndexOrZero top).
Proof.
  intros Hfin Hget He Hhit Hlt.
  apply list_elem_of_lookup_2 in He.
  pose proof (sortedElements_sorted app Hfin) as Hs.
  pose proof (sortedElements_perm app) as Hperm.
  assert (He' : e ∈ sortedElements app) by by rewrite Hperm.
  destruct (sorted_last_filter zIndexLe (hit px py) _ e Hs He' Hhit)
    as (top & Htop & Hin & Hrel).
  exists top. split; [done|]. split.
  - apply last_Some in Htop as [f Ef].
    assert (H : top ∈ filter (hit px py) (sortedElements app)).
    { rewrite Ef. apply elem_of_app. right. by left. }
    by apply list_elem_of_filter in H as [H _].
  - destruct Hrel as [->|Hrel]; [done|].
    rewrite Hperm in Hin.
    pose proof (proj1 (Forall_forall _ _) Hfin) as Hall.
    assert (Hel : finiteZIndex el).
    { unfold getElementAtPosition in Hget. apply find_some in Hget as [Hel _].
      apply list_elem_of_In in Hel. rewrite elem_of_reverse in Hel.
      by apply Hall. }
    pose proof (Hall top Hin) as Htopfin. pose proof (Hall e He) as Hefin.
    clear Hall Hfin Hs.
    unfold zIndexLe, finiteZIndex in *.
    destruct (zIndexOrZero el), (zIndexOrZero e), (zIndexOrZero top);
      try done.
    apply lt_Fin. apply lt_Fin in Hlt. apply le_Fin in Hrel. lra.
Qed.

Lemma getElementAtPosition_painted_last_witness :
  let app :=
    addImageToCanvas (defaultCreator [] None) (Fin 0) (pixels 1 900 1600)
      initialAppState in
  Forall finiteZIndex (elements app)
  /\ StronglySorted zIndexLe (elements app)
  /\ getElementAtPosition (Fin 150) (Fin 150) app
     = last (filter (hit (Fin 150) (Fin 150)) (sortedElements app)).
Proof.
  intros app.
  assert (H1 : Forall finiteZIndex (elements app)).
  { constructor; [exact I|constructor]. }
  assert (H2 : StronglySorted zIndexLe (elements app)).
  { constructor; constructor. }
  destruct (getElementAtPosition_painted_last (Fin 150) (Fin 150) app)
    as (_ & _ & H).
  exact (conj H1 (conj H2 (H H1 H2))).
Defined.

Lemma getElementAtPosition_not_on_top_witness :
  let app := snd (run restackTrace) in
  let px := Fin 1400 in
  let py := Fin 540 in
  exists el e,
    Forall finiteZIndex (elements app)
    /\ getElementAtPosition px py app = Some el
    /\ elements app !! 0%nat = Some e
    /\ hit px py e
    /\ Num.lt (zIndexOrZero el) (zIndexOrZero e)
    /\ exists top,
         last (filter (hit px py) (sortedElements app)) = Some top
         /\ hit px py top
         /\ Num.lt (zIndexOrZero el) (zIndexOrZero top).
Proof.
  intros app px py.
  destruct (getElementAtPosition px py app) as [el|] eqn:Hget;
    [|by vm_compute in Hget].
  destruct (elements app !! 0%nat) as [e|] eqn:He; [|by vm_compute in He].
  exists el, e.
  assert (H1 : Forall finiteZIndex (elements app)).
  { vm_compute. repeat constructor. }
  assert (H2 : hit px py e).
  { vm_compute in He. injection He as <-. reflexivity. }
  assert (H3 : Num.lt (zIndexOrZero el) (zIndexOrZero e)).
  { vm_compute in He, Hget. injection He as <-. injection Hget as <-.
    reflexivity. }
  exact (conj H1 (conj eq_refl (conj eq_refl (conj H2 (conj H3
    (getElementAtPosition_not_on_top px py app el e 0 H1 Hget He H2 H3)))))).
Defined.

(** ** Applying a layout to the canvas *)

Lemma applyNaturalAutoFitLayout_perm (this : WallpaperCreator)
    (random : nat -> Q) (positions : list Position) :
  applyNaturalAutoFitLayout this random = Some positions ->
  imageData <$> positions ≡ₚ selectedImageData this.
Proof.
  unfold applyNaturalAutoFitLayout.
  destruct (currentLayout this) as [layout|]; [|done].
  destruct (String.eqb layout "" || (size (selectedImages this) =? 0)%nat);
    [done|].
  destruct (forallb _ _); intros [= <-].
  - destruct (runLayout_runStrategy this random layout (selectedImageData this))
      as [s ->].
    apply runStrategy_perm.
  - by rewrite applyProportionalGridLayout_imageData.
Qed.

(** Whether a layout runs does not depend on [Math.random]. *)
Lemma applyNaturalAutoFitLayout_runs (this : WallpaperCreator)
    (random random' : nat -> Q) (positions : list Position) :
  applyNaturalAutoFitLayout this random = Some positions ->
  exists positions', applyNaturalAutoFitLayout this random' = Some positions'.
Proof.
  unfold applyNaturalAutoFitLayout.
  destruct (currentLayout this) as [layout|]; [|done].
  destruct (String.eqb layout "" || (size (selectedImages this) =? 0)%nat);
    [done|].
  intros _. destruct (forallb _ _); eauto.
Qed.

Lemma selectedImageData_selected (this : WallpaperCreator) (img : Image) :
  img ∈ selectedImageData this ->
  id img ∈ selectedImages this /\ img ∈ images this.
Proof. unfold selectedImageData. by rewrite list_elem_of_filter. Qed.

Lemma positionElement_data (this : WallpaperCreator) (clock : nat -> number)
    (positions : list Position) :
  elementImageData
    <$> imap (fun index pos => positionElement this (clock index) index pos)
          positions
  = imageData <$> positions.
Proof.
  apply list_eq. intros i. rewrite !list_lookup_fmap, list_lookup_imap.
  by destruct (positions !! i).
Qed.

Lemma positionElement_lookup (this : WallpaperCreator) (clock : nat -> number)
    (positions : list Position) (el : Element) :
  el ∈ imap (fun index pos => positionElement this (clock index) index pos)
        positions ->
  elementType el = "image"
  /\ imageId el = id (elementImageData el)
  /\ elementImageData el ∈ imageData <$> positions.
Proof.
  intros Hel. apply list_elem_of_lookup_1 in Hel as [i Hi].
  rewrite list_lookup_imap in Hi.
  destruct (positions !! i) as [pos|] eqn:Epos; [|done].
  injection Hi as <-. split; [done|]. split; [done|].
  cbn [elementImageData positionElement].
  apply list_elem_of_fmap. exists pos. split; [done|].
  by eapply list_elem_of_lookup_2.
Qed.

(** The elements of a layout of selected images are elements of selected
    images; the elements that are kept are not. *)
Lemma applyPositionsToCanvas_split (this : WallpaperCreator)
    (clock : nat -> number) (positions : list Position) (app : AppState) :
  (forall img, img ∈ imageData <$> positions -> id img ∈ selectedImages this) ->
  let app' := applyPositionsToCanvas this clock positions app in
  filter (notOfSelectedImage this) (elements app')
  = filter (notOfSelectedImage this) (elements app)
  /\ filter (ofSelectedImage this) (elements app')
     = imap (fun index pos => positionElement this (clock index) index pos)
         positions.
Proof.
  intros Hsel. cbn zeta. unfold applyPositionsToCanvas.
  cbn [elements saveState setElements]. rewrite !filter_app.
  assert (Hadded : forall el,
    el ∈ imap (fun index pos => positionElement this (clock index) index pos)
          positions -> ofSelectedImage this el).
  { intros el Hel.
    apply positionElement_lookup in Hel as (Htype & Hid & Hdata).
    apply Hsel in Hdata. intros [Hnot|Hnot]; [done|]. by rewrite Hid in Hnot. }
  split.
  - rewrite (filter_none (notOfSelectedImage this) (imap _ _)).
    + rewrite (right_id_L [] (++)). apply filter_all.
      intros el Hel. by apply list_elem_of_filter in Hel as [Hel _].
    + intros el Hel. by apply Hadded.
  - rewrite (filter_none (ofSelectedImage this) (filter _ _)).
    + by apply filter_all.
    + intros el Hel Hof. by apply list_elem_of_filter in Hel as [Hel _].
Qed.

(** X21: when [applyNaturalAutoFitLayout] runs a layout, the elements of
    the images that are not selected stay as they are, in their order,
    and the elements of the selected images are replaced: afterwards
    there is exactly one for every selected image.  Applying a layout
    again therefore does not change the number of elements. *)
Theorem applyNaturalAutoFitLayoutToCanvas_replaces (this : WallpaperCreator)
    (random : nat -> Q) (clock : nat -> number) (app : AppState)
    (positions : list Position) :
  applyNaturalAutoFitLayout this random = Some positions ->
  let app' := applyNaturalAutoFitLayoutToCanvas this random clock app in
  filter (notOfSelectedImage this) (elements app')
  = filter (notOfSelectedImage this) (elements app)
  /\ elementImageData <$> filter (ofSelectedImage this) (elements app')
     ≡ₚ selectedImageData this
  /\ forall random' clock',
       length (elements
                 (applyNaturalAutoFitLayoutToCanvas this random' clock' app'))
       = length (elements app').
Proof.
  intros Hrun. cbn zeta.
  assert (Hreplaced : forall random1 clock1 positions1 app1,
    applyNaturalAutoFitLayout this random1 = Some positions1 ->
    let app2 := applyNaturalAutoFitLayoutToCanvas this random1 clock1 app1 in
    filter (notOfSelectedImage this) (elements app2)
    = filter (notOfSelectedImage this) (elements app1)
    /\ elementImageData <$> filter (ofSelectedImage this) (elements app2)
       ≡ₚ selectedImageData this).
  { intros random1 clock1 positions1 app1 Hrun1. cbn zeta.
    unfold applyNaturalAutoFitLayoutToCanvas. rewrite Hrun1.
    pose proof (applyNaturalAutoFitLayout_perm _ _ _ Hrun1) as Hperm.
    destruct (applyPositionsToCanvas_split this clock1 positions1 app1)
      as [Hkept Hadded].
    { intros img Himg. rewrite Hperm in Himg.
      by apply selectedImageData_selected in Himg as [Himg _]. }
    split; [done|]. by rewrite Hadded, positionElement_data. }
  destruct (Hreplaced random clock positions app Hrun) as [Hkept Hnew].
  split; [done|]. split; [done|].
  intros random' clock'.
  destruct (applyNaturalAutoFitLayout_runs this random random' positions Hrun)
    as [positions' Hrun'].
  destruct (Hreplaced random' clock' positions'
              (applyNaturalAutoFitLayoutToCanvas this random clock app) Hrun')
    as [Hkept' Hnew'].
  assert (Hlen : forall l : list Element,
    length l = (length (filter (notOfSelectedImage this) l)
                + length (filter (ofSelectedImage this) l))%nat).
  { induction l as [|el l IH]; [done|].
    destruct (decide (notOfSelectedImage this el)) as [Hel|Hel].
    - rewrite filter_cons_True, (filter_cons_False (ofSelectedImage this))
        by (done || by intros H).
      cbn. lia.
    - rewrite filter_cons_False, (filter_cons_True (ofSelectedImage this))
        by done.
      cbn. lia. }
  rewrite (Hlen (elements (applyNaturalAutoFitLayoutToCanvas this random' _ _))).
  rewrite (Hlen (elements (applyNaturalAutoFitLayoutToCanvas this random _ _))).
  rewrite Hkept'. f_equal.
  apply Permutation_length in Hnew, Hnew'.
  rewrite length_fmap in Hnew, Hnew'. lia.
Qed.

Lemma applyNaturalAutoFitLayoutToCanvas_replaces_witness :
  let this0 :=
    defaultCreator [pixels 1 1600 900; pixels 2 900 1600]
      (Some "masonry") in
  exists positions,
    applyNaturalAutoFitLayout this0 noJitter = Some positions
    /\ elementImageData
         <$> filter (ofSelectedImage this0)
               (elements
                  (applyNaturalAutoFitLayoutToCanvas this0 noJitter
                     (fun _ => Fin 0) initialAppState))
       ≡ₚ selectedImageData this0.
Proof.
  intros this0.
  destruct (applyNaturalAutoFitLayout this0 noJitter) as [positions|] eqn:H1;
    [|by vm_compute in H1].
  exists positions.
  exact (conj eq_refl
    (proj1 (proj2 (applyNaturalAutoFitLayoutToCanvas_replaces this0 noJitter
                     (fun _ => Fin 0) initialAppState positions H1)))).
Defined.

(** ** The history *)

Lemma sliceFromStart_all {A : Type} (l : list A) :
  sliceFromStart l (Z.of_nat (length l)) = l.
Proof.
  unfold sliceFromStart.
  destruct (Z.of_nat (length l) <? 0)%Z eqn:E; [apply Z.ltb_lt in E; lia|].
  rewrite Z.min_id, Nat2Z.id. apply firstn_all.
Qed.

Lemma saveState_history (this : WallpaperCreator) (app : AppState) :
  historyConsistent app ->
  historyConsistent (saveState this app)
  /\ exists entry, history (saveState this app) = history app ++ [entry].
Proof.
  intros [Hindex Hne]. unfold saveState, historyConsistent.
  cbn [history historyIndex]. rewrite Hindex.
  replace (Z.of_nat (length (history app)) - 1 + 1)%Z
    with (Z.of_nat (length (history app))) by lia.
  rewrite sliceFromStart_all. split; [|by eexists].
  split.
  - rewrite length_app. cbn. lia.
  - by destruct (history app).
Qed.

(** A method that changes the other fields and then saves the state. *)
Lemma saved_history (this : WallpaperCreator) (app app1 : AppState) :
  history app1 = history app -> historyIndex app1 = historyIndex app ->
  historyConsistent app ->
  historyConsistent (saveState this app1)
  /\ historyExtended app (saveState this app1).
Proof.
  intros Eh Ei Hcons.
  assert (Hcons1 : historyConsistent app1).
  { unfold historyConsistent. by rewrite Eh, Ei. }
  destruct (saveState_history this app1 Hcons1) as [H [entry Hentry]].
  split; [done|]. right. exists entry. by rewrite Hentry, Eh.
Qed.

Lemma unsaved_history (app app1 : AppState) :
  history app1 = history app -> historyIndex app1 = historyIndex app ->
  historyConsistent app ->
  historyConsistent app1 /\ historyExtended app app1.
Proof.
  intros Eh Ei Hcons. split; [|by left].
  unfold historyConsistent. by rewrite Eh, Ei.
Qed.

Lemma handle_history (st : WallpaperCreator * AppState) (ev : Event) :
  historyConsistent (snd st) ->
  historyConsistent (snd (handle st ev))
  /\ historyExtended (snd st) (snd (handle st ev)).
Proof.
  destruct st as [this app]. intros Hcons. cbn [fst snd] in *.
  destruct ev; cbn [handle fst snd].
  - by apply unsaved_history.
  - destruct (images this !! index) as [image|]; [|by apply unsaved_history].
    unfold thumbnailClick.
    destruct modifier; [by apply unsaved_history|].
    destruct (size (selectedImages this) =? 0)%nat;
      [|by apply unsaved_history].
    by apply saved_history.
  - destruct (images this !! index) as [image|]; [|by apply unsaved_history].
    by apply saved_history.
  - by apply unsaved_history.
  - by apply unsaved_history.
  - unfold bulkAddToCanvas.
    destruct (size (selectedImages this) =? 0)%nat;
      [by apply unsaved_history|by apply saved_history].
  - unfold bulkDeleteImages.
    destruct (size (selectedImages this) =? 0)%nat;
      [by apply unsaved_history|].
    destruct confirmed; [by apply saved_history|by apply unsaved_history].
  - by apply unsaved_history.
  - by apply unsaved_history.
  - unfold applyNaturalAutoFitLayoutToCanvas.
    destruct (applyNaturalAutoFitLayout _ _);
      [by apply saved_history|by apply unsaved_history].
  - unfold applyNaturalAutoFitLayoutToCanvas.
    destruct (applyNaturalAutoFitLayout _ _);
      [by apply saved_history|by apply unsaved_history].
  - by apply unsaved_history.
  - by apply unsaved_history.
  - unfold fitToScreen. destruct container as [[cw ch]|];
      by apply unsaved_history.
Qed.

Lemma run_snoc (events : list Event) (ev : Event) :
  run (events ++ [ev]) = handle (run events) ev.
Proof. unfold run. by rewrite foldl_app. Qed.

(** ** What the listeners keep *)

Lemma elem_of_ids_filter (P : Image -> Prop) `{!forall a, Decision (P a)}
    (l : list Image) (i : nat) :
  i ∈ id <$> filter P l <-> exists img, img ∈ l /\ P img /\ id img = i.
Proof.
  rewrite list_elem_of_fmap. split.
  - intros (img & -> & Himg). apply list_elem_of_filter in Himg as [HP Himg].
    by exists img.
  - intros (img & Himg & HP & <-). exists img. split; [done|].
    by apply list_elem_of_filter.
Qed.

Lemma NoDup_ids_filter (P : Image -> Prop) `{!forall a, Decision (P a)}
    (l : list Image) :
  NoDup (id <$> l) -> NoDup (id <$> filter P l).
Proof.
  induction l as [|a l IH]; [done|]. rewrite fmap_cons, NoDup_cons.
  intros [Ha Hl]. destruct (decide (P a)).
  - rewrite filter_cons_True by done. rewrite fmap_cons. apply NoDup_cons.
    split; [|by apply IH].
    intros Hin. apply elem_of_ids_filter in Hin as (img & Himg & _ & Hid).
    apply Ha. rewrite <- Hid. apply list_elem_of_fmap. by exists img.
  - rewrite filter_cons_False by done. by apply IH.
Qed.

Lemma size_selectedImages (this : WallpaperCreator) :
  NoDup (id <$> images this) -> selectionKnown this ->
  size (selectedImages this) = length (selectedImageData this).
Proof.
  intros Hnodup Hknown. unfold selectedImageData.
  rewrite <- (length_fmap id).
  rewrite <- (size_list_to_set (C := gset nat)) by by apply NoDup_ids_filter.
  f_equal. apply set_eq. intros i.
  rewrite elem_of_list_to_set, elem_of_ids_filter. split.
  - intros Hi. pose proof (Hknown i Hi) as Hin.
    apply list_elem_of_fmap in Hin as (img & -> & Himg). by exists img.
  - by intros (img & _ & Hsel & <-).
Qed.

Lemma setZoom_inRange (newZoom : number) (app : AppState) :
  newZoom <> NaN -> zoomInRange (setZoom newZoom app).
Proof.
  intros Hnan. unfold zoomInRange. cbn [zoom setZoom].
  destruct newZoom as [q| | |]; [| | |done].
  - unfold Num.min, Num.max, Num.le, Num.ltb.
    destruct (Num.Qltb q 5) eqn:E1;
      [destruct (Num.Qltb (1 # 10) q) eqn:E2|
       destruct (Num.Qltb (1 # 10) 5) eqn:E2]; qbool;
      rewrite ?leb_Fin; split; apply Qle_bool_iff; lra.
  - by vm_compute.
  - by vm_compute.
Qed.

Lemma zoomInRange_Fin (app : AppState) :
  zoomInRange app -> exists z, zoom app = Fin z.
Proof.
  intros [H1 H2]. destruct (zoom app) as [z| | |]; try done. by exists z.
Qed.

Section Kept.

Variable this : WallpaperCreator.
Variable app : AppState.
Hypothesis Hcons : consistent (this, app).

Lemma kept_canvas :
  canvasWidth this = Num.ofZ 1920 /\ canvasHeight this = Num.ofZ 1080.
Proof. apply Hcons. Qed.

Lemma kept_ids : uniqueIds this app.
Proof. apply Hcons. Qed.

Lemma kept_selection : selectionKnown this.
Proof. apply Hcons. Qed.

Lemma kept_elements : Forall (knownElement this) (elements app).
Proof. apply Hcons. Qed.

Lemma kept_zoom : zoomInRange app.
Proof. apply Hcons. Qed.

Lemma imageLoaded_consistent (imgWidth imgHeight : number) :
  consistent (imageLoaded this imgWidth imgHeight app).
Proof.
  destruct Hcons as (Hcanvas & [Hnodup Hbound] & Hsel & Hel & Hzoom).
  cbn [fst snd] in *. unfold consistent, imageLoaded. cbn [fst snd].
  split; [done|]. split; [|split; [|split; [|done]]].
  - unfold uniqueIds. cbn [images setImages currentImageId].
    rewrite fmap_app. cbn. split.
    + apply NoDup_app. split; [done|]. split; [|apply NoDup_singleton].
      intros i Hi Hnew. apply list_elem_of_singleton in Hnew as ->.
      apply list_elem_of_fmap in Hi as (img & Hid & Himg).
      pose proof (proj1 (Forall_forall _ _) Hbound img Himg) as Hle.
      cbn beta in Hle. lia.
    + apply Forall_app. split.
      * eapply Forall_impl; [exact Hbound|]. intros img Himg. cbn in *. lia.
      * constructor; [cbn; lia|constructor].
  - intros i Hi. cbn [images selectedImages setImages] in *.
    rewrite fmap_app. apply elem_of_app. left. by apply Hsel.
  - cbn [elements images setImages]. eapply Forall_impl; [exact Hel|].
    intros el (Htype & Hid & Hdata). split; [done|]. split; [done|].
    apply elem_of_app. by left.
Qed.

Lemma addImageToCanvas_consistent (now : number) (image : Image) :
  image ∈ images this ->
  consistent (this, addImageToCanvas this now image app).
Proof.
  intros Himg.
  destruct Hcons as (Hcanvas & Hids & Hsel & Hel & Hzoom).
  cbn [fst snd] in *. unfold consistent. cbn [fst snd].
  split; [done|]. split; [done|]. split; [done|]. split; [|done].
  unfold addImageToCanvas.
  cbn [elements saveState selectElement setElements].
  apply Forall_app. split; [done|]. constructor; [|constructor].
  by split.
Qed.

Lemma toggleImageSelection_consistent (image : Image) :
  image ∈ images this ->
  consistent (toggleImageSelection this (id image), app).
Proof.
  intros Himg.
  destruct Hcons as (Hcanvas & Hids & Hsel & Hel & Hzoom).
  cbn [fst snd] in *. unfold consistent, toggleImageSelection.
  destruct (decide (id image ∈ selectedImages this)); cbn [fst snd];
    (split; [done|]); (split; [done|]); (split; [|split; [done|done]]);
    intros i; cbn [selectedImages images setImages].
  - rewrite elem_of_difference. intros [Hi _]. by apply Hsel.
  - rewrite elem_of_union, elem_of_singleton. intros [Hi| ->].
    + by apply Hsel.
    + apply list_elem_of_fmap. by exists image.
Qed.

Lemma deleteImage_consistent (imageId0 : nat) :
  consistent (deleteImage this imageId0 app).
Proof.
  destruct Hcons as (Hcanvas & [Hnodup Hbound] & Hsel & Hel & Hzoom).
  cbn [fst snd] in *. unfold consistent, deleteImage. cbn [fst snd].
  split; [done|]. split; [|split; [|split; [|done]]].
  - split; cbn [images setImages currentImageId saveState setElements].
    + by apply NoDup_ids_filter.
    + apply Forall_forall. intros img Himg.
      apply list_elem_of_filter in Himg as [_ Himg].
      by apply (proj1 (Forall_forall _ _) Hbound).
  - intros i. cbn [selectedImages images setImages].
    rewrite elem_of_difference, elem_of_singleton. intros [Hi Hne].
    apply elem_of_ids_filter. apply Hsel in Hi.
    apply list_elem_of_fmap in Hi as (img & -> & Himg). by exists img.
  - cbn [elements saveState setElements]. apply Forall_forall.
    intros el Hin. apply list_elem_of_filter in Hin as [Hne Hin].
    destruct (proj1 (Forall_forall _ _) Hel el Hin) as (Htype & Hid & Hdata).
    split; [done|]. split; [done|]. cbn [images setImages].
    apply list_elem_of_filter. split; [|done]. by rewrite <- Hid.
Qed.

Lemma selectAllImages_consistent : consistent (selectAllImages this, app).
Proof.
  destruct Hcons as (Hcanvas & Hids & Hsel & Hel & Hzoom).
  cbn [fst snd] in *. unfold consistent. cbn [fst snd].
  split; [done|]. split; [done|]. split; [|done].
  intros i. rewrite selectAllImages_selected.
  by rewrite elem_of_list_to_set.
Qed.

Lemma selectNoImages_consistent : consistent (selectNoImages this, app).
Proof.
  destruct Hcons as (Hcanvas & Hids & Hsel & Hel & Hzoom).
  cbn [fst snd] in *. unfold consistent. cbn [fst snd].
  split; [done|]. split; [done|]. split; [|done].
  intros i Hi. cbn [selectedImages selectNoImages setImages] in Hi.
  by apply not_elem_of_empty in Hi.
Qed.

Lemma bulkAddToCanvas_consistent (clock : nat -> number) :
  consistent (this, bulkAddToCanvas this clock app).
Proof.
  destruct Hcons as (Hcanvas & Hids & Hsel & Hel & Hzoom).
  cbn [fst snd] in *. unfold consistent, bulkAddToCanvas. cbn [fst snd].
  destruct (size (selectedImages this) =? 0)%nat; [done|].
  split; [done|]. split; [done|]. split; [done|]. split; [|done].
  cbn [elements saveState setElements].
  apply Forall_app. split; [done|]. apply Forall_forall. intros el Hin.
  apply list_elem_of_lookup_1 in Hin as [i Hi]. rewrite list_lookup_imap in Hi.
  destruct (selectedImageData this !! i) as [img|] eqn:Eimg; [|done].
  injection Hi as <-. split; [done|]. split; [done|].
  cbn [elementImageData bulkElement].
  apply list_elem_of_lookup_2 in Eimg.
  by apply selectedImageData_selected in Eimg as [_ Eimg].
Qed.

Lemma bulkDeleteImages_consistent (confirmed : bool) :
  consistent (bulkDeleteImages this confirmed app).
Proof.
  pose proof Hcons as Hcons'.
  destruct Hcons' as (Hcanvas & [Hnodup Hbound] & Hsel & Hel & Hzoom).
  cbn [fst snd] in *. unfold bulkDeleteImages.
  destruct (size (selectedImages this) =? 0)%nat; [done|].
  destruct confirmed; [|done].
  unfold consistent. cbn [fst snd].
  split; [done|]. split; [|split; [|split; [|done]]].
  - split; cbn [images setImages currentImageId saveState setElements].
    + by apply NoDup_ids_filter.
    + apply Forall_forall. intros img Himg.
      apply list_elem_of_filter in Himg as [_ Himg].
      by apply (proj1 (Forall_forall _ _) Hbound).
  - intros i Hi. cbn [selectedImages setImages] in Hi.
    by apply not_elem_of_empty in Hi.
  - cbn [elements saveState setElements]. apply Forall_forall.
    intros el Hin. apply list_elem_of_filter in Hin as [Hnot Hin].
    destruct (proj1 (Forall_forall _ _) Hel el Hin) as (Htype & Hid & Hdata).
    split; [done|]. split; [done|]. cbn [images setImages].
    apply list_elem_of_filter. split; [|done].
    destruct Hnot as [Hnot|Hnot]; [done|]. by rewrite <- Hid.
Qed.

Lemma applyToCanvas_consistent (random : nat -> Q) (clock : nat -> number) :
  consistent (this, applyNaturalAutoFitLayoutToCanvas this random clock app).
Proof.
  pose proof Hcons as Hcons'.
  destruct Hcons' as (Hcanvas & Hids & Hsel & Hel & Hzoom).
  cbn [fst snd] in *. unfold applyNaturalAutoFitLayoutToCanvas.
  destruct (applyNaturalAutoFitLayout _ random) as [positions|] eqn:Hrun;
    [|done].
  unfold consistent. cbn [fst snd].
  split; [done|]. split; [exact Hids|]. split; [done|].
  split; [|exact Hzoom].
  unfold applyPositionsToCanvas. cbn [elements saveState setElements].
  apply Forall_app. split.
  - apply Forall_forall. intros el Hin.
    apply list_elem_of_filter in Hin as [_ Hin].
    by apply (proj1 (Forall_forall _ _) Hel).
  - apply Forall_forall. intros el Hin.
    apply positionElement_lookup in Hin as (Htype & Hid & Hdata).
    split; [done|]. split; [done|].
    rewrite (applyNaturalAutoFitLayout_perm _ _ _ Hrun) in Hdata.
    by apply selectedImageData_selected in Hdata as [_ Hdata].
Qed.

Lemma setCurrentLayout_consistent (layout : option string) :
  consistent (setCurrentLayout this layout, app).
Proof. exact Hcons. Qed.

Lemma setAutoFitSettings_consistent (settings : AutoFitSettings) :
  consistent (setAutoFitSettings this settings, app).
Proof. exact Hcons. Qed.

Lemma zoomed_consistent (factor : Q) :
  consistent (this, setZoom (zoom app * Fin factor) app).
Proof.
  destruct Hcons as (Hcanvas & Hids & Hsel & Hel & Hzoom).
  cbn [fst snd] in *. unfold consistent. cbn [fst snd].
  split; [done|]. split; [done|]. split; [done|]. split; [done|].
  apply setZoom_inRange.
  destruct (zoomInRange_Fin app Hzoom) as [z ->]. done.
Qed.

Lemma fitToScreen_consistent (container : option (nat * nat)) :
  consistent (this, fitToScreen this container app).
Proof.
  destruct container as [[cw ch]|]; [|exact Hcons].
  destruct Hcons as ([Hw Hh] & Hids & Hsel & Hel & Hzoom).
  cbn [fst snd] in *. unfold consistent, fitToScreen. cbn [fst snd].
  split; [done|]. split; [exact Hids|]. split; [done|]. split; [exact Hel|].
  apply setZoom_inRange. rewrite Hw, Hh. unfold Num.ofNat, Num.ofZ.
  change (Fin ?a - Fin ?b) with (Fin (a - b)).
  rewrite !div_Fin by (unfold Qeq; cbn; lia).
  unfold Num.min. by destruct (_ <? _).
Qed.

End Kept.

Lemma zoomedOut_consistent (this : WallpaperCreator) (app : AppState) :
  consistent (this, app) ->
  consistent (this, setZoom (zoom app / Fin (12 # 10)) app).
Proof.
  intros (Hcanvas & Hids & Hsel & Hel & Hzoom).
  cbn [fst snd] in *. unfold consistent. cbn [fst snd].
  split; [done|]. split; [exact Hids|]. split; [done|]. split; [exact Hel|].
  apply setZoom_inRange.
  destruct (zoomInRange_Fin app Hzoom) as [z ->].
  by rewrite div_Fin by (unfold Qeq; cbn; lia).
Qed.

Lemma handle_consistent (st : WallpaperCreator * AppState) (ev : Event) :
  consistent st -> consistent (handle st ev).
Proof.
  destruct st as [this app]. intros Hcons.
  destruct ev; cbn [handle fst snd].
  - by apply imageLoaded_consistent.
  - destruct (images this !! index) as [image|] eqn:Eimg; [|done].
    apply list_elem_of_lookup_2 in Eimg. unfold thumbnailClick.
    destruct modifier; [by apply toggleImageSelection_consistent|].
    destruct (size (selectedImages this) =? 0)%nat.
    + by apply addImageToCanvas_consistent.
    + by apply toggleImageSelection_consistent.
  - destruct (images this !! index) as [image|]; [|done].
    by apply deleteImage_consistent.
  - by apply selectAllImages_consistent.
  - by apply selectNoImages_consistent.
  - by apply bulkAddToCanvas_consistent.
  - by apply bulkDeleteImages_consistent.
  - by apply setCurrentLayout_consistent.
  - by apply setAutoFitSettings_consistent.
  - apply applyToCanvas_consistent. by apply setCurrentLayout_consistent.
  - by apply applyToCanvas_consistent.
  - by apply zoomed_consistent.
  - by apply zoomedOut_consistent.
  - by apply fitToScreen_consistent.
Qed.

Lemma run_consistent (events : list Event) : consistent (run events).
Proof.
  induction events as [|ev events IH] using rev_ind.
  - split; [done|]. split; [split; constructor|].
    split; [|split; [constructor|by vm_compute]].
    intros i Hi. by apply not_elem_of_empty in Hi.
  - rewrite run_snoc. by apply handle_consistent.
Qed.


(** X22: [deleteImage] does not reset [selectedElement]: after an image
    has been added to the canvas by a click on its thumbnail and has then
    been deleted, the element made for it is still the selected element,
    although neither it nor any other element of that image is on the
    canvas, and the image is not in the gallery. *)
Theorem deleteImage_keeps_selectedElement (this : WallpaperCreator)
    (now : number) (image : Image) (app : AppState) :
  size (selectedImages this) = 0%nat ->
  let st1 := thumbnailClick this false now image app in
  let st2 := deleteImage (fst st1) (id image) (snd st1) in
  exists el,
    selectedElement (snd st2) = Some el
    /\ elementImageData el = image
    /\ (el ∉ elements (snd st2))
    /\ Forall (fun e => imageId e <> id image) (elements (snd st2))
    /\ image ∉ images (fst st2).
Proof.
  intros Hsize. cbn zeta. unfold thumbnailClick. rewrite Hsize.
  cbn [Nat.eqb fst snd]. eexists. split; [reflexivity|].
  split; [reflexivity|].
  unfold deleteImage, addImageToCanvas.
  cbn [fst snd elements images saveState selectElement setElements setImages].
  split; [|split].
  - intros Hin. by apply list_elem_of_filter in Hin as [Hne _].
  - apply Forall_forall. intros e Hin.
    by apply list_elem_of_filter in Hin as [Hne _].
  - intros Hin. by apply list_elem_of_filter in Hin as [Hne _].
Qed.

Lemma deleteImage_keeps_selectedElement_witness :
  let this0 := fst constructed in
  let image := pixels 1 1600 900 in
  let st1 := thumbnailClick this0 false (Fin 0) image (snd constructed) in
  let st2 := deleteImage (fst st1) (id image) (snd st1) in
  size (selectedImages this0) = 0%nat
  /\ exists el, selectedElement (snd st2) = Some el /\ el ∉ elements (snd st2).
Proof.
  intros this0 image st1 st2.
  assert (H1 : size (selectedImages this0) = 0%nat) by reflexivity.
  destruct (deleteImage_keeps_selectedElement this0 (Fin 0) image
              (snd constructed) H1) as (el & Hsel & _ & Hel & _).
  exact (conj H1 (ex_intro _ el (conj Hsel Hel))).
Defined.

(** ** Aspect ratios on the canvas *)

Lemma applyNaturalAutoFitLayout_valid (this : WallpaperCreator)
    (random : nat -> Q) (positions : list Position) :
  wellFormed this -> Forall validImage (selectedImageData this) ->
  applyNaturalAutoFitLayout this random = Some positions ->
  Forall (fun pos => validatePosition pos = true) positions.
Proof.
  intros Hwf Himgs. unfold applyNaturalAutoFitLayout.
  destruct (currentLayout this) as [layout|]; [|done].
  destruct (String.eqb layout "" || (size (selectedImages this) =? 0)%nat);
    [done|].
  destruct (forallb _ _) eqn:Hvalid; intros [= <-].
  - apply Forall_forall. intros pos Hpos.
    rewrite forallb_forall in Hvalid. apply (Hvalid (validatePosition pos)).
    apply in_map. by apply list_elem_of_In.
  - by apply applyProportionalGridLayout_valid.
Qed.

Lemma addImageToCanvas_undistorted (image : Image) :
  validImage image ->
  validateAspectRatioPreservation image (addedImageSize image) = true.
Proof.
  intros Himg. pose proof Himg as [Hw Hh].
  apply pos_Fin in Hw as (w & Ew & Hw). apply pos_Fin in Hh as (h & Eh & Hh).
  destruct (addedImageSize_cases image w h Ew Eh Hw Hh)
    as (a & b & -> & Ha & Hb & _ & _ & Hab & _).
  apply (validatePosition_exact
           (mkPosition image (Fin 0) (Fin 0) (Fin a) (Fin b))).
  - exact Himg.
  - cbn. lra.
  - exact I.
  - unfold ratioExact, calculateAspectRatio. cbn [width height imageData].
    rewrite Ew, Eh, (div_Fin w h) by lra. apply ratio_eqn; [lra|exact Hab].
Qed.

Lemma bulkElement_undistorted (now : number) (index : nat) (image : Image) :
  validImage image -> undistorted (bulkElement now index image).
Proof.
  intros Himg.
  destruct (bulkElement_height now index image Himg)
    as (h & r & Eh & Er & Hh & Hr & Hhr).
  cbn [elementHeight bulkElement] in Eh.
  apply (validatePosition_exact
           (mkPosition image (Fin 0) (Fin 0) (Fin 120)
              (Fin 120 / calculateAspectRatio image))).
  - exact Himg.
  - cbn [height]. rewrite Eh. exact Hh.
  - exact I.
  - unfold ratioExact. cbn [width height imageData]. rewrite Eh, Er.
    by apply ratio_eqn.
Qed.

Lemma Forall_filter_keeps {A : Type} (P Q : A -> Prop)
    `{!forall a, Decision (P a)} (l : list A) :
  Forall Q l -> Forall Q (filter P l).
Proof.
  intros Hl. apply Forall_forall. intros a Ha.
  apply list_elem_of_filter in Ha as [_ Ha].
  by apply (proj1 (Forall_forall _ _) Hl).
Qed.

Lemma applyToCanvas_preserving (this : WallpaperCreator) (app : AppState)
    (random : nat -> Q) (clock : nat -> number) :
  preserving (this, app) ->
  preserving (this, applyNaturalAutoFitLayoutToCanvas this random clock app).
Proof.
  intros Hpres. pose proof Hpres as (Hwf & Himgs & Hel). cbn [fst snd] in *.
  unfold applyNaturalAutoFitLayoutToCanvas.
  destruct (applyNaturalAutoFitLayout this random) as [positions|] eqn:Hrun;
    [|done].
  split; [done|]. split; [done|]. cbn [fst snd].
  unfold applyPositionsToCanvas. cbn [elements saveState setElements].
  apply Forall_app. split; [by apply Forall_filter_keeps|].
  pose proof (applyNaturalAutoFitLayout_valid this random positions Hwf
                (selectedImageData_valid this Himgs) Hrun) as Hvalid.
  apply Forall_forall. intros el Hin.
  apply list_elem_of_lookup_1 in Hin as [i Hi]. rewrite list_lookup_imap in Hi.
  destruct (positions !! i) as [pos|] eqn:Epos; [|done].
  injection Hi as <-.
  exact (Forall_lookup_1 _ _ _ _ Hvalid Epos).
Qed.

Lemma handle_preserving (st : WallpaperCreator * AppState) (ev : Event) :
  admissible ev -> preserving st -> preserving (handle st ev).
Proof.
  destruct st as [this app]. intros Hev Hpres.
  pose proof Hpres as (Hwf & Himgs & Hel). cbn [fst snd] in *.
  destruct ev; cbn [handle fst snd].
  - split; [exact Hwf|]. split; [|exact Hel].
    cbn [fst imageLoaded images setImages].
    apply Forall_app. split; [done|]. constructor; [exact Hev|constructor].
  - destruct (images this !! index) as [image|] eqn:Eimg; [|done].
    pose proof (Forall_lookup_1 _ _ _ _ Himgs Eimg) as Himg.
    assert (Htoggle : preserving (toggleImageSelection this (id image), app)).
    { unfold toggleImageSelection.
      by destruct (decide (id image ∈ selectedImages this)). }
    unfold thumbnailClick. destruct modifier; [done|].
    destruct (size (selectedImages this) =? 0)%nat; [|done].
    split; [done|]. split; [done|]. cbn [snd].
    unfold addImageToCanvas.
    cbn [elements saveState selectElement setElements].
    apply Forall_app. split; [done|]. constructor; [|constructor].
    by apply addImageToCanvas_undistorted.
  - destruct (images this !! index) as [image|]; [|done].
    split; [exact Hwf|]. split.
    + cbn [fst deleteImage images setImages]. by apply Forall_filter_keeps.
    + cbn [snd deleteImage elements saveState setElements].
      by apply Forall_filter_keeps.
  - done.
  - done.
  - split; [done|]. split; [done|]. cbn [snd]. unfold bulkAddToCanvas.
    destruct (size (selectedImages this) =? 0)%nat; [done|].
    cbn [elements saveState setElements].
    apply Forall_app. split; [done|]. apply Forall_forall. intros el Hin.
    apply list_elem_of_lookup_1 in Hin as [i Hi].
    rewrite list_lookup_imap in Hi.
    destruct (selectedImageData this !! i) as [img|] eqn:Eimg; [|done].
    injection Hi as <-. apply bulkElement_undistorted.
    exact (Forall_lookup_1 _ _ _ _ (selectedImageData_valid this Himgs) Eimg).
  - unfold bulkDeleteImages.
    destruct (size (selectedImages this) =? 0)%nat; [done|].
    destruct confirmed; [|done].
    split; [exact Hwf|]. split.
    + cbn [fst images setImages]. by apply Forall_filter_keeps.
    + cbn [snd elements saveState setElements]. by apply Forall_filter_keeps.
  - done.
  - destruct Hev as (Hsp & Hm & Hmin). destruct Hwf as (_ & _ & _ & Hcw & Hch).
    split; [|done]. by repeat split.
  - by apply applyToCanvas_preserving.
  - by apply applyToCanvas_preserving.
  - done.
  - done.
  - split; [done|]. split; [done|]. cbn [snd]. unfold fitToScreen.
    by destruct container as [[cw ch]|].
Qed.


(** ** Dragging *)

Lemma elementIndexAtPosition_find (px py : number) (els : list Element)
    (n : nat) :
  (n <= length els)%nat ->
  snd <$> elementIndexAtPosition px py els n
  = find (isPointInElement px py) (reverse (take n els)).
Proof.
  induction n as [|j IH]; intros Hn; [done|].
  destruct (lookup_lt_is_Some_2 els j) as [el Hel]; [lia|].
  rewrite (take_S_r _ _ _ Hel), reverse_snoc. cbn [elementIndexAtPosition find].
  rewrite Hel. destruct (isPointInElement px py el); [done|].
  apply IH. lia.
Qed.

Lemma elementIndexAtPosition_lookup (px py : number) (els : list Element)
    (n i : nat) (el : Element) :
  elementIndexAtPosition px py els n = Some (i, el) ->
  els !! i = Some el /\ hit px py el.
Proof.
  induction n as [|j IH]; [done|]. cbn [elementIndexAtPosition].
  destruct (els !! j) as [e|] eqn:He; [|exact IH].
  destruct (isPointInElement px py e) eqn:Hhit; [|exact IH].
  by intros [= <- <-].
Qed.

Lemma handleCanvasMouseDown_element (e : Mouse) (app : AppState)
    (drag : Drag) :
  selectedElement (fst (handleCanvasMouseDown e (app, drag)))
  = getElementAtPosition ((clientX e - rectLeft e) / zoom app)
      ((clientY e - rectTop e) / zoom app) app.
Proof.
  unfold handleCanvasMouseDown, getElementAtPosition. cbn [fst snd].
  rewrite <- (firstn_all (elements app)) at 3.
  rewrite <- elementIndexAtPosition_find by done.
  by destruct (elementIndexAtPosition _ _ _ _) as [[i el]|].
Qed.

Lemma afterFilter_lookup (keep : Element -> Prop)
    `{!forall el, Decision (keep el)} (els : list Element) (i j : nat)
    (el : Element) :
  els !! i = Some el -> afterFilter keep els (Some i) = Some j ->
  filter keep els !! j = Some el /\ (j < length (filter keep els))%nat.
Proof.
  intros Hel. unfold afterFilter. rewrite Hel.
  destruct (decide (keep el)) as [Hkeep|]; [|done]. intros [= <-].
  assert (E : filter keep els
              = filter keep (take i els)
                ++ el :: filter keep (drop (S i) els)).
  { rewrite <- (take_drop_middle els i el Hel) at 1.
    by rewrite filter_app, filter_cons_True by done. }
  rewrite E. split.
  - by rewrite list_lookup_middle.
  - rewrite length_app. cbn. lia.
Qed.

Section Aliased.

Variable this : WallpaperCreator.
Variable app : AppState.
Variable drag : Drag.
Hypothesis Halias : aliased (app, drag).

(** A listener that leaves the array and the selected element alone. *)
Lemma untouched_aliased (app' : AppState) (drag' : Drag) :
  elements app' = elements app -> selectedElement app' = selectedElement app ->
  selectedIndex drag' = selectedIndex drag ->
  aliased (app', drag').
Proof.
  intros Eel Esel Eindex i. cbn [fst snd]. rewrite Eel, Esel, Eindex.
  apply Halias.
Qed.

(** A listener that appends to the array. *)
Lemma appended_aliased (app' : AppState) (drag' : Drag)
    (added : list Element) :
  elements app' = elements app ++ added ->
  selectedElement app' = selectedElement app ->
  selectedIndex drag' = selectedIndex drag ->
  aliased (app', drag').
Proof.
  intros Eel Esel Eindex i. cbn [fst snd]. rewrite Eel, Esel, Eindex.
  intros Hi. destruct (Halias i Hi) as (el & Hel & Hsel). cbn [fst snd] in *.
  exists el. split; [|done]. by apply lookup_app_l_Some.
Qed.

(** A listener that filters the array and then appends to it. *)
Lemma filtered_aliased (keep : Element -> Prop)
    `{!forall el, Decision (keep el)} (app' : AppState) (drag' : Drag)
    (added : list Element) :
  elements app' = filter keep (elements app) ++ added ->
  selectedElement app' = selectedElement app ->
  selectedIndex drag' = afterFilter keep (elements app) (selectedIndex drag) ->
  aliased (app', drag').
Proof.
  intros Eel Esel Eindex j. cbn [fst snd]. rewrite Eel, Esel, Eindex.
  destruct (selectedIndex drag) as [i|] eqn:Ei; [|done].
  destruct (Halias i Ei) as (el & Hel & Hsel). cbn [fst snd] in *.
  intros Hj. destruct (afterFilter_lookup keep _ i j el Hel Hj) as [Hlookup _].
  exists el. split; [|done]. by apply lookup_app_l_Some.
Qed.

Lemma handle_aliased (ev : Event) :
  aliased
    (snd (handle (this, app) ev),
     {| selectedIndex := selectedIndexAfter ev this app (selectedIndex drag);
        isDragging := isDragging drag;
        dragOffsetX := dragOffsetX drag;
        dragOffsetY := dragOffsetY drag |}).
Proof.
  destruct ev; cbn [handle selectedIndexAfter fst snd].
  - by apply untouched_aliased.
  - destruct (images this !! index) as [image|]; [|by apply untouched_aliased].
    unfold thumbnailClick.
    destruct modifier; cbn [negb andb]; [by apply untouched_aliased|].
    destruct (size (selectedImages this) =? 0)%nat;
      [|by apply untouched_aliased].
    intros i [= <-]. eexists. split; [|reflexivity].
    unfold addImageToCanvas.
    cbn [fst snd elements saveState selectElement setElements].
    by rewrite list_lookup_middle.
  - destruct (images this !! index) as [image|]; [|by apply untouched_aliased].
    apply (filtered_aliased (fun el => imageId el <> id image) _ _ []);
      [|done|done].
    cbn [snd deleteImage elements saveState setElements].
    by rewrite (right_id_L [] (++)).
  - by apply untouched_aliased.
  - by apply untouched_aliased.
  - unfold bulkAddToCanvas.
    destruct (size (selectedImages this) =? 0)%nat;
      [by apply untouched_aliased|].
    by eapply appended_aliased.
  - unfold bulkDeleteImages.
    destruct (size (selectedImages this) =? 0)%nat;
      [by apply untouched_aliased|].
    destruct confirmed; [|by apply untouched_aliased].
    apply (filtered_aliased (notOfSelectedImage this) _ _ []); [|done|done].
    cbn [snd elements saveState setElements].
    by rewrite (right_id_L [] (++)).
  - by apply untouched_aliased.
  - by apply untouched_aliased.
  - unfold applyNaturalAutoFitLayoutToCanvas.
    destruct (applyNaturalAutoFitLayout _ random) as [positions|];
      [|by apply untouched_aliased].
    by eapply (filtered_aliased
                 (notOfSelectedImage (setCurrentLayout this layoutType))).
  - unfold applyNaturalAutoFitLayoutToCanvas.
    destruct (applyNaturalAutoFitLayout _ random) as [positions|];
      [|by apply untouched_aliased].
    by eapply (filtered_aliased (notOfSelectedImage this)).
  - by apply untouched_aliased.
  - by apply untouched_aliased.
  - unfold fitToScreen. destruct container as [[cw ch]|];
      by apply untouched_aliased.
Qed.

Lemma handleCanvasMouseDown_aliased (e : Mouse) :
  aliased (handleCanvasMouseDown e (app, drag)).
Proof.
  unfold handleCanvasMouseDown. cbn [fst snd].
  destruct (elementIndexAtPosition _ _ _ _) as [[i el]|] eqn:Hhit; [|done].
  apply elementIndexAtPosition_lookup in Hhit as [Hel _].
  intros j [= <-]. by exists el.
Qed.

(** Moving the mouse changes the selected object, in the array as well
    if it is there. *)
Lemma handleCanvasMouseMove_elements (e : Mouse) :
  let st' := handleCanvasMouseMove e (app, drag) in
  aliased st'
  /\ (elements (fst st') = elements app
      \/ exists i el newX newY,
           elements app !! i = Some el
           /\ elements (fst st') = <[i := moveElement el newX newY]> (elements app)).
Proof.
  cbn zeta. unfold handleCanvasMouseMove. cbn [fst snd].
  destruct (isDragging drag); cbn [negb]; [|by split; [|left]].
  destruct (selectedElement app) as [el|] eqn:Hsel; [|by split; [|left]].
  cbn [fst snd]. destruct (selectedIndex drag) as [i|] eqn:Hi.
  - destruct (Halias i Hi) as (el' & Hel & Hsel'). cbn [fst snd] in *.
    rewrite Hsel in Hsel'. injection Hsel' as <-. split.
    + intros j. cbn [fst snd selectedIndex elements selectedElement].
      rewrite Hi. intros [= <-]. eexists. split; [|reflexivity].
      apply list_lookup_insert_eq. by eapply lookup_lt_Some.
    + right. by eexists i, el, _, _.
  - split; [|by left]. intros j. cbn [snd]. by rewrite Hi.
Qed.

Lemma handleCanvasMouseUp_aliased :
  aliased (handleCanvasMouseUp this (app, drag)).
Proof.
  unfold handleCanvasMouseUp. cbn [fst snd].
  destruct (isDragging drag); by apply untouched_aliased.
Qed.

End Aliased.

Lemma act_aliased (st : WallpaperCreator * AppState * Drag) (a : Action) :
  aliased (appOf st, dragOf st) ->
  aliased (appOf (act st a), dragOf (act st a)).
Proof.
  destruct st as [[this app] drag]. unfold appOf, dragOf. cbn [fst snd].
  intros Halias. destruct a; cbn [act fst snd].
  - by apply handle_aliased.
  - rewrite <- surjective_pairing. by apply handleCanvasMouseDown_aliased.
  - rewrite <- surjective_pairing.
    by apply (handleCanvasMouseMove_elements app drag Halias).
  - rewrite <- surjective_pairing. by apply handleCanvasMouseUp_aliased.
Qed.

Lemma runAll_snoc (actions : list Action) (a : Action) :
  runAll (actions ++ [a]) = act (runAll actions) a.
Proof. unfold runAll. by rewrite foldl_app. Qed.

(** Without the mouse the instance is as [run] says. *)
Lemma runAll_listeners (events : list Event) :
  fst (runAll (Listener <$> events)) = run events.
Proof.
  induction events as [|ev events IH] using rev_ind; [done|].
  rewrite fmap_app. change (Listener <$> [ev]) with [Listener ev].
  rewrite runAll_snoc, run_snoc. cbn [act fst].
  by rewrite <- surjective_pairing, IH.
Qed.

Lemma runAll_aliased (actions : list Action) :
  aliased (appOf (runAll actions), dragOf (runAll actions)).
Proof.
  induction actions as [|a actions IH] using rev_ind; [done|].
  rewrite runAll_snoc. by apply act_aliased.
Qed.

Lemma handleCanvasMouseDown_fields (e : Mouse) (app : AppState)
    (drag : Drag) :
  let app' := fst (handleCanvasMouseDown e (app, drag)) in
  elements app' = elements app /\ history app' = history app
  /\ historyIndex app' = historyIndex app /\ zoom app' = zoom app
  /\ currentImageId app' = currentImageId app.
Proof.
  cbn zeta. unfold handleCanvasMouseDown. cbn [fst snd].
  by destruct (elementIndexAtPosition _ _ _ _) as [[i el]|].
Qed.

Lemma handleCanvasMouseMove_fields (e : Mouse) (app : AppState)
    (drag : Drag) :
  let app' := fst (handleCanvasMouseMove e (app, drag)) in
  history app' = history app
  /\ historyIndex app' = historyIndex app /\ zoom app' = zoom app
  /\ currentImageId app' = currentImageId app.
Proof.
  cbn zeta. unfold handleCanvasMouseMove. cbn [fst snd].
  destruct (isDragging drag); cbn [negb]; [|done].
  by destruct (selectedElement app).
Qed.

(** What holds of every element and does not depend on its position
    still holds after the mouse has moved. *)
Lemma handleCanvasMouseMove_Forall (Q : Element -> Prop) (e : Mouse)
    (app : AppState) (drag : Drag) :
  (forall el newX newY, Q el -> Q (moveElement el newX newY)) ->
  aliased (app, drag) -> Forall Q (elements app) ->
  Forall Q (elements (fst (handleCanvasMouseMove e (app, drag)))).
Proof.
  intros HQ Halias Hall.
  destruct (handleCanvasMouseMove_elements app drag Halias e)
    as [_ [->|(i & el & newX & newY & Hel & ->)]]; [done|].
  apply Forall_insert; [done|]. apply HQ.
  exact (Forall_lookup_1 _ _ _ _ Hall Hel).
Qed.

Lemma act_history (st : WallpaperCreator * AppState * Drag) (a : Action) :
  historyConsistent (appOf st) ->
  historyConsistent (appOf (act st a))
  /\ historyExtended (appOf st) (appOf (act st a)).
Proof.
  destruct st as [[this app] drag]. unfold appOf. cbn [fst snd].
  intros Hcons. destruct a; cbn [act fst snd].
  - by apply (handle_history (this, app)).
  - destruct (handleCanvasMouseDown_fields e app drag)
      as (_ & Eh & Ei & _).
    by apply unsaved_history.
  - destruct (handleCanvasMouseMove_fields e app drag)
      as (Eh & Ei & _).
    by apply unsaved_history.
  - unfold handleCanvasMouseUp. cbn [fst snd].
    destruct (isDragging drag);
      [by apply saved_history|by apply unsaved_history].
Qed.

Lemma act_consistent (st : WallpaperCreator * AppState * Drag) (a : Action) :
  aliased (appOf st, dragOf st) ->
  consistent (fst st) -> consistent (fst (act st a)).
Proof.
  destruct st as [[this app] drag]. unfold appOf, dragOf. cbn [fst snd].
  intros Halias Hcons. destruct a; cbn [act fst snd].
  - by apply handle_consistent.
  - destruct Hcons as (Hcanvas & [Hnodup Hbound] & Hsel & Hel & Hzoom).
    destruct (handleCanvasMouseDown_fields e app drag)
      as (Eel & _ & _ & Ezoom & Eid).
    cbn [fst snd] in *. unfold consistent, uniqueIds, zoomInRange.
    cbn [fst snd]. by rewrite Eel, Ezoom, Eid.
  - destruct Hcons as (Hcanvas & [Hnodup Hbound] & Hsel & Hel & Hzoom).
    destruct (handleCanvasMouseMove_fields e app drag)
      as (_ & _ & Ezoom & Eid).
    cbn [fst snd] in *. unfold consistent, uniqueIds, zoomInRange.
    cbn [fst snd]. rewrite Ezoom, Eid.
    split; [done|]. split; [done|]. split; [done|]. split; [|done].
    by apply handleCanvasMouseMove_Forall.
  - unfold handleCanvasMouseUp. cbn [fst snd].
    destruct (isDragging drag); exact Hcons.
Qed.

Lemma act_preserving (st : WallpaperCreator * AppState * Drag) (a : Action) :
  admissibleAction a ->
  aliased (appOf st, dragOf st) ->
  preserving (fst st) -> preserving (fst (act st a)).
Proof.
  destruct st as [[this app] drag]. unfold appOf, dragOf. cbn [fst snd].
  intros Ha Halias Hpres. destruct a; cbn [act fst snd].
  - by apply handle_preserving.
  - destruct Hpres as (Hwf & Himgs & Hel).
    destruct (handleCanvasMouseDown_fields e app drag) as (Eel & _).
    cbn [fst snd] in *. unfold preserving. cbn [fst snd]. by rewrite Eel.
  - destruct Hpres as (Hwf & Himgs & Hel). cbn [fst snd] in *.
    split; [done|]. split; [done|]. cbn [snd].
    by apply handleCanvasMouseMove_Forall.
  - unfold handleCanvasMouseUp. cbn [fst snd].
    destruct (isDragging drag); exact Hpres.
Qed.

(** X23: whatever the listeners have done, [historyIndex] is the index of
    the last entry of a history that is not empty, so that [saveState]
    discards nothing: every action leaves the history as it is or appends
    one entry to it. *)
Theorem runAll_history (actions : list Action) (a : Action) :
  historyConsistent (appOf (runAll actions))
  /\ historyExtended (appOf (runAll actions))
       (appOf (runAll (actions ++ [a]))).
Proof.
  assert (H : forall l, historyConsistent (appOf (runAll l))).
  { induction l as [|b l IH] using rev_ind.
    - split; [reflexivity|discriminate].
    - rewrite runAll_snoc. by apply act_history. }
  split; [done|]. rewrite runAll_snoc. by apply act_history.
Qed.

(** X24: whatever the listeners have done, the ids of the images are
    distinct and were handed out by [loadImage], only images of the
    gallery are selected, every element of the canvas shows an image of
    the gallery (deleting an image removes its elements), the zoom is
    between 0.1 and 5, [selectedImages.size] is the number of the
    selected images, and the selected element is in the array where the
    model says it is. *)
Theorem runAll_references (actions : list Action) :
  let st := runAll actions in
  consistent (fst st)
  /\ size (selectedImages (fst (fst st)))
     = length (selectedImageData (fst (fst st)))
  /\ aliased (appOf st, dragOf st).
Proof.
  cbn zeta.
  assert (Hcons : consistent (fst (runAll actions))).
  { induction actions as [|a actions IH] using rev_ind.
    - exact (run_consistent []).
    - rewrite runAll_snoc.
      apply act_consistent; [apply runAll_aliased|done]. }
  split; [done|]. split; [|apply runAll_aliased].
  destruct Hcons as (_ & [Hnodup _] & Hsel & _).
  by apply size_selectedImages.
Qed.

(** X25: as long as the loaded images have positive dimensions and the
    settings keep a finite spacing and margin and a positive minimum
    size, every element on the canvas passes the ratio check for its
    image, whichever way it was put there (by a click on a thumbnail, by
    [bulkAddToCanvas] or by a layout) and wherever it was dragged. *)
Theorem runAll_undistorted (actions : list Action) :
  Forall admissibleAction actions ->
  Forall undistorted (elements (appOf (runAll actions))).
Proof.
  intros Hactions.
  enough (preserving (fst (runAll actions))) as (_ & _ & H) by exact H.
  induction actions as [|a actions IH] using rev_ind.
  - split; [by vm_compute|]. split; constructor.
  - apply Forall_app in Hactions as [Hactions Ha].
    apply Forall_cons in Ha as [Ha _].
    rewrite runAll_snoc.
    apply act_preserving; [done|apply runAll_aliased|by apply IH].
Qed.

Lemma runAll_undistorted_witness :
  Forall admissibleAction dragTrace
  /\ Forall undistorted (elements (appOf (runAll dragTrace))).
Proof.
  assert (H1 : Forall admissibleAction dragTrace).
  { repeat constructor. }
  exact (conj H1 (runAll_undistorted dragTrace H1)).
Defined.

Lemma max_zero_nonnegative (v : number) : ~ Num.lt (Num.max (Fin 0) v) (Fin 0).
Proof.
  destruct v as [q| | |]; unfold Num.lt, Num.max, Num.ltb; try done.
  destruct (Num.Qltb 0 q) eqn:E; qbool; intros H; qbool; lra.
Qed.

Lemma max_zero_offset (p p0 p1 : Q) :
  Num.eqn (Num.max (Fin 0) (Fin p1 - (Fin p0 - Fin p)))
    (Num.max (Fin 0) (Fin p + (Fin p1 - Fin p0))).
Proof.
  change (Fin p1 - (Fin p0 - Fin p)) with (Fin (p1 + - (p0 + - p))).
  change (Fin p + (Fin p1 - Fin p0)) with (Fin (p + (p1 + - p0))).
  unfold Num.max, Num.ltb.
  destruct (Num.Qltb 0 (p1 + - (p0 + - p))) eqn:E1;
    destruct (Num.Qltb 0 (p + (p1 + - p0))) eqn:E2; qbool; cbn; lra.
Qed.

(** X26: a mouse-down on a point of the canvas grabs the element that
    [getElementAtPosition] returns there, and a following mouse-move
    changes the position of that element and nothing else on the canvas:
    the element follows the pointer by the distance the pointer has moved,
    except that its [x] and [y] are never negative. *)
Theorem handleCanvasMouseMove_drag (down move : Mouse) (app : AppState)
    (drag : Drag) (el : Element) :
  let x0 := (clientX down - rectLeft down) / zoom app in
  let y0 := (clientY down - rectTop down) / zoom app in
  let x1 := (clientX move - rectLeft move) / zoom app in
  let y1 := (clientY move - rectTop move) / zoom app in
  let st2 := handleCanvasMouseMove move (handleCanvasMouseDown down (app, drag)) in
  getElementAtPosition x0 y0 app = Some el ->
  exists i newX newY,
    elements app !! i = Some el
    /\ elements (fst st2) = <[i := moveElement el newX newY]> (elements app)
    /\ selectedElement (fst st2) = Some (moveElement el newX newY)
    /\ ~ Num.lt newX (Fin 0) /\ ~ Num.lt newY (Fin 0)
    /\ (Num.isFin x0 -> Num.isFin x1 -> Num.isFin (elementX el) ->
        Num.eqn newX (Num.max (Fin 0) (elementX el + (x1 - x0))))
    /\ (Num.isFin y0 -> Num.isFin y1 -> Num.isFin (elementY el) ->
        Num.eqn newY (Num.max (Fin 0) (elementY el + (y1 - y0)))).
Proof.
  cbn zeta. intros Hget.
  unfold getElementAtPosition in Hget.
  rewrite <- (firstn_all (elements app)) in Hget at 1.
  rewrite <- elementIndexAtPosition_find in Hget by done.
  unfold handleCanvasMouseDown. cbn [fst snd].
  destruct (elementIndexAtPosition _ _ _ _) as [[i el']|] eqn:Hhit; [|done].
  injection Hget as ->.
  apply elementIndexAtPosition_lookup in Hhit as [Hel _].
  unfold handleCanvasMouseMove.
  cbn [fst snd isDragging negb selectedElement selectElement zoom
       selectedIndex dragOffsetX dragOffsetY elements].
  eexists i, _, _. split; [exact Hel|]. split; [reflexivity|].
  split; [reflexivity|].
  split; [apply max_zero_nonnegative|]. split; [apply max_zero_nonnegative|].
  split.
  - intros H0 H1 Hx. apply isFin_Fin in H0 as [p0 ->].
    apply isFin_Fin in H1 as [p1 ->]. apply isFin_Fin in Hx as [p ->].
    apply max_zero_offset.
  - intros H0 H1 Hy. apply isFin_Fin in H0 as [p0 ->].
    apply isFin_Fin in H1 as [p1 ->]. apply isFin_Fin in Hy as [p ->].
    apply max_zero_offset.
Qed.

Lemma handleCanvasMouseMove_drag_witness :
  let app := appOf (runAll (take 3 dragTrace)) in
  let down := mkMouse (Fin 210) (Fin 160) (Fin 10) (Fin 10) in
  let move := mkMouse (Fin 50) (Fin 260) (Fin 10) (Fin 10) in
  exists el,
    getElementAtPosition (Fin 200) (Fin 150) app = Some el
    /\ exists i newX newY,
         elements app !! i = Some el
         /\ elements
              (fst (handleCanvasMouseMove move
                      (handleCanvasMouseDown down (app, initialDrag))))
            = <[i := moveElement el newX newY]> (elements app)
         /\ ~ Num.lt newX (Fin 0).
Proof.
  intros app down move.
  destruct (getElementAtPosition (Fin 200) (Fin 150) app) as [el|] eqn:Hget;
    [|by vm_compute in Hget].
  exists el. split; [reflexivity|].
  destruct (handleCanvasMouseMove_drag down move app initialDrag el Hget)
    as (i & newX & newY & H1 & H2 & _ & H3 & _).
  exact (ex_intro _ i (ex_intro _ newX (ex_intro _ newY
    (conj H1 (conj H2 H3))))).
Defined.
